(** * ClassBalanceModel (metal/label_model/class_balance.py)

    A shallow embedding of the tensor-factorisation estimator of the class
    balance, and the properties of it that the specification states.

    Conventions of the embedding.
    - An n-dimensional array (numpy.ndarray, torch.Tensor) is a [shape]
      together with an [item] function from a multi-index to the element
      stored there.  [item] is only ever read at indices inside [shape];
      what NumPy does outside (IndexError) is written out where the source
      can get there (fancy indexing by [col_order]).
    - Integer arrays hold [Z] (or [nat] for argmax results); floating-point
      arrays hold real numbers [R]: arithmetic is exact, rounding, inf and
      NaN are outside the model.  The two places where the program leaves
      the finite floats are the division by the number of rows in
      [_get_overlaps_tensor] (0 / 0 is nan for a matrix with no rows) and
      the cube root in the decoding of [train_model] (0.0 at 0, so that
      1 / 0.0 is inf, and nan below 0).  There a real number stands where
      the program holds inf or nan, so a statement that gives the value of
      an entry says so only under the hypothesis that keeps the program
      finite: at least one row, a positive [p_y[y]].
    - Python exceptions are the left summand of [result].  The shape errors
      that torch reports from inside the closure when O, the mask and Q do
      not fit together are not modelled: [get_loss] is written for an O of
      the shape of the mask.
    - torch.rand and optim.LBFGS are not part of the repository: they are
      parameters of [train_model].  [verbose] only switches printing. *)

From Stdlib Require Import String.
From Stdlib Require Import Reals Lra Lia ZArith Bool Arith List.
From Stdlib Require Import Permutation Sorted.
Import ListNotations.

Set Implicit Arguments.

(** ** Exceptions *)

Inductive exn : Type :=
| ValueError (msg : string)
| IndexError (msg : string).

Definition result (A : Type) : Type := sum exn A.

Definition ret {A : Type} (a : A) : result A := inr a.

Definition raise {A : Type} (e : exn) : result A := inl e.

Definition bind {A B : Type} (c : result A) (f : A -> result B) : result B :=
  match c with
  | inl e => inl e
  | inr a => f a
  end.

Notation "x <- c ;; k" := (bind c (fun x => k))
  (at level 61, c at next level, right associativity).

(** ** Arrays and the NumPy / torch operations the source calls *)

Module Np.

Record ndarray (A : Type) : Type := mk_ndarray {
  shape : list nat;
  item : list nat -> A
}.

(** [A.shape[i]] (0 past the last axis). *)
Definition dim {A : Type} (t : ndarray A) (i : nat) : nat := nth i (shape t) 0.

(** All multi-indices of a shape, in row-major (C) order. *)
Fixpoint indices (s : list nat) : list (list nat) :=
  match s with
  | [] => [[]]
  | n :: s' => flat_map (fun i => map (cons i) (indices s')) (seq 0 n)
  end.

Definition Zsum (l : list nat) (f : nat -> Z) : Z :=
  fold_right (fun i acc => (f i + acc)%Z) 0%Z l.

Definition Rsum (l : list nat) (f : nat -> R) : R :=
  fold_right (fun i acc => (f i + acc)%R) 0%R l.

Definition Rsum_list (l : list R) : R := fold_right Rplus 0%R l.

(** A 2-D integer array given by its rows. *)
Definition of_rows (rows : list (list Z)) : ndarray Z :=
  {| shape := [length rows; length (hd [] rows)];
     item := fun idx =>
       match idx with
       | [b; c] => nth c (nth b rows []) 0%Z
       | _ => 0%Z
       end |}.

(** A 3-D real array given as a list of matrices, each a list of rows. *)
Definition of_rows3 (t : list (list (list R))) : ndarray R :=
  {| shape := [length t; length (hd [] t); length (hd [] (hd [] t))];
     item := fun idx =>
       match idx with
       | [i; v; y] => nth y (nth v (nth i t []) []) 0%R
       | _ => 0%R
       end |}.

(** [np.where(L == y, 1, 0)] *)
Definition where_eq (L : ndarray Z) (y : Z) : ndarray Z :=
  {| shape := shape L;
     item := fun idx => if Z.eqb (item L idx) y then 1%Z else 0%Z |}.

Definition zeros_Z (s : list nat) : ndarray Z :=
  {| shape := s; item := fun _ => 0%Z |}.

(** [np.array([t0, t1, ...])] of equally shaped arrays: a new leading axis. *)
Definition stack (ts : list (ndarray Z)) : ndarray Z :=
  {| shape := length ts :: shape (hd (zeros_Z []) ts);
     item := fun idx =>
       match idx with
       | a :: rest => item (nth a ts (zeros_Z [])) rest
       | [] => 0%Z
       end |}.

(** [np.einsum("abc,dbe,fbg->cegadf", X, Y, W)] *)
Definition einsum_abc_dbe_fbg_cegadf (X Y W : ndarray Z) : ndarray Z :=
  {| shape :=
       match shape X, shape Y, shape W with
       | [a; _; c], [d; _; e], [f; _; g] => [c; e; g; a; d; f]
       | _, _, _ => []
       end;
     item := fun idx =>
       match idx with
       | [c; e; g; a; d; f] =>
           Zsum (seq 0 (dim X 1))
                (fun b => (item X [a; b; c] * item Y [d; b; e] * item W [f; b; g])%Z)
       | _ => 0%Z
       end |}.

(** [A / n] for an integer array and a Python int: true division.  For
    [n = 0] NumPy gives nan or inf and warns, where [R] gives 0: the
    quotient is that of the program for [1 <= n] only. *)
Definition true_divide (A : ndarray Z) (n : nat) : ndarray R :=
  {| shape := shape A;
     item := fun idx => (IZR (item A idx) / INR n)%R |}.

(** [torch.ones(s).byte()] *)
Definition ones_byte (s : list nat) : ndarray Z :=
  {| shape := s; item := fun _ => 1%Z |}.

(** [mask[i, j, k, :, :, :] = v] on a 6-D array. *)
Definition setitem3 (mask : ndarray Z) (i j k : nat) (v : Z) : ndarray Z :=
  {| shape := shape mask;
     item := fun idx =>
       match idx with
       | [i'; j'; k'; _; _; _] =>
           if (i' =? i) && (j' =? j) && (k' =? k) then v else item mask idx
       | _ => item mask idx
       end |}.

(** [itertools.product(l, repeat=3)] *)
Definition product3 (l : list nat) : list (nat * nat * nat) :=
  flat_map (fun i => flat_map (fun j => map (fun k => (i, j, k)) l) l) l.

(** [len(set((i, j, k)))] *)
Definition len_set3 (i j k : nat) : nat :=
  length (nodup Nat.eq_dec [i; j; k]).

(** [torch.einsum("aby,cdy,efy->acebdf", [P, Q, S])] *)
Definition einsum_aby_cdy_efy_acebdf (P Q S : ndarray R) : ndarray R :=
  {| shape :=
       match shape P, shape Q, shape S with
       | [a; b; _], [c; d; _], [e; f; _] => [a; c; e; b; d; f]
       | _, _, _ => []
       end;
     item := fun idx =>
       match idx with
       | [a; c; e; b; d; f] =>
           Rsum (seq 0 (dim P 2))
                (fun y => (item P [a; b; y] * item Q [c; d; y] * item S [e; f; y])%R)
       | _ => 0%R
       end |}.

(** [A - B] for two arrays of one shape. *)
Definition sub (A B : ndarray R) : ndarray R :=
  {| shape := shape A;
     item := fun idx => (item A idx - item B idx)%R |}.

(** [A[mask]] for a byte mask of the shape of [A]: the selected entries as
    a 1-D array, in row-major order. *)
Definition masked_select (A : ndarray R) (mask : ndarray Z) : list R :=
  map (item A)
      (filter (fun idx => negb (Z.eqb (item mask idx) 0)) (indices (shape mask))).

(** [torch.norm(v)] of a 1-D tensor: the 2-norm. *)
Definition norm (v : list R) : R :=
  sqrt (Rsum_list (map (fun x => (x * x)%R) v)).

(** [q.sum(axis=1)] of a 3-D array. *)
Definition sum_axis1 (q : ndarray R) : ndarray R :=
  {| shape := match shape q with
              | [m; _; k] => [m; k]
              | s => s
              end;
     item := fun idx =>
       match idx with
       | [i; y] => Rsum (seq 0 (dim q 1)) (fun v => item q [i; v; y])
       | _ => 0%R
       end |}.

(** [A ** n] for a Python int [n]. *)
Definition pow_int (A : ndarray R) (n : nat) : ndarray R :=
  {| shape := shape A; item := fun idx => (item A idx ^ n)%R |}.

(** [np.mean(A, axis=0)] of a 2-D array. *)
Definition mean_axis0 (A : ndarray R) : ndarray R :=
  {| shape := tl (shape A);
     item := fun idx =>
       match idx with
       | [y] => (Rsum (seq 0 (dim A 0)) (fun i => item A [i; y])
                 / INR (dim A 0))%R
       | _ => 0%R
       end |}.

(** [A ** e] for a float exponent.  For a positive base [Rpower] is the
    power that NumPy computes; for a base that is 0 or negative NumPy gives
    0.0 (for [e > 0]) or nan, where [Rpower] gives 1: the power is that of
    the program for a positive base only. *)
Definition pow_float (A : ndarray R) (e : R) : ndarray R :=
  {| shape := shape A; item := fun idx => Rpower (item A idx) e |}.

(** [c / A] for a scalar [c]. *)
Definition rdiv (c : R) (A : ndarray R) : ndarray R :=
  {| shape := shape A; item := fun idx => (c / item A idx)%R |}.

(** [np.diag(v)] of a 1-D array. *)
Definition diag (v : ndarray R) : ndarray R :=
  {| shape := [dim v 0; dim v 0];
     item := fun idx =>
       match idx with
       | [z; y] => if z =? y then item v [z] else 0%R
       | _ => 0%R
       end |}.

(** [q @ D] for a 3-D [q] and a 2-D [D]: matrix product on the last two
    axes of [q]. *)
Definition matmul (q D : ndarray R) : ndarray R :=
  {| shape := match shape q with
              | [m; v; _] => [m; v; dim D 1]
              | s => s
              end;
     item := fun idx =>
       match idx with
       | [i; v; y] =>
           Rsum (seq 0 (dim q 2))
                (fun z => (item q [i; v; z] * item D [z; y])%R)
       | _ => 0%R
       end |}.

(** [A[:, 1:, :]] *)
Definition drop_first_axis1 (A : ndarray R) : ndarray R :=
  {| shape := match shape A with
              | [m; v; k] => [m; v - 1; k]
              | s => s
              end;
     item := fun idx =>
       match idx with
       | [i; v; y] => item A [i; S v; y]
       | _ => 0%R
       end |}.

Definition Rltb (x y : R) : bool := if Rlt_dec x y then true else false.

(** First index of a maximal element, scanning left to right. *)
Fixpoint argmax_from {A : Type} (ltb : A -> A -> bool)
         (best_i : nat) (best : A) (i : nat) (l : list A) : nat :=
  match l with
  | [] => best_i
  | x :: t =>
      if ltb best x then argmax_from ltb i x (S i) t
      else argmax_from ltb best_i best (S i) t
  end.

(** [argmax] of a 1-D sequence; NumPy raises ValueError on an empty one. *)
Definition argmax {A : Type} (ltb : A -> A -> bool) (l : list A) : result nat :=
  match l with
  | [] => raise (ValueError "attempt to get argmax of an empty sequence")
  | x :: t => ret (argmax_from ltb 0 x 1 t)
  end.

Fixpoint mapM {A B : Type} (f : A -> result B) (l : list A) : result (list B) :=
  match l with
  | [] => ret []
  | a :: t => b <- f a ;; bs <- mapM f t ;; ret (b :: bs)
  end.

(** [A.argmax(axis=2)] of a 3-D array: the (m, v) integer array of the
    results, as its list of rows.  NumPy refuses an axis of length 0 whatever
    the other axes are. *)
Definition argmax_axis2 (A : ndarray R) : result (list (list nat)) :=
  match shape A with
  | [m; v; k] =>
      if k =? 0 then raise (ValueError "attempt to get argmax of an empty sequence")
      else
        mapM (fun i =>
                mapM (fun v' => argmax Rltb (map (fun y => item A [i; v'; y]) (seq 0 k)))
                     (seq 0 v))
             (seq 0 m)
  | _ => raise (ValueError "axis 2 is out of bounds")
  end.

(** Lexicographic order on integer rows. *)
Fixpoint lex_ltb (r s : list nat) : bool :=
  match r, s with
  | [], [] => false
  | [], _ :: _ => true
  | _ :: _, [] => false
  | x :: r', y :: s' => (x <? y) || ((x =? y) && lex_ltb r' s')
  end.

Definition row_eqb (r s : list nat) : bool :=
  if list_eq_dec Nat.eq_dec r s then true else false.

(** One row more in the sorted table of distinct rows and their counts. *)
Fixpoint insert_row (r : list nat) (acc : list (list nat * nat))
  : list (list nat * nat) :=
  match acc with
  | [] => [(r, 1)]
  | (r', c) :: rest =>
      if row_eqb r r' then (r', S c) :: rest
      else if lex_ltb r r' then (r, 1) :: acc
      else (r', c) :: insert_row r rest
  end.

(** [np.unique(A, axis=0, return_counts=True)]: the distinct rows in
    lexicographic order and how often each occurs. *)
Definition unique_rows (rows : list (list nat)) : list (list nat) * list nat :=
  let table := fold_left (fun acc r => insert_row r acc) rows [] in
  (map fst table, map snd table).

(** [A[idx]] for an integer index array: selection along axis 0 ([gather]),
    IndexError when an index is not below the length of that axis. *)
Definition gather (A : ndarray R) (idx : list nat) : ndarray R :=
  {| shape := length idx :: tl (shape A);
     item := fun i =>
       match i with
       | j :: rest => item A (nth j idx 0 :: rest)
       | [] => 0%R
       end |}.

Definition take (A : ndarray R) (idx : list nat) : result (ndarray R) :=
  if forallb (fun j => j <? dim A 0) idx then ret (gather A idx)
  else raise (IndexError "index out of bounds for axis 0").

End Np.

Import Np.

(** ** The model class *)

Record ClassBalanceModel : Type := mk_model {
  config : option string;
  k : nat;
  abstains : bool;
  k_0 : nat;
  k_lf : nat;
  cond_probs : option (ndarray R);
  class_balance : option (ndarray R);
  attr_m : option nat;
  attr_mask : option (ndarray Z);
  attr_Q : option (ndarray R)
}.

(** [__init__] *)
Definition __init__ (k : nat) (abstains : bool) (config : option string)
  : ClassBalanceModel :=
  {| config := config;
     k := k;
     abstains := abstains;
     k_0 := if abstains then 0 else 1;
     k_lf := if abstains then k + 1 else k;
     cond_probs := None;
     class_balance := None;
     attr_m := None;
     attr_mask := None;
     attr_Q := None |}.

Definition set_m (self : ClassBalanceModel) (m : nat) : ClassBalanceModel :=
  mk_model (config self) (k self) (abstains self) (k_0 self) (k_lf self)
           (cond_probs self) (class_balance self)
           (Some m) (attr_mask self) (attr_Q self).

Definition set_mask (self : ClassBalanceModel) (mask : ndarray Z) : ClassBalanceModel :=
  mk_model (config self) (k self) (abstains self) (k_0 self) (k_lf self)
           (cond_probs self) (class_balance self)
           (attr_m self) (Some mask) (attr_Q self).

Definition set_Q (self : ClassBalanceModel) (Q : ndarray R) : ClassBalanceModel :=
  mk_model (config self) (k self) (abstains self) (k_0 self) (k_lf self)
           (cond_probs self) (class_balance self)
           (attr_m self) (attr_mask self) (Some Q).

Definition set_class_balance (self : ClassBalanceModel) (p : ndarray R)
  : ClassBalanceModel :=
  mk_model (config self) (k self) (abstains self) (k_0 self) (k_lf self)
           (cond_probs self) (Some p)
           (attr_m self) (attr_mask self) (attr_Q self).

Definition set_cond_probs (self : ClassBalanceModel) (c : ndarray R)
  : ClassBalanceModel :=
  mk_model (config self) (k self) (abstains self) (k_0 self) (k_lf self)
           (Some c) (class_balance self)
           (attr_m self) (attr_mask self) (attr_Q self).

(** [range(self.k_0, self.k + 1)] *)
Definition label_range (self : ClassBalanceModel) : list Z :=
  map Z.of_nat (seq (k_0 self) (k self + 1 - k_0 self)).

(** The (k_lf, n, m) indicator tensor [LY]. *)
Definition indicator_tensor (self : ClassBalanceModel) (L : ndarray Z) : ndarray Z :=
  stack (map (fun y => where_eq L y) (label_range self)).

(** [_get_overlaps_tensor]; [n, m = L.shape] fails unless [L] is 2-D. *)
Definition _get_overlaps_tensor (self : ClassBalanceModel) (L : ndarray Z)
  : result (ndarray R) :=
  match shape L with
  | [n; m] =>
      let LY := indicator_tensor self L in
      let O_ := true_divide (einsum_abc_dbe_fbg_cegadf LY LY LY) n in
      (* torch.from_numpy(O).float(): the same real numbers *)
      ret O_
  | _ => raise (ValueError "wrong number of values to unpack")
  end.

(** One turn of the loop of [get_mask]. *)
Definition mask_step (mask : ndarray Z) (ijk : nat * nat * nat) : ndarray Z :=
  match ijk with
  | (i, j, k) => if len_set3 i j k <? 3 then setitem3 mask i j k 0%Z else mask
  end.

(** [get_mask] *)
Definition get_mask (self : ClassBalanceModel) (m : nat) : ndarray Z :=
  fold_left mask_step
            (product3 (seq 0 m))
            (ones_byte [m; m; m; k_lf self; k_lf self; k_lf self]).

(** [get_loss] *)
Definition get_loss (O_ Q : ndarray R) (mask : ndarray Z) : R :=
  let diffs := masked_select (sub O_ (einsum_aby_cdy_efy_acebdf Q Q Q)) mask in
  (norm diffs ^ 2)%R.

(** The decoding lines of [train_model], on [q = self.Q.detach().numpy()]. *)

(** [p_y = np.mean(q.sum(axis=1) ** 3, axis=0)] *)
Definition p_y_of (q : ndarray R) : ndarray R :=
  mean_axis0 (pow_int (sum_axis1 q) 3).

(** [cps = q @ np.diag(1 / p_y ** (1 / 3))] *)
Definition cps_of (q : ndarray R) : ndarray R :=
  matmul q (diag (rdiv 1 (pow_float (p_y_of q) (1 / 3)))).

(** Total mass that source [i] puts on latent column [y]: [q.sum(axis=1)[i, y]]. *)
Definition column_mass (q : ndarray R) (kl i y : nat) : R :=
  Rsum (seq 0 kl) (fun v => item q [i; v; y]).

(** [cps_na]: the non-abstain rows of [cps]. *)
Definition cps_na_of (self : ClassBalanceModel) (cps : ndarray R) : ndarray R :=
  if k self <? k_lf self then drop_first_axis1 cps else cps.

(** [vals[counts.argmax()]] *)
Definition most_common_row (rows : list (list nat)) : result (list nat) :=
  let (vals, counts) := unique_rows rows in
  i <- argmax Nat.ltb counts ;;
  ret (nth i vals []).

(** [col_order] *)
Definition col_order_of (self : ClassBalanceModel) (q : ndarray R)
  : result (list nat) :=
  rows <- argmax_axis2 (cps_na_of self (cps_of q)) ;;
  most_common_row rows.

Section Train.

(** [torch.rand(shape)]: the random draw. *)
Variable torch_rand : list nat -> list nat -> R.

(** [optim.LBFGS([Q], lr, max_iter).step(closure)]: the entries of the
    parameter tensor once the optimiser returns, from the learning rate, the
    iteration bound, the loss as a function of the parameter and the initial
    parameter.  The optimiser updates the tensor in place: its shape stays. *)
Variable lbfgs_step :
  R -> nat -> (ndarray R -> R) -> ndarray R -> list nat -> R.

(** [train_model]: the instance after the call and whether it raised. *)
Definition train_model (self : ClassBalanceModel)
           (L : option (ndarray Z)) (O_ : option (ndarray R))
           (lr : R) (max_iter : nat) (verbose : bool)
  : ClassBalanceModel * result unit :=
  let input :=
    match O_ with
    | Some O_ => ret O_
    | None =>
        match L with
        | Some L => _get_overlaps_tensor self L
        | None => raise (ValueError "L or O required as input.")
        end
    end in
  match input with
  | inl e => (self, inl e)
  | inr O_ =>
      match shape O_ with
      | [] => (self, raise (IndexError "tuple index out of range"))
      | m :: _ =>
          let self := set_m self m in
          let mask := get_mask self m in
          let self := set_mask self mask in
          let Q0 := {| shape := [m; k_lf self; k self];
                       item := torch_rand [m; k_lf self; k self] |} in
          let self := set_Q self Q0 in
          let closure := fun Q => get_loss O_ Q mask in
          let Q := {| shape := shape Q0;
                      item := lbfgs_step lr max_iter closure Q0 |} in
          let self := set_Q self Q in
          let q := Q in
          let p_y := p_y_of q in
          let cps := cps_of q in
          match col_order_of self q with
          | inl e => (self, inl e)
          | inr col_order =>
              match take p_y col_order with
              | inl e => (self, inl e)
              | inr cb =>
                  let self := set_class_balance self cb in
                  match take cps col_order with
                  | inl e => (self, inl e)
                  | inr cp => (set_cond_probs self cp, ret tt)
                  end
              end
          end
      end
  end.

(** [self.Q] once the optimiser has returned, for the overlaps tensor used
    and [m = O.shape[0]]. *)
Definition fitted_Q (self : ClassBalanceModel) (O_ : ndarray R)
           (lr : R) (max_iter m : nat) : ndarray R :=
  let mask := get_mask self m in
  let Q0 := {| shape := [m; k_lf self; k self];
               item := torch_rand [m; k_lf self; k self] |} in
  {| shape := shape Q0;
     item := lbfgs_step lr max_iter (fun Q => get_loss O_ Q mask) Q0 |}.

End Train.

(** The optimiser when it makes no update ([max_iter = 0], or a gradient
    already below tolerance): the parameter keeps its initial entries. *)
Definition lbfgs_no_update (lr : R) (max_iter : nat) (closure : ndarray R -> R)
           (Q0 : ndarray R) : list nat -> R :=
  item Q0.

(** [x] is 1 up to the tolerance 1e-4. *)
Definition within_tol (x : R) : Prop := (Rabs (x - 1) <= 1 / 10000)%R.

(** What the specification promises of the stored estimates after a fit on
    m sources. *)
Definition fit_guarantees (self : ClassBalanceModel) (m : nat) : Prop :=
  exists cb cp,
    class_balance self = Some cb /\ cond_probs self = Some cp /\
    shape cb = [k self] /\
    (forall y, y < k self -> (0 <= item cb [y] <= 1)%R) /\
    within_tol (Rsum (seq 0 (k self)) (fun y => item cb [y])) /\
    (forall i y, i < m -> y < k self ->
                 within_tol (column_mass cp (k_lf self) i y)).

(** [A[:, :, idx]]: selection along the last axis of a 3-D array. *)
Definition take_columns (A : ndarray R) (idx : list nat) : ndarray R :=
  {| shape := match shape A with
              | [m; v; _] => [m; v; length idx]
              | s => s
              end;
     item := fun i =>
       match i with
       | [i'; v; y] => item A [i'; v; nth y idx 0]
       | _ => 0%R
       end |}.

(** What the specification promises of the column order: a permutation of
    the k latent columns, by which [p_y] and the columns of [cps] are
    reindexed. *)
Definition column_order_claim (self : ClassBalanceModel) (q : ndarray R)
           (cb cp : ndarray R) : Prop :=
  exists col_order,
    col_order_of self q = inr col_order /\
    Permutation col_order (seq 0 (k self)) /\
    (forall j, j < k self -> item cb [j] = item (p_y_of q) [nth j col_order 0]) /\
    (forall i v y, i < dim q 0 -> v < k_lf self -> y < k self ->
                   item cp [i; v; y] = item (take_columns (cps_of q) col_order) [i; v; y]).

(** A model as [__init__] leaves it, and as every method keeps it. *)
Definition wf (self : ClassBalanceModel) : Prop :=
  k_0 self = (if abstains self then 0 else 1) /\
  k_lf self = (if abstains self then k self + 1 else k self).

(** Every entry of the n x m label matrix is in {k_0, ..., k}. *)
Definition valid_labels (self : ClassBalanceModel) (L : ndarray Z) (n m : nat) : Prop :=
  shape L = [n; m] /\
  forall b c, b < n -> c < m ->
    (Z.of_nat (k_0 self) <= item L [b; c] <= Z.of_nat (k self))%Z.

(** Sum of the entries [O[i, j, l, a, b, c]] over all value triples. *)
Definition value_mass (O_ : ndarray R) (kl i j l : nat) : R :=
  Rsum (seq 0 kl) (fun a =>
    Rsum (seq 0 kl) (fun b =>
      Rsum (seq 0 kl) (fun c => item O_ [i; j; l; a; b; c]))).

(** The integer contraction behind [O]: how many examples show the three
    (source, value) pairs together. *)
Definition overlap_count (self : ClassBalanceModel) (L : ndarray Z)
           (idx : list nat) : Z :=
  let LY := indicator_tensor self L in
  item (einsum_abc_dbe_fbg_cegadf LY LY LY) idx.

(** What the specification promises of [O], for n x m input and k_lf values. *)
Definition overlaps_distribution (O_ : ndarray R) (m kl : nat) : Prop :=
  (forall i j l a b c,
      i < m -> j < m -> l < m -> a < kl -> b < kl -> c < kl ->
      (0 <= item O_ [i; j; l; a; b; c] <= 1)%R) /\
  (forall i j l, i < m -> j < m -> l < m -> value_mass O_ kl i j l = 1%R).

(** [np.zeros((0, 3), dtype=int)]: a label matrix without examples. *)
Definition L_no_rows : ndarray Z := {| shape := [0; 3]; item := fun _ => 0%Z |}.

(** Two examples labelled by three sources, abstains allowed, k = 2. *)
Definition L_two_rows : ndarray Z := of_rows [[1; 0; 2]; [2; 2; 0]]%Z.

(** The rank-k symmetric reconstruction of the specification:
    [reconstructed[i,j,l,a,b,c] = sum_y Q[i,a,y] * Q[j,b,y] * Q[l,c,y]]. *)
Definition reconstructed (Q : ndarray R) (kk i j l a b c : nat) : R :=
  Rsum (seq 0 kk) (fun y => (item Q [i; a; y] * item Q [j; b; y] * item Q [l; c; y])%R).

(** The objective in the specification's words: the sum, over the entries
    where the mask is true, of the squared residual between [O] and the
    reconstruction. *)
Definition masked_squared_residuals (O_ Q : ndarray R) (mask : ndarray Z)
           (m kl kk : nat) : R :=
  Rsum (seq 0 m) (fun i => Rsum (seq 0 m) (fun j => Rsum (seq 0 m) (fun l =>
  Rsum (seq 0 kl) (fun a => Rsum (seq 0 kl) (fun b => Rsum (seq 0 kl) (fun c =>
    if negb (Z.eqb (item mask [i; j; l; a; b; c]) 0)
    then ((item O_ [i; j; l; a; b; c] - reconstructed Q kk i j l a b c) ^ 2)%R
    else 0%R)))))).

(** [np.zeros((3, 3, 3, 3, 3, 3))] *)
Definition O_zeros : ndarray R :=
  {| shape := [3; 3; 3; 3; 3; 3]; item := fun _ => 0%R |}.

(** A factor for three sources, k = 2 and abstains: every source puts the
    matrix of rows (abstain, label 1, label 2) and columns (y = 0, y = 1)
    below.  Both latent columns have mass 1 and both labels prefer column 0. *)
Definition Q_skewed : ndarray R :=
  of_rows3 (repeat [[0; 1 / 2]; [1 / 2; 1 / 4]; [1 / 2; 1 / 4]]%R 3).

(** The count a table of (row, count) pairs holds for a row. *)
Fixpoint table_count (T : list (list nat * nat)) (r : list nat) : nat :=
  match T with
  | [] => 0
  | (r', c) :: rest => if row_eqb r r' then c else table_count rest r
  end.

(** The rows of a table increase strictly in lexicographic order. *)
Definition sorted_keys (T : list (list nat * nat)) : Prop :=
  StronglySorted (fun p q => lex_ltb (fst p) (fst q) = true) T.

(** How often a row occurs among the rows of an integer matrix. *)
Definition occurrences (rows : list (list nat)) (r : list nat) : nat :=
  count_occ (list_eq_dec Nat.eq_dec) rows r.

(** A factor for two sources, k = 2, no abstains, whose sources disagree on
    the order of the latent columns (rows are the labels 1, 2). *)
Definition Q_tied : ndarray R :=
  of_rows3 [[[3 / 4; 1 / 4]; [1 / 4; 3 / 4]];
            [[1 / 4; 3 / 4]; [3 / 4; 1 / 4]]]%R.

(** The cube root of 1/2. *)
Definition cbrt_half : R := Rpower (1 / 2) (1 / 3).

(** The exact factor of three conditionally independent sources of accuracy
    3/4 on two equally likely classes, no abstains:
    [Q[i, v, y] = P(source i emits v | Y = y) * P(Y = y)^(1/3)]. *)
Definition Q_exact : ndarray R :=
  of_rows3 (repeat [[3 / 4 * cbrt_half; 1 / 4 * cbrt_half];
                    [1 / 4 * cbrt_half; 3 / 4 * cbrt_half]]%R 3).

(** The overlaps tensor that [Q_exact] reconstructs. *)
Definition O_exact : ndarray R := einsum_aby_cdy_efy_acebdf Q_exact Q_exact Q_exact.

(** The same three sources with the decimal 0.7937 for the cube root of
    1/2: a factor with rational entries that is exact up to rounding. *)
Definition Q_near : ndarray R :=
  of_rows3 (repeat [[3 / 4 * (7937 / 10000); 1 / 4 * (7937 / 10000)];
                    [1 / 4 * (7937 / 10000); 3 / 4 * (7937 / 10000)]]%R 3).

(** The overlaps tensor that [Q_near] reconstructs. *)
Definition O_near : ndarray R := einsum_aby_cdy_efy_acebdf Q_near Q_near Q_near.

(** A draw of [torch.rand] for three sources, k = 2 and abstains (rows:
    abstain, label 1, label 2; columns: y = 0, y = 1).  The first two
    sources put mass 1/2 on either latent column, the third puts mass 2;
    label 1 prefers column 0 and label 2 column 1 for every source. *)
Definition Q_uneven : ndarray R :=
  of_rows3 [[[1 / 8; 1 / 8]; [1 / 4; 1 / 8]; [1 / 8; 1 / 4]];
            [[1 / 8; 1 / 8]; [1 / 4; 1 / 8]; [1 / 8; 1 / 4]];
            [[3 / 5; 3 / 5]; [4 / 5; 3 / 5]; [3 / 5; 4 / 5]]]%R.

(** The instance after a fit that stops at the factor [Q] with column
    order [col_order]. *)
Definition fit_state (self : ClassBalanceModel) (m : nat) (Q : ndarray R)
           (col_order : list nat) : ClassBalanceModel :=
  set_cond_probs
    (set_class_balance
       (set_Q (set_mask (set_m self m) (get_mask self m)) Q)
       (gather (p_y_of Q) col_order))
    (gather (cps_of Q) col_order).

(** [k_0 <= x <= k]: the label is one a source may emit. *)
Definition in_label_range (self : ClassBalanceModel) (x : Z) : bool :=
  (Z.of_nat (k_0 self) <=? x)%Z && (x <=? Z.of_nat (k self))%Z.

(** How many of the n examples carry a label of the range in each of the
    columns [cols]. *)
Definition rows_in_range (self : ClassBalanceModel) (L : ndarray Z) (n : nat)
           (cols : list nat) : nat :=
  length (filter (fun e => forallb (fun c => in_label_range self (item L [e; c])) cols)
                 (seq 0 n)).

(** Two examples, the second with a label 5 outside {0, 1, 2} in column 1. *)
Definition L_stray_label : ndarray Z := of_rows [[1; 0; 2]; [2; 5; 0]]%Z.

(** The overlaps tensor of m independent sources that emit each of kl
    values equally often. *)
Definition O_uniform (m kl : nat) : ndarray R :=
  {| shape := [m; m; m; kl; kl; kl];
     item := fun _ => (1 / INR (kl * kl * kl))%R |}.





(** ** The multi-task helpers (metal/mmtl)

    Payloads, data loaders and datasets are records with the attributes the
    helpers read and write; a Python dict is an association list in
    insertion order.  The spaCy documents, the BERT tokenizer, the GLUE
    dataset class and nltk's sentence_bleu are not part of the repository:
    documents are given by what the code reads of them (the token texts, and
    start, end and label of the entities), the rest are parameters. *)

Module Mmtl.

Inductive exc : Type :=
| ValueError (msg : string)
| IndexError (msg : string)
| KeyError (key : string)
| AssertionError.

Definition res (A : Type) : Type := sum exc A.

Definition bind {A B : Type} (c : res A) (f : A -> res B) : res B :=
  match c with
  | inl e => inl e
  | inr a => f a
  end.

Notation "x <~ c ;; k" := (bind c (fun x => k))
  (at level 61, c at next level, right associativity).

Fixpoint mapM {A B : Type} (f : A -> res B) (l : list A) : res (list B) :=
  match l with
  | [] => inr []
  | a :: t => b <~ f a ;; bs <~ mapM f t ;; inr (b :: bs)
  end.

(** [l[i]] for a list and a non-negative index. *)
Definition list_get {A : Type} (l : list A) (i : nat) : res A :=
  match nth_error l i with
  | Some a => inr a
  | None => inl (IndexError "list index out of range")
  end.

(** [l.index(x)] *)
Fixpoint list_index (l : list string) (x : string) : res nat :=
  match l with
  | [] => inl (ValueError (String.append "'" (String.append x "' is not in list")))
  | y :: t => if String.eqb y x then inr 0
              else i <~ list_index t x ;; inr (S i)
  end.

(** A dict: its items in insertion order. *)
Definition dict (V : Type) : Type := list (string * V).

Fixpoint dict_get {V : Type} (d : dict V) (key : string) : option V :=
  match d with
  | [] => None
  | (k', v) :: t => if String.eqb key k' then Some v else dict_get t key
  end.

(** [d[key] = v]: a present key keeps its place. *)
Fixpoint dict_set {V : Type} (d : dict V) (key : string) (v : V) : dict V :=
  match d with
  | [] => [(key, v)]
  | (k', v') :: t =>
      if String.eqb key k' then (k', v) :: t else (k', v') :: dict_set t key v
  end.

Definition dict_keys {V : Type} (d : dict V) : list string := map fst d.

(** *** auxiliary_tasks.py *)

Definition NER_TAGS : list string :=
  ["0.0"; "PERSON"; "NORP"; "FAC"; "ORG"; "GPE"; "LOC"; "PRODUCT"; "EVENT";
   "WORK_OF_ART"; "LAW"; "LANGUAGE"; "DATE"; "TIME"; "PERCENT"; "MONEY";
   "QUANTITY"; "ORDINAL"; "CARDINAL"]%string.

(** A named entity of a spaCy document: a span of tokens and its label. *)
Record Ent : Type := mk_ent {
  ent_start : nat;
  ent_end : nat;
  label_ : string
}.

(** A spaCy document: the texts of its tokens and its entities. *)
Record Doc : Type := mk_doc {
  doc_tokens : list string;
  ents : list Ent
}.

Record Tokenizer : Type := mk_tokenizer {
  tokenize : string -> list string;
  convert_ids_to_tokens : list nat -> list string
}.

(** [get_bert_spacy_index] *)
Definition get_bert_spacy_index (spc : Doc) (tokenizer : Tokenizer) (add_cls : bool)
  : list nat * list string :=
  let bert_tokens := if add_cls then ["[CLS]"%string] else [] in
  let orig_to_tok_map := @nil nat in
  let (orig_to_tok_map, bert_tokens) :=
    fold_left
      (fun st orig_token =>
         let (orig_to_tok_map, bert_tokens) := st : list nat * list string in
         (orig_to_tok_map ++ [length bert_tokens],
          bert_tokens ++ tokenize tokenizer orig_token))
      (doc_tokens spc) (orig_to_tok_map, bert_tokens) in
  (orig_to_tok_map, bert_tokens ++ ["[SEP]"%string]).

(** A string stored in a NumPy array of dtype <U32 keeps 32 characters. *)
Definition U32 (s : string) : string := String.substring 0 32 s.

(** [np.zeros((n,)).astype(str)] *)
Definition zeros_astype_str (n : nat) : list string := repeat "0.0"%string n.

Fixpoint slice_assign_from (i : nat) (arr : list string) (a b : nat) (v : string)
  : list string :=
  match arr with
  | [] => []
  | x :: t =>
      (if (a <=? i) && (i <? b) then v else x) :: slice_assign_from (S i) t a b v
  end.

(** [arr[a:b] = v] on a 1-D array of strings, for [0 <= a] and [0 <= b]. *)
Definition slice_assign (arr : list string) (a b : nat) (v : string) : list string :=
  slice_assign_from 0 arr a b (U32 v).

(** The loop [for ent in sent.ents: tag_strs[map[start] : map[min(end, len(map)-1)]] = label_]. *)
Fixpoint assign_ents (token_map : list nat) (tag_strs : list string) (es : list Ent)
  : res (list string) :=
  match es with
  | [] => inr tag_strs
  | ent :: rest =>
      a <~ list_get token_map (ent_start ent) ;;
      b <~ list_get token_map (Nat.min (ent_end ent) (length token_map - 1)) ;;
      assign_ents token_map (slice_assign tag_strs a b (label_ ent)) rest
  end.

(** The loop [while len(tags) < n: tags.append(0)]. *)
Fixpoint pad_zeros (fuel : nat) (tags : list nat) (n : nat) : list nat :=
  match fuel with
  | 0 => tags
  | S fuel' => if length tags <? n then pad_zeros fuel' (tags ++ [0]) n else tags
  end.

Section Payloads.

(** The type of a BLEU score. *)
Variable score : Type.

(** [nltk.translate.bleu_score.sentence_bleu(references, hypothesis,
    weights=(1, 0, 0, 0))] *)
Variable sentence_bleu : list string -> list string -> score.

(** What a label set holds for one item. *)
Inductive label : Type :=
| Bleu (s : score)
| NerTags (tags : list nat)
| Given (y : Z).

Record Dataset : Type := mk_dataset {
  dataset_len : nat;
  bert_tokens : list (list nat);
  bert_segments : list (list nat);
  spacy_tokens : list (Doc * Doc);
  bert_tokenizer : Tokenizer;
  labels : dict (list label)
}.

Record DataLoader : Type := mk_data_loader {
  dataset : Dataset
}.

Record Payload : Type := mk_payload {
  name : string;
  data_loader : DataLoader;
  task_names : list string;
  split : string
}.

(** *** utils/dataloaders.py *)

(** The third argument of [add_labels_to_payload]: a list, a callable, or
    anything else. *)
Inductive label_arg : Type :=
| LabelList (l : list label)
| LabelFn (f : nat -> res label)
| LabelOther.

(** [add_labels_to_payload]: the payload after the call (it is updated in
    place) and whether the call returns or raises.  The call returns the
    payload object itself, which is the first component, so a return is
    [inr tt]. *)
Definition add_labels_to_payload (payload : Payload) (task_name : string)
           (label_fn : label_arg) : Payload * res unit :=
  let labels_new :=
    match label_fn with
    | LabelList l => inr l
    | LabelFn f => mapM f (seq 0 (dataset_len (dataset (data_loader payload))))
    | LabelOther =>
        inl (ValueError "Incorrect label object type -- supply list or function")
    end in
  match labels_new with
  | inl e => (payload, inl e)
  | inr labels_new =>
      let ds := dataset (data_loader payload) in
      let ds' := mk_dataset (dataset_len ds) (bert_tokens ds) (bert_segments ds)
                            (spacy_tokens ds) (bert_tokenizer ds)
                            (dict_set (labels ds) task_name labels_new) in
      (mk_payload (name payload) (mk_data_loader ds')
                  (task_names payload ++ [task_name]) (split payload),
       inr tt)
  end.

(** *** auxiliary_tasks.py, continued *)

(** [toks[segs == v]] for two 1-D arrays; the boolean index must have the
    length of the array. *)
Definition mask_select (toks : list string) (segs : list nat) (v : nat)
  : res (list string) :=
  if length toks =? length segs then
    inr (map fst (filter (fun p => snd p =? v) (combine toks segs)))
  else inl (IndexError "boolean index did not match indexed array").

(** [get_bleu_label] of [add_bleu_labels] *)
Definition get_bleu_label (payload : Payload) (it : nat) : res label :=
  let ds := dataset (data_loader payload) in
  toks <~ list_get (bert_tokens ds) it ;;
  let toks := convert_ids_to_tokens (bert_tokenizer ds) toks in
  segs <~ list_get (bert_segments ds) it ;;
  sent1 <~ mask_select toks segs 0 ;;
  sent2 <~ mask_select toks segs 1 ;;
  inr (Bleu (sentence_bleu sent1 sent2)).

(** [add_bleu_labels] *)
Definition add_bleu_labels (payload : Payload) : Payload * res unit :=
  add_labels_to_payload payload "BLEU" (LabelFn (get_bleu_label payload)).

(** [get_spacy_ner_tags] of [add_spacy_ner_labels] *)
Definition get_spacy_ner_tags (payload : Payload) (it : nat) : res (list nat) :=
  let ds := dataset (data_loader payload) in
  sents <~ list_get (spacy_tokens ds) it ;;
  let (sent1, sent2) := sents : Doc * Doc in
  let tokenizer := bert_tokenizer ds in
  let (sent1_token_map, sent1_bert) := get_bert_spacy_index sent1 tokenizer true in
  let (sent2_token_map, sent2_bert) := get_bert_spacy_index sent2 tokenizer false in
  ids <~ list_get (bert_tokens ds) it ;;
  let bert_tokens_orig := convert_ids_to_tokens (bert_tokenizer ds) ids in
  let sent_1_tag_strs := zeros_astype_str (length sent1_bert) in
  let sent_2_tag_strs := zeros_astype_str (length sent2_bert) in
  sent_1_tag_strs <~ assign_ents sent1_token_map sent_1_tag_strs (ents sent1) ;;
  sent_2_tag_strs <~ assign_ents sent2_token_map sent_2_tag_strs (ents sent2) ;;
  sent_1_tags <~ mapM (list_index NER_TAGS) sent_1_tag_strs ;;
  sent_2_tags <~ mapM (list_index NER_TAGS) sent_2_tag_strs ;;
  let spacy_ner_tags := sent_1_tags ++ sent_2_tags in
  let spacy_ner_tags :=
    pad_zeros (length bert_tokens_orig) spacy_ner_tags (length bert_tokens_orig) in
  let spacy_ner_tags :=
    if length bert_tokens_orig <? length spacy_ner_tags
    then firstn (length bert_tokens_orig) spacy_ner_tags
    else spacy_ner_tags in
  if length spacy_ner_tags =? length bert_tokens_orig then inr spacy_ner_tags
  else inl AssertionError.

(** [add_spacy_ner_labels] *)
Definition add_spacy_ner_labels (payload : Payload) : Payload * res unit :=
  add_labels_to_payload payload "SPACY_NER"
    (LabelFn (fun it => tags <~ get_spacy_ner_tags payload it ;; inr (NerTags tags))).

End Payloads.

(** *** utils/dataloaders.py, continued *)

Section Dataloaders.

(** The GLUE dataset class, its loaders and the keyword arguments handed
    on to them. *)
Variables GlueDataset Loader Kwargs : Type.

(** [metal.mmtl.dataset.get_glue_dataset(dataset_name, split=, bert_vocab=,
    max_len=, max_datapoints=, generate_uids=, run_spacy=)] *)
Variable get_glue_dataset :
  string -> string -> string -> nat -> Z -> bool -> bool -> GlueDataset.

(** [dataset.get_dataloader] called with the keyword arguments [dl_kwargs]. *)
Variable get_dataloader : GlueDataset -> Kwargs -> Loader.

(** [dataset.get_dataloader] called with [split_prop], [split_seed] and the
    keyword arguments [dl_kwargs]: two loaders. *)
Variable get_dataloader_split :
  GlueDataset -> QArith_base.Q -> Z -> Kwargs -> Loader * Loader.

(** Truth value of [split_prop]: [None] and 0 are false. *)
Definition truthy (split_prop : option QArith_base.Q) : bool :=
  match split_prop with
  | None => false
  | Some p => negb (QArith_base.Qeq_bool p (QArith_base.Qmake 0 1))
  end.

(** The name of the file of a split: the code base says valid, the files
    are saved as dev. *)
Definition split_file (split_name : string) : string :=
  if String.eqb split_name "valid" then "dev"%string else split_name.

(** [get_all_dataloaders] *)
Definition get_all_dataloaders (dataset_name bert_vocab : string) (max_len : nat)
           (dl_kwargs : Kwargs) (split_prop : option QArith_base.Q)
           (max_datapoints : Z) (splits : list string)
           (generate_uids : bool) (seed : Z) (verbose run_spacy : bool)
  : res (dict Loader) :=
  let datasets :=
    fold_left
      (fun datasets split_name =>
         let split := split_file split_name in
         dict_set datasets split_name
                  (get_glue_dataset dataset_name split bert_vocab max_len
                                    max_datapoints generate_uids run_spacy))
      splits [] in
  let dataloaders := @nil (string * Loader) in
  if truthy split_prop && existsb (String.eqb "train") splits then
    match dict_get datasets "train", split_prop with
    | Some train, Some p =>
        let (dl_train, dl_valid) := get_dataloader_split train p seed dl_kwargs in
        let dataloaders := dict_set dataloaders "train" dl_train in
        let dataloaders := dict_set dataloaders "valid" dl_valid in
        match dict_get datasets "valid" with
        | Some valid =>
            inr (dict_set dataloaders "test" (get_dataloader valid dl_kwargs))
        | None => inr dataloaders
        end
    | _, _ => inl (KeyError "train")
    end
  else
    inr (fold_left
           (fun dataloaders item =>
              dict_set dataloaders (fst item) (get_dataloader (snd item) dl_kwargs))
           datasets dataloaders).

End Dataloaders.

End Mmtl.

(** A tokenizer that cuts a word into pieces of at most three characters and
    has the token of an id by a fixed vocabulary of two words. *)
Fixpoint three_char_pieces (fuel : nat) (w : string) : list string :=
  match fuel with
  | 0 => []
  | S fuel' =>
      if String.length w <=? 3 then [w]
      else String.substring 0 3 w
           :: three_char_pieces fuel' (String.substring 3 (String.length w - 3) w)
  end.

Definition example_tokenizer : Mmtl.Tokenizer :=
  Mmtl.mk_tokenizer
    (fun w => three_char_pieces (String.length w) w)
    (map (fun id => if id =? 0 then "[CLS]"%string
                    else if id =? 1 then "[SEP]"%string else "tok"%string)).

(** "Paris is lovely", with the entity Paris, and "So is Rome", with the
    entity Rome as its last token. *)
Definition doc_paris : Mmtl.Doc :=
  Mmtl.mk_doc ["Paris"; "is"; "lovely"]%string [Mmtl.mk_ent 0 1 "GPE"].

Definition doc_rome : Mmtl.Doc :=
  Mmtl.mk_doc ["So"; "is"; "Rome"]%string [Mmtl.mk_ent 2 3 "GPE"].

(** A dataset of one sentence pair, its twelve BERT ids, and its payload. *)
Definition example_dataset : Mmtl.Dataset nat :=
  Mmtl.mk_dataset 1
    [[0; 2; 2; 2; 2; 2; 1; 2; 2; 2; 2; 1]]
    [[0; 0; 0; 0; 0; 0; 0; 1; 1; 1; 1; 1]]
    [(doc_paris, doc_rome)]
    example_tokenizer
    [("MRPC"%string, [Mmtl.Given nat 1])].

Definition example_payload : Mmtl.Payload nat :=
  Mmtl.mk_payload "MRPC_train" (Mmtl.mk_data_loader example_dataset)
                  ["MRPC"%string] "train".

(** A dataset stood for by the name of its file, a loader by the name of
    what it serves. *)
Definition example_get_glue_dataset (dataset_name split bert_vocab : string)
           (max_len : nat) (max_datapoints : Z) (generate_uids run_spacy : bool)
  : string := split.

Definition example_get_dataloader (ds : string) (dl_kwargs : unit) : string := ds.

Definition example_get_dataloader_split (ds : string) (split_prop : QArith_base.Q)
           (split_seed : Z) (dl_kwargs : unit) : string * string :=
  ((ds ++ ".head")%string, (ds ++ ".tail")%string).

(** * Properties *)

(** ** Finite sums *)

Section Sums.

Lemma Zsum_ext (l : list nat) (f g : nat -> Z) :
  (forall i, In i l -> f i = g i) -> Zsum l f = Zsum l g.
Proof.
  induction l as [|x l IH]; simpl; intros H; [reflexivity|].
  rewrite (H x) by now left.
  rewrite IH; [reflexivity|]. intros i Hi. apply H. now right.
Qed.

Lemma Zsum_app (l1 l2 : list nat) (f : nat -> Z) :
  Zsum (l1 ++ l2) f = (Zsum l1 f + Zsum l2 f)%Z.
Proof. induction l1 as [|x l1 IH]; simpl; [reflexivity | rewrite IH; lia]. Qed.

Lemma Zsum_zero (l : list nat) : Zsum l (fun _ => 0%Z) = 0%Z.
Proof. induction l as [|x l IH]; simpl; [reflexivity | rewrite IH; reflexivity]. Qed.

Lemma Zsum_plus (l : list nat) (f g : nat -> Z) :
  Zsum l (fun i => (f i + g i)%Z) = (Zsum l f + Zsum l g)%Z.
Proof. induction l as [|x l IH]; simpl; [reflexivity | rewrite IH; lia]. Qed.

Lemma Zsum_mul_l (l : list nat) (c : Z) (f : nat -> Z) :
  Zsum l (fun i => (c * f i)%Z) = (c * Zsum l f)%Z.
Proof. induction l as [|x l IH]; simpl; [lia | rewrite IH; lia]. Qed.

Lemma Zsum_mul_r (l : list nat) (c : Z) (f : nat -> Z) :
  Zsum l (fun i => (f i * c)%Z) = (Zsum l f * c)%Z.
Proof. induction l as [|x l IH]; simpl; [lia | rewrite IH; lia]. Qed.

Lemma Zsum_swap (l1 l2 : list nat) (f : nat -> nat -> Z) :
  Zsum l1 (fun a => Zsum l2 (fun b => f a b)) =
  Zsum l2 (fun b => Zsum l1 (fun a => f a b)).
Proof.
  induction l1 as [|x l1 IH]; simpl.
  - now rewrite Zsum_zero.
  - rewrite IH, Zsum_plus. reflexivity.
Qed.

Lemma Zsum_bounds (l : list nat) (f : nat -> Z) :
  (forall i, In i l -> 0 <= f i <= 1)%Z ->
  (0 <= Zsum l f <= Z.of_nat (length l))%Z.
Proof.
  induction l as [|x l IH]; intros H.
  - simpl. lia.
  - cbn [Zsum fold_right length].
    assert (Hx := H x (or_introl eq_refl)).
    assert (Hl : (0 <= Zsum l f <= Z.of_nat (length l))%Z).
    { apply IH. intros i Hi. apply H. now right. }
    unfold Zsum in Hl. lia.
Qed.

Lemma Zsum_ones (l : list nat) : Zsum l (fun _ => 1%Z) = Z.of_nat (length l).
Proof.
  induction l as [|x l IH]; [reflexivity|].
  cbn [Zsum fold_right length]. unfold Zsum in IH. rewrite IH. lia.
Qed.

(** Three nested sums of a product of three factors, each depending on one
    of the outer indices and on the contracted one. *)
Lemma Zsum_prod3 (la ld lf lb : list nat) (x y w : nat -> nat -> Z) :
  Zsum la (fun a => Zsum ld (fun d => Zsum lf (fun f =>
    Zsum lb (fun b => (x a b * y d b * w f b)%Z)))) =
  Zsum lb (fun b =>
    (Zsum la (fun a => x a b) * Zsum ld (fun d => y d b) * Zsum lf (fun f => w f b))%Z).
Proof.
  transitivity (Zsum la (fun a => Zsum ld (fun d => Zsum lb (fun b =>
                  (x a b * y d b * Zsum lf (fun f => w f b))%Z)))).
  { apply Zsum_ext; intros a _. apply Zsum_ext; intros d _.
    rewrite Zsum_swap. apply Zsum_ext; intros b _. apply Zsum_mul_l. }
  transitivity (Zsum la (fun a => Zsum lb (fun b =>
                  (x a b * Zsum ld (fun d => y d b) * Zsum lf (fun f => w f b))%Z))).
  { apply Zsum_ext; intros a _. rewrite Zsum_swap. apply Zsum_ext; intros b _.
    rewrite (Zsum_mul_r ld (Zsum lf (fun f => w f b)) (fun d => (x a b * y d b)%Z)).
    rewrite (Zsum_mul_l ld (x a b) (fun d => y d b)). reflexivity. }
  rewrite Zsum_swap. apply Zsum_ext; intros b _.
  rewrite (Zsum_mul_r la (Zsum lf (fun f => w f b))
                      (fun a => (x a b * Zsum ld (fun d => y d b))%Z)).
  rewrite (Zsum_mul_r la (Zsum ld (fun d => y d b)) (fun a => x a b)).
  reflexivity.
Qed.

Lemma Rsum_ext (l : list nat) (f g : nat -> R) :
  (forall i, In i l -> f i = g i) -> Rsum l f = Rsum l g.
Proof.
  induction l as [|x l IH]; simpl; intros H; [reflexivity|].
  rewrite (H x) by now left.
  rewrite IH; [reflexivity|]. intros i Hi. apply H. now right.
Qed.

Lemma Rsum_IZR_div (l : list nat) (f : nat -> Z) (c : R) :
  Rsum l (fun i => (IZR (f i) / c)%R) = (IZR (Zsum l f) / c)%R.
Proof.
  induction l as [|x l IH]; simpl.
  - unfold Rdiv. now rewrite Rmult_0_l.
  - rewrite IH, plus_IZR. unfold Rdiv. ring.
Qed.

Lemma Rsum_app (l1 l2 : list nat) (f : nat -> R) :
  Rsum (l1 ++ l2) f = (Rsum l1 f + Rsum l2 f)%R.
Proof. induction l1 as [|x l1 IH]; simpl; [ring | rewrite IH; ring]. Qed.

Lemma Rsum_zero (l : list nat) (f : nat -> R) :
  (forall i, In i l -> f i = 0%R) -> Rsum l f = 0%R.
Proof.
  induction l as [|x l IH]; simpl; intros H; [reflexivity|].
  rewrite (H x) by now left. rewrite IH; [ring|].
  intros i Hi. apply H. now right.
Qed.

Lemma Rsum_scal_r (l : list nat) (f : nat -> R) (c : R) :
  Rsum l (fun i => (f i * c)%R) = (Rsum l f * c)%R.
Proof. induction l as [|x l IH]; simpl; [ring | rewrite IH; ring]. Qed.

(** A sum whose terms vanish off one index. *)
Lemma Rsum_delta (n y : nat) (f g : nat -> R) :
  y < n ->
  Rsum (seq 0 n) (fun z => (f z * (if z =? y then g z else 0))%R) = (f y * g y)%R.
Proof.
  intros Hy.
  replace n with (y + (1 + (n - y - 1))) by lia.
  rewrite !seq_app, !Rsum_app. simpl seq.
  rewrite (Rsum_zero (seq 0 y)).
  2:{ intros i Hi. apply in_seq in Hi.
      destruct (Nat.eqb_spec i y); [lia | ring]. }
  rewrite (Rsum_zero (seq _ (n - y - 1))).
  2:{ intros i Hi. apply in_seq in Hi.
      destruct (Nat.eqb_spec i y); [lia | ring]. }
  simpl. rewrite Nat.eqb_refl. ring.
Qed.

End Sums.

(** ** The overlaps tensor *)

Section Overlaps.

Variable self : ClassBalanceModel.
Variable L : ndarray Z.

Local Abbreviation LY := (indicator_tensor self L).
Local Abbreviation K := (k self + 1 - k_0 self).

Lemma label_range_length : length (label_range self) = K.
Proof. unfold label_range. now rewrite length_map, length_seq. Qed.

Lemma indicator_item (a b c : nat) :
  item LY [a; b; c] =
  if a <? K then
    (if Z.eqb (item L [b; c]) (Z.of_nat (k_0 self + a)) then 1%Z else 0%Z)
  else 0%Z.
Proof.
  unfold indicator_tensor, stack. cbn [item].
  destruct (Nat.ltb_spec a K) as [Ha|Ha].
  - rewrite (nth_indep _ (zeros_Z []) (where_eq L 0%Z))
      by (rewrite length_map, label_range_length; exact Ha).
    rewrite (map_nth (fun y => where_eq L y)).
    unfold label_range.
    rewrite (nth_indep _ 0%Z (Z.of_nat 0)) by (rewrite length_map, length_seq; exact Ha).
    rewrite (map_nth Z.of_nat), seq_nth by exact Ha.
    reflexivity.
  - rewrite nth_overflow by (rewrite length_map, label_range_length; exact Ha).
    reflexivity.
Qed.

Lemma indicator_01 (a b c : nat) : (0 <= item LY [a; b; c] <= 1)%Z.
Proof.
  rewrite indicator_item.
  destruct (a <? K); [destruct (Z.eqb _ _)|]; lia.
Qed.

Lemma indicator_dim1 (n m : nat) :
  shape L = [n; m] -> dim LY 1 <= n /\ (1 <= K -> dim LY 1 = n).
Proof.
  intros HL. unfold indicator_tensor, stack, dim. cbn [shape nth].
  pose proof label_range_length as Hlen.
  destruct (label_range self) as [|y ys]; cbn [map hd where_eq shape].
  - simpl in Hlen. split; [simpl; lia | intros HK; lia].
  - rewrite HL. simpl. split; [lia | reflexivity].
Qed.

(** Exactly one of the k_lf indicators fires on a label of the range. *)
Lemma indicator_sum_range (x : Z) (k0 n : nat) :
  Zsum (seq 0 n) (fun a => if Z.eqb x (Z.of_nat (k0 + a)) then 1%Z else 0%Z) =
  if (Z.of_nat k0 <=? x)%Z && (x <? Z.of_nat (k0 + n))%Z then 1%Z else 0%Z.
Proof.
  induction n as [|n IH].
  - simpl.
    destruct (Z.leb_spec (Z.of_nat k0) x), (Z.ltb_spec x (Z.of_nat (k0 + 0)));
      simpl; try reflexivity; lia.
  - rewrite seq_S, Zsum_app, IH. simpl.
    destruct (Z.eqb_spec x (Z.of_nat (k0 + n)));
      destruct (Z.leb_spec (Z.of_nat k0) x);
      destruct (Z.ltb_spec x (Z.of_nat (k0 + n)));
      destruct (Z.ltb_spec x (Z.of_nat (k0 + S n))); simpl; lia.
Qed.

Lemma indicator_sum (n m b c : nat) :
  valid_labels self L n m -> b < n -> c < m ->
  Zsum (seq 0 K) (fun a => item LY [a; b; c]) = 1%Z.
Proof.
  intros [_ Hv] Hb Hc. specialize (Hv b c Hb Hc).
  rewrite (Zsum_ext _ _
             (fun a => if Z.eqb (item L [b; c]) (Z.of_nat (k_0 self + a))
                       then 1%Z else 0%Z)).
  2:{ intros a Ha. apply in_seq in Ha. rewrite indicator_item.
      destruct (Nat.ltb_spec a K); [reflexivity | lia]. }
  rewrite indicator_sum_range.
  destruct (Z.leb_spec (Z.of_nat (k_0 self)) (item L [b; c]));
    destruct (Z.ltb_spec (item L [b; c])
                         (Z.of_nat (k_0 self + (k self + 1 - k_0 self))));
    cbn [andb]; lia.
Qed.

Lemma overlap_count_bounds (n m : nat) (idx : list nat) :
  shape L = [n; m] -> (0 <= overlap_count self L idx <= Z.of_nat n)%Z.
Proof.
  intros HL. unfold overlap_count, einsum_abc_dbe_fbg_cegadf. cbn [item].
  destruct idx as [|c [|e [|g [|a [|d [|f [|? ?]]]]]]]; try lia.
  destruct (indicator_dim1 HL) as [Hle _].
  pose proof (Zsum_bounds (seq 0 (dim LY 1))
                (fun b => (item LY [a; b; c] * item LY [d; b; e] * item LY [f; b; g])%Z))
    as Hb.
  rewrite length_seq in Hb.
  assert (Hall : forall i, In i (seq 0 (dim LY 1)) ->
            (0 <= item LY [a; i; c] * item LY [d; i; e] * item LY [f; i; g] <= 1)%Z).
  { intros i _.
    assert (H1 : item LY [a; i; c] = 0%Z \/ item LY [a; i; c] = 1%Z)
      by (pose proof (indicator_01 a i c); lia).
    assert (H2 : item LY [d; i; e] = 0%Z \/ item LY [d; i; e] = 1%Z)
      by (pose proof (indicator_01 d i e); lia).
    assert (H3 : item LY [f; i; g] = 0%Z \/ item LY [f; i; g] = 1%Z)
      by (pose proof (indicator_01 f i g); lia).
    destruct H1 as [-> | ->], H2 as [-> | ->], H3 as [-> | ->]; lia. }
  specialize (Hb Hall). lia.
Qed.

Lemma overlap_count_total (n m i j l : nat) :
  valid_labels self L n m -> 1 <= n -> i < m -> j < m -> l < m ->
  Zsum (seq 0 K) (fun a => Zsum (seq 0 K) (fun b => Zsum (seq 0 K) (fun c =>
    overlap_count self L [i; j; l; a; b; c]))) = Z.of_nat n.
Proof.
  intros Hv Hn Hi Hj Hl.
  assert (HK : 1 <= K).
  { destruct Hv as [_ Hv]. specialize (Hv 0 i Hn Hi). lia. }
  destruct (indicator_dim1 (proj1 Hv)) as [_ Hdim]. specialize (Hdim HK).
  unfold overlap_count, einsum_abc_dbe_fbg_cegadf. cbn [item].
  rewrite Hdim.
  rewrite (Zsum_prod3 (seq 0 K) (seq 0 K) (seq 0 K) (seq 0 n)
             (fun a b => item LY [a; b; i]) (fun d b => item LY [d; b; j])
             (fun f b => item LY [f; b; l])).
  rewrite (Zsum_ext _ _ (fun _ => 1%Z)).
  - now rewrite Zsum_ones, length_seq.
  - intros b Hb. apply in_seq in Hb.
    rewrite !(@indicator_sum n m) by (assumption || lia). reflexivity.
Qed.

End Overlaps.

Lemma wf_init (k : nat) (abstains : bool) (config : option string) :
  wf (__init__ k abstains config).
Proof. split; reflexivity. Qed.

Lemma wf_value_count (self : ClassBalanceModel) :
  wf self -> k self + 1 - k_0 self = k_lf self.
Proof. intros [H0 Hlf]. rewrite H0, Hlf. destruct (abstains self); lia. Qed.

Lemma valid_labels_two_rows : valid_labels (__init__ 2 true None) L_two_rows 2 3.
Proof.
  split; [reflexivity|].
  intros b c Hb Hc.
  destruct b as [|[|b]]; [| |lia];
    (destruct c as [|[|[|c]]]; [| | |lia]); simpl; lia.
Qed.

Lemma overlaps_tensor_shape (self : ClassBalanceModel) (L : ndarray Z) (n m : nat) :
  wf self -> 1 <= k_lf self -> shape L = [n; m] ->
  exists O_,
    _get_overlaps_tensor self L = inr O_ /\
    shape O_ = [m; m; m; k_lf self; k_lf self; k_lf self].
Proof.
  intros Hwf Hlf HL. unfold _get_overlaps_tensor. rewrite HL.
  eexists; split; [reflexivity|].
  unfold true_divide, einsum_abc_dbe_fbg_cegadf, indicator_tensor, stack.
  cbn [shape]. rewrite length_map, label_range_length, (wf_value_count Hwf).
  pose proof (label_range_length self) as Hlen.
  rewrite (wf_value_count Hwf) in Hlen.
  destruct (label_range self) as [|y ys]; [simpl in Hlen; lia|].
  cbn [map hd where_eq shape]. rewrite HL. reflexivity.
Qed.

(** C2, as amended: for a label matrix with at least one example and every
    entry in {k_0, ..., k}, every entry of [_get_overlaps_tensor(L)] lies in
    [0, 1] and, for each fixed source triple (i, j, l), the entries sum to 1
    over all value triples. *)
Theorem overlaps_tensor_distribution
        (self : ClassBalanceModel) (L : ndarray Z) (n m : nat) :
  wf self -> valid_labels self L n m -> 1 <= n ->
  exists O_,
    _get_overlaps_tensor self L = inr O_ /\
    (forall idx, (0 <= item O_ idx <= 1)%R) /\
    overlaps_distribution O_ m (k_lf self).
Proof.
  intros Hwf Hv Hn.
  pose proof (wf_value_count Hwf) as HK.
  destruct Hv as [HL Hv]. unfold _get_overlaps_tensor. rewrite HL.
  eexists; split; [reflexivity|].
  assert (Hn0 : (0 < INR n)%R) by (apply lt_0_INR; lia).
  assert (Hentry : forall idx,
            (0 <= item (true_divide
                          (einsum_abc_dbe_fbg_cegadf (indicator_tensor self L)
                             (indicator_tensor self L) (indicator_tensor self L)) n)
                       idx <= 1)%R).
  { intros idx. unfold true_divide. cbn [item].
    pose proof (overlap_count_bounds self L idx HL) as Hb.
    unfold overlap_count in Hb. cbv zeta in Hb.
    destruct Hb as [Hlo Hhi]. apply IZR_le in Hlo, Hhi.
    rewrite <- INR_IZR_INZ in Hhi. split.
    - apply Rmult_le_pos; [exact Hlo | left; now apply Rinv_0_lt_compat].
    - apply Rmult_le_reg_r with (INR n); [exact Hn0|].
      unfold Rdiv. rewrite Rmult_assoc, Rinv_l by lra. lra. }
  split; [exact Hentry|split].
  - intros i j l a b c _ _ _ _ _ _. apply Hentry.
  - intros i j l Hi Hj Hl. unfold value_mass, true_divide. cbn [item].
    rewrite (Rsum_ext _ _ (fun a => (IZR (Zsum (seq 0 (k_lf self)) (fun b =>
               Zsum (seq 0 (k_lf self)) (fun c =>
                 overlap_count self L [i; j; l; a; b; c]))) / INR n)%R)).
    2:{ intros a _. rewrite <- Rsum_IZR_div. apply Rsum_ext; intros b _.
        rewrite <- Rsum_IZR_div. reflexivity. }
    rewrite Rsum_IZR_div, <- HK.
    rewrite (@overlap_count_total self L n m) by (try split; assumption).
    rewrite <- INR_IZR_INZ. unfold Rdiv. apply Rinv_r. lra.
Qed.

Lemma overlaps_tensor_distribution_witness :
  exists O_,
    _get_overlaps_tensor (__init__ 2 true None) L_two_rows = inr O_ /\
    overlaps_distribution O_ 3 3.
Proof.
  destruct (@overlaps_tensor_distribution (__init__ 2 true None) L_two_rows 2 3
              (wf_init 2 true None) valid_labels_two_rows (le_n_S 0 1 (le_0_n 1)))
    as [O_ [Hret [_ Hdist]]].
  exists O_. split; [exact Hret | exact Hdist].
Defined.

(** C2 as stated fails on a label matrix with no examples: every entry of a
    0 x 3 integer matrix is (vacuously) in range, and the division by n = 0
    leaves no distribution (NumPy yields NaN for 0/0, real arithmetic 0: in
    neither reading do the entries of a source triple sum to 1). *)
Lemma overlaps_tensor_no_rows_counterexample :
  valid_labels (__init__ 2 true None) L_no_rows 0 3 /\
  exists O_,
    _get_overlaps_tensor (__init__ 2 true None) L_no_rows = inr O_ /\
    ~ overlaps_distribution O_ 3 3.
Proof.
  split.
  - split; [reflexivity | intros b c Hb; lia].
  - eexists; split; [reflexivity|].
    intros [_ Hsum]. specialize (Hsum 0 1 2 ltac:(lia) ltac:(lia) ltac:(lia)).
    unfold value_mass in Hsum. cbn in Hsum.
    unfold Rdiv in Hsum. rewrite !Rmult_0_l in Hsum. lra.
Qed.

(** ** Symmetry of the overlaps tensor *)

Lemma joint_indicator_perm (f : nat * nat -> Z) (ps ps' : list (nat * nat)) :
  Permutation ps ps' ->
  fold_right (fun p acc => (f p * acc)%Z) 1%Z ps =
  fold_right (fun p acc => (f p * acc)%Z) 1%Z ps'.
Proof.
  induction 1 as [|p ps ps' _ IH|p p' ps|ps ps' ps'' _ IH1 _ IH2]; simpl.
  - reflexivity.
  - now rewrite IH.
  - ring.
  - now rewrite IH1.
Qed.

(** C6: the overlaps tensor is invariant under any joint permutation of its
    three (source, value) axis pairs: whenever ((i',a'), (j',b'), (l',c')) is
    a rearrangement of ((i,a), (j,b), (l,c)), the entries
    O[i,j,l,a,b,c] and O[i',j',l',a',b',c'] are equal. *)
Theorem overlaps_tensor_symmetric
        (self : ClassBalanceModel) (L : ndarray Z) (O_ : ndarray R)
        (i j l a b c i' j' l' a' b' c' : nat) :
  _get_overlaps_tensor self L = inr O_ ->
  Permutation [(i, a); (j, b); (l, c)] [(i', a'); (j', b'); (l', c')] ->
  item O_ [i; j; l; a; b; c] = item O_ [i'; j'; l'; a'; b'; c'].
Proof.
  intros Hret Hperm. unfold _get_overlaps_tensor in Hret.
  destruct (shape L) as [|n [|m [|? ?]]]; try discriminate.
  injection Hret as <-.
  unfold true_divide, einsum_abc_dbe_fbg_cegadf. cbn [item].
  f_equal. f_equal. apply Zsum_ext. intros e _.
  set (f := fun p : nat * nat => item (indicator_tensor self L) [snd p; e; fst p]).
  pose proof (joint_indicator_perm f Hperm) as H.
  unfold f in H. cbn [fold_right fst snd] in H.
  rewrite !Z.mul_1_r, !Z.mul_assoc in H. exact H.
Qed.

Lemma overlaps_tensor_symmetric_witness :
  exists O_,
    _get_overlaps_tensor (__init__ 2 true None) L_two_rows = inr O_ /\
    item O_ [0; 1; 2; 1; 0; 2] = item O_ [2; 0; 1; 2; 1; 0].
Proof.
  eexists; split; [reflexivity|].
  apply (@overlaps_tensor_symmetric (__init__ 2 true None) L_two_rows _
           0 1 2 1 0 2 2 0 1 2 1 0 eq_refl).
  apply (perm_trans (perm_skip (0, 1) (perm_swap (2, 2) (1, 0) []))).
  apply perm_swap.
Defined.

(** ** The validity mask *)

Section Mask.

Lemma len_set3_distinct (i j k : nat) :
  (len_set3 i j k <? 3) = negb (negb (i =? j) && negb (i =? k) && negb (j =? k)).
Proof.
  unfold len_set3. cbn [nodup in_dec list_rec list_rect].
  destruct (Nat.eqb_spec i j), (Nat.eqb_spec i k), (Nat.eqb_spec j k);
    repeat (destruct (Nat.eq_dec _ _); try lia); reflexivity.
Qed.

Lemma mask_loop_shape (ts : list (nat * nat * nat)) (mask : ndarray Z) :
  shape (fold_left mask_step ts mask) = shape mask.
Proof.
  revert mask. induction ts as [|[[i j] k] ts IH]; intros mask; [reflexivity|].
  cbn [fold_left]. rewrite IH. unfold mask_step.
  destruct (len_set3 i j k <? 3); reflexivity.
Qed.

Lemma mask_loop_item (ts : list (nat * nat * nat)) (mask : ndarray Z)
      (i j l a b c : nat) :
  item (fold_left mask_step ts mask) [i; j; l; a; b; c] =
  if existsb (fun t => match t with
                       | (i', j', k') =>
                           (i =? i') && (j =? j') && (l =? k') && (len_set3 i' j' k' <? 3)
                       end) ts
  then 0%Z else item mask [i; j; l; a; b; c].
Proof.
  revert mask. induction ts as [|[[i' j'] k'] ts IH]; intros mask; [reflexivity|].
  cbn [fold_left existsb]. rewrite IH.
  destruct (existsb _ ts); [now rewrite orb_true_r|].
  rewrite orb_false_r. unfold mask_step.
  destruct (len_set3 i' j' k' <? 3).
  - rewrite andb_true_r. reflexivity.
  - rewrite andb_false_r. reflexivity.
Qed.

Lemma in_product3 (l : list nat) (i j k : nat) :
  In (i, j, k) (product3 l) <-> In i l /\ In j l /\ In k l.
Proof.
  unfold product3. rewrite in_flat_map. split.
  - intros [i' [Hi H]]. apply in_flat_map in H. destruct H as [j' [Hj H]].
    apply in_map_iff in H. destruct H as [k' [E Hk]].
    injection E as -> -> ->. auto.
  - intros [Hi [Hj Hk]]. exists i. split; [exact Hi|].
    apply in_flat_map. exists j. split; [exact Hj|].
    apply in_map_iff. exists k. auto.
Qed.

Lemma get_mask_item (self : ClassBalanceModel) (m i j l a b c : nat) :
  i < m -> j < m -> l < m ->
  item (get_mask self m) [i; j; l; a; b; c] =
  if negb (i =? j) && negb (i =? l) && negb (j =? l) then 1%Z else 0%Z.
Proof.
  intros Hi Hj Hl. unfold get_mask.
  rewrite mask_loop_item. cbn [ones_byte item].
  destruct (negb (i =? j) && negb (i =? l) && negb (j =? l)) eqn:Hd.
  - replace (existsb _ _) with false; [reflexivity|].
    symmetry. apply not_true_is_false. intros Hex.
    apply existsb_exists in Hex. destruct Hex as [[[i' j'] k'] [_ Ht]].
    rewrite !andb_true_iff in Ht. destruct Ht as [[[E1 E2] E3] Hlen].
    apply Nat.eqb_eq in E1, E2, E3. subst i' j' k'.
    rewrite len_set3_distinct, Hd in Hlen. discriminate.
  - replace (existsb _ _) with true; [reflexivity|].
    symmetry. apply existsb_exists. exists (i, j, l). split.
    + apply in_product3. rewrite !in_seq. lia.
    + rewrite !Nat.eqb_refl, len_set3_distinct, Hd. reflexivity.
Qed.

Lemma get_mask_shape (self : ClassBalanceModel) (m : nat) :
  shape (get_mask self m) = [m; m; m; k_lf self; k_lf self; k_lf self].
Proof.
  unfold get_mask.
  rewrite mask_loop_shape. reflexivity.
Qed.

End Mask.

(** C7: [get_mask(m)] has shape (m, m, m, k_lf, k_lf, k_lf); at source
    indices i, j, l below m its entry is 1 exactly when i, j, l are pairwise
    distinct and 0 exactly when two of them coincide, whatever the three
    value indices are. *)
Theorem get_mask_spec (self : ClassBalanceModel) (m : nat) :
  shape (get_mask self m) = [m; m; m; k_lf self; k_lf self; k_lf self] /\
  forall i j l a b c, i < m -> j < m -> l < m ->
    (item (get_mask self m) [i; j; l; a; b; c] = 1%Z <->
     (i <> j /\ i <> l /\ j <> l)) /\
    (item (get_mask self m) [i; j; l; a; b; c] = 0%Z <->
     (i = j \/ i = l \/ j = l)) /\
    item (get_mask self m) [i; j; l; a; b; c] =
    item (get_mask self m) [i; j; l; 0; 0; 0].
Proof.
  split.
  - apply get_mask_shape.
  - intros i j l a b c Hi Hj Hl.
    rewrite !(@get_mask_item self m i j l) by assumption.
    destruct (Nat.eqb_spec i j), (Nat.eqb_spec i l), (Nat.eqb_spec j l);
      cbn [negb andb]; repeat split; intros; try lia; try discriminate;
      try reflexivity.
Qed.

Lemma get_mask_spec_witness :
  item (get_mask (__init__ 2 true None) 3) [0; 1; 2; 2; 0; 1] = 1%Z /\
  item (get_mask (__init__ 2 true None) 3) [0; 2; 0; 2; 0; 1] = 0%Z.
Proof.
  pose proof (proj2 (get_mask_spec (__init__ 2 true None) 3)) as H.
  split.
  - apply (proj1 (H 0 1 2 2 0 1 ltac:(lia) ltac:(lia) ltac:(lia))). lia.
  - apply (proj1 (proj2 (H 0 2 0 2 0 1 ltac:(lia) ltac:(lia) ltac:(lia)))). lia.
Defined.

(** ** The loss *)

Section Loss.

Lemma Rsum_list_app (l1 l2 : list R) :
  Rsum_list (l1 ++ l2) = (Rsum_list l1 + Rsum_list l2)%R.
Proof. induction l1 as [|x l1 IH]; simpl; [ring | rewrite IH; ring]. Qed.

Lemma Rsum_list_filter {A : Type} (p : A -> bool) (g : A -> R) (l : list A) :
  Rsum_list (map g (filter p l)) =
  Rsum_list (map (fun x => if p x then g x else 0%R) l).
Proof.
  induction l as [|x l IH]; simpl; [reflexivity|].
  destruct (p x); simpl; rewrite IH; ring.
Qed.

Lemma Rsum_list_squares_nonneg (l : list R) :
  (0 <= Rsum_list (map (fun x => x * x) l))%R.
Proof.
  induction l as [|x l IH]; simpl; [lra|].
  pose proof (Rle_0_sqr x) as Hx. unfold Rsqr in Hx. lra.
Qed.

Lemma Rsum_list_indices_cons (f : list nat -> R) (n : nat) (s : list nat) :
  Rsum_list (map f (indices (n :: s))) =
  Rsum (seq 0 n) (fun i => Rsum_list (map (fun idx => f (i :: idx)) (indices s))).
Proof.
  cbn [indices]. generalize (seq 0 n) as l.
  induction l as [|i l IH]; simpl; [reflexivity|].
  rewrite map_app, Rsum_list_app, map_map, IH. reflexivity.
Qed.

Lemma Rsum_list_indices6 (f : list nat -> R) (n1 n2 n3 n4 n5 n6 : nat) :
  Rsum_list (map f (indices [n1; n2; n3; n4; n5; n6])) =
  Rsum (seq 0 n1) (fun i1 => Rsum (seq 0 n2) (fun i2 => Rsum (seq 0 n3) (fun i3 =>
  Rsum (seq 0 n4) (fun i4 => Rsum (seq 0 n5) (fun i5 => Rsum (seq 0 n6) (fun i6 =>
    f [i1; i2; i3; i4; i5; i6])))))).
Proof.
  rewrite Rsum_list_indices_cons. apply Rsum_ext; intros i1 _.
  rewrite Rsum_list_indices_cons. apply Rsum_ext; intros i2 _.
  rewrite Rsum_list_indices_cons. apply Rsum_ext; intros i3 _.
  rewrite Rsum_list_indices_cons. apply Rsum_ext; intros i4 _.
  rewrite Rsum_list_indices_cons. apply Rsum_ext; intros i5 _.
  rewrite Rsum_list_indices_cons. apply Rsum_ext; intros i6 _.
  simpl. ring.
Qed.

End Loss.

(** C3: for a mask of shape (m, m, m, k_lf, k_lf, k_lf) and a factor [Q]
    with k latent columns, [get_loss(O, Q, mask)] is the sum, over exactly
    the entries where the mask is true, of the squared residual
    (O[i,j,l,a,b,c] - sum_y Q[i,a,y] Q[j,b,y] Q[l,c,y])^2. *)
Theorem get_loss_spec (O_ Q : ndarray R) (mask : ndarray Z) (m kl kk : nat) :
  shape mask = [m; m; m; kl; kl; kl] ->
  shape Q = [m; kl; kk] ->
  get_loss O_ Q mask = masked_squared_residuals O_ Q mask m kl kk.
Proof.
  intros Hmask HQ. unfold get_loss, norm.
  rewrite pow2_sqrt by apply Rsum_list_squares_nonneg.
  unfold masked_select. rewrite map_map, Rsum_list_filter, Hmask.
  rewrite Rsum_list_indices6. unfold masked_squared_residuals.
  repeat (apply Rsum_ext; intros ? _).
  destruct (negb _); [|reflexivity].
  unfold sub, einsum_aby_cdy_efy_acebdf, reconstructed, dim. cbn [item].
  rewrite HQ. cbn [nth]. ring.
Qed.

Lemma get_loss_spec_witness :
  get_loss O_zeros Q_skewed (get_mask (__init__ 2 true None) 3) =
  masked_squared_residuals O_zeros Q_skewed (get_mask (__init__ 2 true None) 3) 3 3 2.
Proof.
  apply get_loss_spec.
  - apply (get_mask_shape (__init__ 2 true None) 3).
  - reflexivity.
Defined.

(** ** Decoding the fitted factor *)

Section Decode.

Variable q : ndarray R.
Variables m kl kk : nat.
Hypothesis Hq : shape q = [m; kl; kk].

Lemma p_y_shape : shape (p_y_of q) = [kk].
Proof.
  unfold p_y_of, mean_axis0, pow_int, sum_axis1. cbn [shape].
  rewrite Hq. reflexivity.
Qed.

Lemma p_y_item (y : nat) :
  item (p_y_of q) [y] =
  (Rsum (seq 0 m) (fun i => column_mass q kl i y ^ 3) / INR m)%R.
Proof.
  unfold p_y_of, mean_axis0, pow_int, sum_axis1, dim. cbn [shape item].
  rewrite Hq. reflexivity.
Qed.

Lemma cps_shape : shape (cps_of q) = [m; kl; kk].
Proof.
  unfold cps_of, matmul, diag, rdiv, pow_float, dim. cbn [shape].
  rewrite Hq, p_y_shape. reflexivity.
Qed.

Lemma cps_item (i v y : nat) :
  y < kk ->
  item (cps_of q) [i; v; y] =
  (item q [i; v; y] / Rpower (item (p_y_of q) [y]) (1 / 3))%R.
Proof.
  intros Hy. unfold cps_of, matmul, diag, rdiv, pow_float, dim. cbn [shape item].
  rewrite Hq. cbn [nth].
  rewrite (Rsum_delta (fun z => item q [i; v; z])
             (fun z => (1 / Rpower (item (p_y_of q) [z]) (1 / 3))%R) Hy).
  unfold Rdiv. ring.
Qed.

End Decode.

(** The cube root that the decoding divides by, for a positive number. *)
Lemma Rpower_third_cube (p : R) :
  (0 < p)%R -> (0 < Rpower p (1 / 3))%R /\ (Rpower p (1 / 3) ^ 3 = p)%R.
Proof.
  intros Hp.
  assert (Hc : (0 < Rpower p (1 / 3))%R) by (unfold Rpower; apply exp_pos).
  split; [exact Hc|].
  rewrite <- (Rpower_pow 3 _ Hc), Rpower_mult.
  replace (1 / 3 * INR 3)%R with 1%R by (simpl; field).
  now apply Rpower_1.
Qed.

(** C4: in the decoding step, for a fitted [Q] of shape (m, k_lf, k),
    [p_y[y]] is the mean over the sources i of (sum_v Q[i,v,y])^3 and,
    where [p_y[y]] is positive, [cps[i,v,y]] is Q[i,v,y] / p_y[y]^(1/3),
    the divisor being the positive cube root of [p_y[y]], for every source
    i, emitted value v and latent column y. *)
Theorem decode_p_y_cps (q : ndarray R) (m kl kk i v y : nat) :
  shape q = [m; kl; kk] -> i < m -> v < kl -> y < kk ->
  item (p_y_of q) [y] =
    (Rsum (seq 0 m) (fun i' => Rsum (seq 0 kl) (fun v' => item q [i'; v'; y]) ^ 3)
     / INR m)%R /\
  ((0 < item (p_y_of q) [y])%R ->
   let c := Rpower (item (p_y_of q) [y]) (1 / 3) in
   (0 < c)%R /\ (c ^ 3 = item (p_y_of q) [y])%R /\
   item (cps_of q) [i; v; y] = (item q [i; v; y] / c)%R).
Proof.
  intros Hq Hi Hv Hy. split.
  - apply (@p_y_item q m kl kk Hq).
  - intros Hp. cbv zeta. destruct (Rpower_third_cube Hp) as [Hc Hcube].
    split; [exact Hc|]. split; [exact Hcube|].
    apply (@cps_item q m kl kk Hq i v y Hy).
Qed.

Lemma decode_p_y_cps_witness :
  item (p_y_of Q_skewed) [1] =
    (Rsum (seq 0 3) (fun i' => Rsum (seq 0 3) (fun v' => item Q_skewed [i'; v'; 1%nat]) ^ 3)
     / INR 3)%R /\
  let c := Rpower (item (p_y_of Q_skewed) [1%nat]) (1 / 3) in
  (0 < c)%R /\ (c ^ 3 = item (p_y_of Q_skewed) [1%nat])%R /\
  item (cps_of Q_skewed) [2; 1; 1] = (item Q_skewed [2; 1; 1]%nat / c)%R.
Proof.
  destruct (@decode_p_y_cps Q_skewed 3 3 2 2 1 1 eq_refl) as [Hp Hc]; try lia.
  split; [exact Hp|]. apply Hc.
  unfold p_y_of, mean_axis0, pow_int, sum_axis1, dim, Q_skewed.
  cbn. lra.
Defined.

(** ** The lexicographic order on rows *)

Section Lex.

Lemma row_eqb_spec (r s : list nat) : reflect (r = s) (row_eqb r s).
Proof. unfold row_eqb. destruct (list_eq_dec Nat.eq_dec r s); now constructor. Qed.

Lemma lex_ltb_irrefl (r : list nat) : lex_ltb r r = false.
Proof.
  induction r as [|x r IH]; [reflexivity|].
  cbn [lex_ltb]. rewrite Nat.ltb_irrefl, Nat.eqb_refl, IH. reflexivity.
Qed.

Lemma lex_ltb_trans (r s t : list nat) :
  lex_ltb r s = true -> lex_ltb s t = true -> lex_ltb r t = true.
Proof.
  revert s t. induction r as [|x r IH]; intros [|y s] [|z t]; cbn [lex_ltb];
    try discriminate; try reflexivity.
  intros H1 H2.
  apply orb_true_iff in H1, H2. apply orb_true_iff.
  destruct H1 as [H1|H1], H2 as [H2|H2].
  - apply Nat.ltb_lt in H1, H2. left. apply Nat.ltb_lt. lia.
  - apply andb_true_iff in H2. destruct H2 as [H2 _].
    apply Nat.ltb_lt in H1. apply Nat.eqb_eq in H2. left. apply Nat.ltb_lt. lia.
  - apply andb_true_iff in H1. destruct H1 as [H1 _].
    apply Nat.ltb_lt in H2. apply Nat.eqb_eq in H1. left. apply Nat.ltb_lt. lia.
  - apply andb_true_iff in H1, H2. destruct H1 as [H1 H1'], H2 as [H2 H2'].
    apply Nat.eqb_eq in H1, H2. right. apply andb_true_iff. split.
    + apply Nat.eqb_eq. lia.
    + exact (IH _ _ H1' H2').
Qed.

Lemma lex_ltb_total (r s : list nat) :
  r <> s -> lex_ltb r s = false -> lex_ltb s r = true.
Proof.
  revert s. induction r as [|x r IH]; intros [|y s] Hne H; cbn [lex_ltb] in *;
    try discriminate; try reflexivity; try congruence.
  apply orb_false_iff in H. destruct H as [H1 H2].
  apply Nat.ltb_ge in H1. apply orb_true_iff.
  destruct (Nat.eqb_spec x y) as [->|Hxy].
  - right. rewrite Nat.eqb_refl. cbn [andb] in *.
    apply IH; [intros ->; now apply Hne | exact H2].
  - left. apply Nat.ltb_lt. lia.
Qed.

End Lex.

(** ** The table of distinct rows *)

Section Unique.

Lemma insert_row_keys (r : list nat) (T : list (list nat * nat)) (p : list nat * nat) :
  In p (insert_row r T) -> fst p = r \/ exists p', In p' T /\ fst p' = fst p.
Proof.
  induction T as [|[r' c] rest IH]; cbn [insert_row].
  - intros [<-|[]]. now left.
  - destruct (row_eqb_spec r r') as [->|Hne].
    + intros [<-|Hin].
      * now left.
      * right. exists p. split; [now right | reflexivity].
    + destruct (lex_ltb r r').
      * intros [<-|Hin]; [now left|]. right. exists p. auto.
      * intros [<-|Hin].
        -- right. exists (r', c). split; [now left | reflexivity].
        -- destruct (IH Hin) as [H|[p' [Hp' E]]]; [now left|].
           right. exists p'. split; [now right | exact E].
Qed.

Lemma insert_row_sorted (r : list nat) (T : list (list nat * nat)) :
  sorted_keys T -> sorted_keys (insert_row r T).
Proof.
  unfold sorted_keys.
  induction T as [|[r' c] rest IH]; intros Hs; cbn [insert_row].
  - constructor; constructor.
  - apply StronglySorted_inv in Hs. destruct Hs as [Hrest Hall].
    destruct (row_eqb_spec r r') as [->|Hne].
    + constructor; assumption.
    + destruct (lex_ltb r r') eqn:Hlt.
      * constructor.
        -- constructor; assumption.
        -- constructor; [exact Hlt|].
           rewrite Forall_forall in *. intros q Hq.
           exact (lex_ltb_trans _ _ _ Hlt (Hall q Hq)).
      * constructor; [now apply IH|].
        rewrite Forall_forall in *. intros q Hq.
        destruct (insert_row_keys _ _ _ Hq) as [E|[p' [Hp' E]]].
        -- cbn [fst]. rewrite E. now apply lex_ltb_total; [congruence|].
        -- rewrite <- E. now apply Hall.
Qed.

Lemma table_count_below (r : list nat) (T : list (list nat * nat)) :
  Forall (fun q => lex_ltb r (fst q) = true) T -> table_count T r = 0.
Proof.
  induction 1 as [|[r' c] rest Hlt _ IH]; cbn [table_count]; [reflexivity|].
  cbn [fst] in Hlt.
  destruct (row_eqb_spec r r') as [->|_]; [|exact IH].
  rewrite lex_ltb_irrefl in Hlt. discriminate.
Qed.

Lemma insert_row_count (r s : list nat) (T : list (list nat * nat)) :
  sorted_keys T ->
  table_count (insert_row r T) s =
  (if row_eqb s r then 1 else 0) + table_count T s.
Proof.
  unfold sorted_keys.
  induction T as [|[r' c] rest IH]; intros Hs; cbn [insert_row table_count].
  - lia.
  - apply StronglySorted_inv in Hs. destruct Hs as [Hrest Hall].
    destruct (row_eqb_spec r r') as [->|Hne].
    + cbn [table_count]. destruct (row_eqb_spec s r'); lia.
    + destruct (lex_ltb r r') eqn:Hlt.
      * cbn [table_count].
        destruct (row_eqb_spec s r) as [->|Hsr]; [|reflexivity].
        destruct (row_eqb_spec r r') as [->|_]; [congruence|].
        rewrite table_count_below; [reflexivity|].
        rewrite Forall_forall in *. intros q Hq.
        exact (lex_ltb_trans _ _ _ Hlt (Hall q Hq)).
      * cbn [table_count]. rewrite (IH Hrest).
        destruct (row_eqb_spec s r') as [E'|Hsr'], (row_eqb_spec s r) as [E|Hsr];
          try lia. congruence.
Qed.

Lemma insert_row_positive (r : list nat) (T : list (list nat * nat)) :
  Forall (fun q => 1 <= snd q) T -> Forall (fun q => 1 <= snd q) (insert_row r T).
Proof.
  induction 1 as [|[r' c] rest Hc Hrest IH]; cbn [insert_row].
  - constructor; [cbn; lia | constructor].
  - destruct (row_eqb r r'); [constructor; [cbn in *; lia | assumption]|].
    destruct (lex_ltb r r').
    + constructor; [cbn; lia|]. constructor; assumption.
    + constructor; assumption.
Qed.

(** The table [np.unique] builds from the rows: sorted, with positive counts,
    and each row counted as often as it occurs. *)
Lemma unique_table (rows : list (list nat)) (T : list (list nat * nat)) :
  sorted_keys T -> Forall (fun q => 1 <= snd q) T ->
  let T' := fold_left (fun acc r => insert_row r acc) rows T in
  sorted_keys T' /\ Forall (fun q => 1 <= snd q) T' /\
  forall s, table_count T' s = occurrences rows s + table_count T s.
Proof.
  revert T. induction rows as [|r rows IH]; intros T Hs Hp; cbn [fold_left].
  - split; [assumption | split; [assumption | reflexivity]].
  - destruct (IH (insert_row r T) (insert_row_sorted r Hs) (insert_row_positive r Hp))
      as [Hs' [Hp' Hc']].
    split; [assumption | split; [assumption|]].
    intros s. rewrite Hc', (insert_row_count r s Hs).
    unfold occurrences. cbn [count_occ].
    destruct (list_eq_dec Nat.eq_dec r s) as [->|Hne].
    + destruct (row_eqb_spec s s); [lia | congruence].
    + destruct (row_eqb_spec s r); [congruence | lia].
Qed.

(** In a sorted table the count of the row at a position is the count
    stored at that position. *)
Lemma table_count_nth (T : list (list nat * nat)) (i : nat) :
  sorted_keys T -> i < length T ->
  table_count T (nth i (map fst T) []) = nth i (map snd T) 0.
Proof.
  unfold sorted_keys. revert i.
  induction T as [|[r c] rest IH]; intros i Hs Hi; [simpl in Hi; lia|].
  apply StronglySorted_inv in Hs. destruct Hs as [Hrest Hall].
  destruct i as [|i]; cbn [map nth fst snd table_count].
  - destruct (row_eqb_spec r r); [reflexivity | congruence].
  - simpl in Hi.
    destruct (row_eqb_spec (nth i (map fst rest) []) r) as [E|_].
    + rewrite Forall_forall in Hall.
      assert (Hin : In (nth i rest ([], 0)) rest) by (apply nth_In; lia).
      specialize (Hall _ Hin).
      rewrite <- (map_nth fst) in Hall. cbn [fst] in Hall.
      rewrite E, lex_ltb_irrefl in Hall. discriminate.
    + apply IH; [exact Hrest | lia].
Qed.

(** A row with a nonzero count sits at some position of the table. *)
Lemma table_count_position (T : list (list nat * nat)) (r : list nat) :
  table_count T r <> 0 ->
  exists j, j < length T /\ nth j (map fst T) [] = r.
Proof.
  induction T as [|[r' c] rest IH]; cbn [table_count]; [congruence|].
  destruct (row_eqb_spec r r') as [->|Hne].
  - intros _. exists 0. split; [simpl; lia | reflexivity].
  - intros H. destruct (IH H) as [j [Hj E]].
    exists (S j). split; [simpl; lia | exact E].
Qed.

(** Rows further right in a sorted table are larger. *)
Lemma sorted_keys_nth (T : list (list nat * nat)) (i j : nat) :
  sorted_keys T -> i < j -> j < length T ->
  lex_ltb (nth i (map fst T) []) (nth j (map fst T) []) = true.
Proof.
  unfold sorted_keys. revert i j.
  induction T as [|[r c] rest IH]; intros i j Hs Hij Hj; [simpl in Hj; lia|].
  apply StronglySorted_inv in Hs. destruct Hs as [Hrest Hall].
  simpl in Hj. destruct j as [|j]; [lia|].
  destruct i as [|i]; cbn [map nth fst].
  - rewrite Forall_forall in Hall.
    assert (Hin : In (nth j rest ([], 0)) rest) by (apply nth_In; lia).
    specialize (Hall _ Hin). rewrite <- (map_nth fst) in Hall. exact Hall.
  - apply IH; [exact Hrest | lia | lia].
Qed.

End Unique.

(** ** argmax *)

Section Argmax.

Lemma argmax_from_bound {A : Type} (ltb : A -> A -> bool) (t : list A)
      (best_i : nat) (best : A) (i : nat) :
  best_i < i -> argmax_from ltb best_i best i t < i + length t.
Proof.
  revert best_i best i. induction t as [|x t IH]; intros best_i best i Hlt.
  - simpl. lia.
  - cbn [argmax_from length]. destruct (ltb best x).
    + specialize (IH i x (S i) ltac:(lia)). lia.
    + specialize (IH best_i best (S i) ltac:(lia)). lia.
Qed.

Lemma argmax_bound {A : Type} (ltb : A -> A -> bool) (l : list A) (r : nat) :
  argmax ltb l = inr r -> r < length l.
Proof.
  destruct l as [|x t]; [discriminate|].
  unfold argmax, ret. intros E. injection E as <-.
  pose proof (@argmax_from_bound A ltb t 0 x 1 ltac:(lia)). simpl. lia.
Qed.

(** The scan keeps the first position of the largest count seen so far. *)
Lemma argmax_from_first_max (t l0 : list nat) (best_i best : nat) :
  best_i < length l0 -> nth best_i l0 0 = best ->
  (forall j, j < length l0 -> nth j l0 0 <= best) ->
  (forall j, j < best_i -> nth j l0 0 < best) ->
  let r := argmax_from Nat.ltb best_i best (length l0) t in
  r < length (l0 ++ t) /\
  (forall j, j < length (l0 ++ t) -> nth j (l0 ++ t) 0 <= nth r (l0 ++ t) 0) /\
  (forall j, j < r -> nth j (l0 ++ t) 0 < nth r (l0 ++ t) 0).
Proof.
  revert l0 best_i best.
  induction t as [|x t IH]; intros l0 best_i best Hbi Hb Hmax Hfirst.
  - cbn [argmax_from]. rewrite app_nil_r, Hb. auto.
  - cbn [argmax_from].
    replace (S (length l0)) with (length (l0 ++ [x])) by (rewrite length_app; simpl; lia).
    replace (l0 ++ x :: t) with ((l0 ++ [x]) ++ t) by (now rewrite <- app_assoc).
    destruct (Nat.ltb_spec best x) as [Hlt|Hge].
    + apply IH.
      * rewrite length_app. simpl. lia.
      * rewrite app_nth2 by lia. now rewrite Nat.sub_diag.
      * intros j Hj. rewrite length_app in Hj. simpl in Hj.
        destruct (Nat.lt_ge_cases j (length l0)) as [Hj'|Hj'].
        -- rewrite app_nth1 by exact Hj'. specialize (Hmax j Hj'). lia.
        -- replace j with (length l0) by lia.
           rewrite app_nth2 by lia. rewrite Nat.sub_diag. simpl. lia.
      * intros j Hj. rewrite app_nth1 by exact Hj. specialize (Hmax j Hj). lia.
    + apply IH.
      * rewrite length_app. simpl. lia.
      * rewrite app_nth1 by exact Hbi. exact Hb.
      * intros j Hj. rewrite length_app in Hj. simpl in Hj.
        destruct (Nat.lt_ge_cases j (length l0)) as [Hj'|Hj'].
        -- rewrite app_nth1 by exact Hj'. now apply Hmax.
        -- replace j with (length l0) by lia.
           rewrite app_nth2 by lia. rewrite Nat.sub_diag. simpl. lia.
      * intros j Hj. rewrite app_nth1 by lia. now apply Hfirst.
Qed.

Lemma argmax_counts_spec (l : list nat) (r : nat) :
  argmax Nat.ltb l = inr r ->
  r < length l /\
  (forall j, j < length l -> nth j l 0 <= nth r l 0) /\
  (forall j, j < r -> nth j l 0 < nth r l 0).
Proof.
  destruct l as [|x t]; [discriminate|].
  unfold argmax, ret. intros E. injection E as <-.
  apply (@argmax_from_first_max t [x] 0 x).
  - simpl. lia.
  - reflexivity.
  - intros j Hj. simpl in Hj. replace j with 0 by lia. simpl. lia.
  - intros j Hj. lia.
Qed.

Lemma argmax_pair (x y : R) :
  argmax Rltb [x; y] = inr (if Rlt_dec x y then 1 else 0).
Proof.
  unfold argmax, ret. cbn [argmax_from]. unfold Rltb.
  destruct (Rlt_dec x y); reflexivity.
Qed.

End Argmax.

(** ** The most common row *)

(** The row selected from the argmax matrix is one of its rows, no row
    occurs more often, and the rows that occur as often are not smaller in
    the lexicographic order. *)
Lemma most_common_row_spec (rows : list (list nat)) (c : list nat) :
  most_common_row rows = inr c ->
  In c rows /\
  (forall r, occurrences rows r <= occurrences rows c) /\
  (forall r, In r rows -> occurrences rows r = occurrences rows c ->
             r = c \/ lex_ltb c r = true).
Proof.
  intros Hc.
  unfold most_common_row, unique_rows, bind, ret in Hc.
  set (T := fold_left (fun acc r => insert_row r acc) rows []) in Hc.
  destruct (argmax Nat.ltb (map snd T)) as [e|i] eqn:Hi; [discriminate|].
  injection Hc as <-.
  destruct (@unique_table rows [] (SSorted_nil _) (Forall_nil _)) as [Hs [Hp Hcount]].
  fold T in Hs, Hp, Hcount. cbn [table_count] in Hcount.
  destruct (argmax_counts_spec _ Hi) as [Hlen [Hmax Hfirst]].
  rewrite length_map in Hlen, Hmax.
  assert (Hci : occurrences rows (nth i (map fst T) []) = nth i (map snd T) 0).
  { rewrite <- (table_count_nth Hs Hlen), Hcount. lia. }
  assert (Hpos : forall r, In r rows ->
            exists j, j < length T /\ nth j (map fst T) [] = r).
  { intros r Hr. apply table_count_position. rewrite Hcount.
    unfold occurrences.
    pose proof (proj1 (count_occ_In (list_eq_dec Nat.eq_dec) rows r) Hr). lia. }
  split; [|split].
  - apply (count_occ_In (list_eq_dec Nat.eq_dec)).
    fold (occurrences rows (nth i (map fst T) [])).
    rewrite Hci. rewrite Forall_forall in Hp.
    assert (Hin : In (nth i T ([], 0)) T) by (apply nth_In; exact Hlen).
    specialize (Hp _ Hin). rewrite <- (map_nth snd) in Hp. cbn [snd] in Hp. lia.
  - intros r. rewrite Hci.
    destruct (Nat.eq_dec (occurrences rows r) 0) as [->|Hnz]; [lia|].
    destruct (@table_count_position T r) as [j [Hj E]].
    { rewrite Hcount. lia. }
    replace (occurrences rows r) with (nth j (map snd T) 0).
    + now apply Hmax.
    + rewrite <- (table_count_nth Hs Hj), E, Hcount. lia.
  - intros r Hr Heq. destruct (Hpos r Hr) as [j [Hj E]].
    assert (Hcj : occurrences rows r = nth j (map snd T) 0).
    { rewrite <- (table_count_nth Hs Hj), E, Hcount. lia. }
    destruct (Nat.lt_trichotomy j i) as [Hlt|[->|Hgt]].
    + specialize (Hfirst j Hlt). lia.
    + left. now symmetry.
    + right. rewrite <- E. now apply sorted_keys_nth.
Qed.

Lemma col_order_rows (self : ClassBalanceModel) (q : ndarray R) (c : list nat) :
  col_order_of self q = inr c ->
  exists rows,
    argmax_axis2 (cps_na_of self (cps_of q)) = inr rows /\
    most_common_row rows = inr c.
Proof.
  unfold col_order_of, bind.
  destruct (argmax_axis2 (cps_na_of self (cps_of q))) as [e|rows]; [discriminate|].
  intros Hc. exists rows. split; [reflexivity | exact Hc].
Qed.

(** C10: when several distinct per-source argmax orderings are tied for the
    highest count, the column order is the lexicographically smallest of the
    tied ones: the order selected occurs among the per-source orderings, no
    ordering occurs more often, and every ordering that occurs as often is
    equal to it or lexicographically larger. *)
Theorem col_order_tie_break (self : ClassBalanceModel) (q : ndarray R)
        (col_order : list nat) :
  col_order_of self q = inr col_order ->
  exists rows,
    argmax_axis2 (cps_na_of self (cps_of q)) = inr rows /\
    In col_order rows /\
    (forall r, occurrences rows r <= occurrences rows col_order) /\
    (forall r, In r rows ->
               occurrences rows r = occurrences rows col_order ->
               r = col_order \/ lex_ltb col_order r = true).
Proof.
  intros Hc. destruct (col_order_rows _ _ Hc) as [rows [Hrows Hsel]].
  exists rows. split; [exact Hrows|].
  destruct (most_common_row_spec _ Hsel) as [Hin [Hmax Htie]].
  split; [exact Hin|]. split; [exact Hmax|].
  intros r Hr Heq.
  destruct (Htie r Hr Heq) as [E|Hlt]; [left | right]; assumption.
Qed.

Lemma most_common_row_tied_example :
  most_common_row [[1; 0]; [0; 1]; [1; 0]; [0; 1]] = inr [0; 1].
Proof. reflexivity. Qed.

(** ** Factors whose sources agree on the mass of every latent column *)

Section Balanced.

Variable q : ndarray R.
Variables m kl kk : nat.
Variable s : nat -> R.
Hypothesis Hq : shape q = [m; kl; kk].
Hypothesis Hm : 1 <= m.
Hypothesis Hs : forall y, y < kk -> (0 < s y)%R.
Hypothesis Hmass : forall i y, i < m -> y < kk -> column_mass q kl i y = s y.

Lemma Rsum_const (l : list nat) (c : R) (f : nat -> R) :
  (forall i, In i l -> f i = c) -> Rsum l f = (INR (length l) * c)%R.
Proof.
  induction l as [|x l IH]; intros H.
  - simpl. ring.
  - cbn [Rsum fold_right]. change (fold_right _ _ l) with (Rsum l f).
    rewrite IH by (intros i Hi; apply H; now right).
    rewrite (H x) by now left.
    change (length (x :: l)) with (S (length l)). rewrite S_INR. ring.
Qed.

Lemma balanced_p_y (y : nat) : y < kk -> item (p_y_of q) [y] = (s y ^ 3)%R.
Proof.
  intros Hy. rewrite (@p_y_item q m kl kk Hq).
  rewrite (@Rsum_const (seq 0 m) (s y ^ 3)%R).
  - rewrite length_seq. field. apply not_0_INR. lia.
  - intros i Hi. apply in_seq in Hi. rewrite Hmass by lia. reflexivity.
Qed.

Lemma Rpower_cube_root (x : R) : (0 < x)%R -> Rpower (x ^ 3) (1 / 3) = x.
Proof.
  intros Hx. rewrite <- (Rpower_pow 3 x Hx), Rpower_mult.
  replace (INR 3 * (1 / 3))%R with 1%R by (simpl; field).
  now apply Rpower_1.
Qed.

Lemma balanced_cps (i v y : nat) :
  y < kk -> item (cps_of q) [i; v; y] = (item q [i; v; y] / s y)%R.
Proof.
  intros Hy. rewrite (@cps_item q m kl kk Hq i v y Hy), (balanced_p_y Hy).
  rewrite Rpower_cube_root by now apply Hs. reflexivity.
Qed.

Lemma balanced_cps_slice (i y : nat) :
  i < m -> y < kk -> column_mass (cps_of q) kl i y = 1%R.
Proof.
  intros Hi Hy. unfold column_mass.
  rewrite (Rsum_ext _ _ (fun v => (item q [i; v; y] * / s y)%R)).
  2:{ intros v _. now rewrite balanced_cps. }
  rewrite Rsum_scal_r. fold (column_mass q kl i y). rewrite Hmass by assumption.
  apply Rinv_r. specialize (Hs Hy). lra.
Qed.

End Balanced.

(** ** The two example factors *)

Section Examples.

Lemma Q_skewed_mass (i y : nat) :
  i < 3 -> y < 2 -> column_mass Q_skewed 3 i y = 1%R.
Proof.
  intros Hi Hy. unfold column_mass, Q_skewed, of_rows3.
  destruct i as [|[|[|i]]]; [| | |lia];
    (destruct y as [|[|y]]; [| |lia]); cbn; lra.
Qed.

Lemma Q_skewed_p_y (y : nat) : y < 2 -> item (p_y_of Q_skewed) [y] = 1%R.
Proof.
  intros Hy.
  rewrite (@balanced_p_y Q_skewed 3 3 2 (fun _ => 1%R) eq_refl) by
    (try lia; intros; try lra; now apply Q_skewed_mass).
  ring.
Qed.

Lemma Q_skewed_cps (i v y : nat) :
  y < 2 -> item (cps_of Q_skewed) [i; v; y] = item Q_skewed [i; v; y].
Proof.
  intros Hy.
  rewrite (@balanced_cps Q_skewed 3 3 2 (fun _ => 1%R) eq_refl) by
    (try lia; intros; try lra; now apply Q_skewed_mass).
  field.
Qed.

Lemma col_order_skewed : col_order_of (__init__ 2 true None) Q_skewed = inr [0; 0].
Proof.
  unfold col_order_of.
  assert (Hrows : argmax_axis2 (cps_na_of (__init__ 2 true None) (cps_of Q_skewed))
                  = inr [[0; 0]; [0; 0]; [0; 0]]).
  { unfold cps_na_of. cbn [k k_lf __init__ Nat.ltb Nat.leb Nat.add].
    unfold argmax_axis2, drop_first_axis1. cbn [shape].
    rewrite (@cps_shape Q_skewed 3 3 2 eq_refl).
    cbn [Nat.sub Nat.eqb seq mapM map bind ret item].
    rewrite !Q_skewed_cps by lia. rewrite !argmax_pair.
    unfold Q_skewed, of_rows3. cbn [item repeat nth].
    repeat (destruct (Rlt_dec _ _); [lra|]). reflexivity. }
  rewrite Hrows. reflexivity.
Qed.

Lemma Q_tied_mass (i y : nat) :
  i < 2 -> y < 2 -> column_mass Q_tied 2 i y = 1%R.
Proof.
  intros Hi Hy. unfold column_mass, Q_tied, of_rows3.
  destruct i as [|[|i]]; [| |lia];
    (destruct y as [|[|y]]; [| |lia]); cbn; lra.
Qed.

Lemma Q_tied_cps (i v y : nat) :
  y < 2 -> item (cps_of Q_tied) [i; v; y] = item Q_tied [i; v; y].
Proof.
  intros Hy.
  rewrite (@balanced_cps Q_tied 2 2 2 (fun _ => 1%R) eq_refl) by
    (try lia; intros; try lra; now apply Q_tied_mass).
  field.
Qed.

Lemma col_order_tied : col_order_of (__init__ 2 false None) Q_tied = inr [0; 1].
Proof.
  unfold col_order_of.
  assert (Hrows : argmax_axis2 (cps_na_of (__init__ 2 false None) (cps_of Q_tied))
                  = inr [[0; 1]; [1; 0]]).
  { unfold cps_na_of. cbn [k k_lf __init__ Nat.ltb Nat.leb].
    unfold argmax_axis2. rewrite (@cps_shape Q_tied 2 2 2 eq_refl).
    cbn [Nat.eqb seq mapM map bind ret].
    rewrite !Q_tied_cps by lia. rewrite !argmax_pair.
    unfold Q_tied, of_rows3. cbn [item nth].
    repeat (destruct (Rlt_dec _ _); try lra). reflexivity. }
  rewrite Hrows. reflexivity.
Qed.

End Examples.

Lemma col_order_tie_break_witness :
  exists rows,
    argmax_axis2 (cps_na_of (__init__ 2 false None) (cps_of Q_tied)) = inr rows /\
    In [0; 1] rows /\
    (forall r, occurrences rows r <= occurrences rows [0; 1]) /\
    (forall r, In r rows ->
               occurrences rows r = occurrences rows [0; 1] ->
               r = [0; 1] \/ lex_ltb [0; 1] r = true).
Proof.
  exact (@col_order_tie_break (__init__ 2 false None) Q_tied [0; 1] col_order_tied).
Defined.

(** ** train_model *)

Section TrainModel.

Variable torch_rand : list nat -> list nat -> R.
Variable lbfgs_step : R -> nat -> (ndarray R -> R) -> ndarray R -> list nat -> R.

Local Abbreviation train := (train_model torch_rand lbfgs_step).
Local Abbreviation fitted := (fitted_Q torch_rand lbfgs_step).

(** The instance a completed call leaves behind. *)
Lemma train_model_run (self : ClassBalanceModel) (L : option (ndarray Z))
      (O_ : ndarray R) (lr : R) (max_iter : nat) (verbose : bool)
      (m : nat) (s col_order : list nat) (cb cp : ndarray R) :
  shape O_ = m :: s ->
  col_order_of self (fitted self O_ lr max_iter m) = inr col_order ->
  take (p_y_of (fitted self O_ lr max_iter m)) col_order = inr cb ->
  take (cps_of (fitted self O_ lr max_iter m)) col_order = inr cp ->
  train self L (Some O_) lr max_iter verbose =
  (set_cond_probs
     (set_class_balance
        (set_Q (set_mask (set_m self m) (get_mask self m))
               (fitted self O_ lr max_iter m)) cb) cp,
   inr tt).
Proof.
  intros HO Hc Hcb Hcp. unfold train_model. cbn [ret]. rewrite HO.
  cbv zeta.
  change (col_order_of _ _) with (col_order_of self (fitted self O_ lr max_iter m)).
  rewrite Hc.
  change (take (p_y_of _) col_order)
    with (take (p_y_of (fitted self O_ lr max_iter m)) col_order).
  rewrite Hcb.
  change (take (cps_of _) col_order)
    with (take (cps_of (fitted self O_ lr max_iter m)) col_order).
  rewrite Hcp. reflexivity.
Qed.

(** What a completed call went through. *)
Lemma train_model_inv (self self' : ClassBalanceModel) (L : option (ndarray Z))
      (O_ : option (ndarray R)) (lr : R) (max_iter : nat) (verbose : bool) :
  train self L O_ lr max_iter verbose = (self', inr tt) ->
  exists O' m s col_order cb cp,
    shape O' = m :: s /\
    col_order_of self (fitted self O' lr max_iter m) = inr col_order /\
    take (p_y_of (fitted self O' lr max_iter m)) col_order = inr cb /\
    take (cps_of (fitted self O' lr max_iter m)) col_order = inr cp /\
    self' = set_cond_probs
              (set_class_balance
                 (set_Q (set_mask (set_m self m) (get_mask self m))
                        (fitted self O' lr max_iter m)) cb) cp.
Proof.
  intros H. unfold train_model in H.
  match type of H with
  | context [match ?inp with inl _ => _ | inr _ => _ end] =>
      destruct inp as [e|O'] eqn:Hin
  end; [discriminate|].
  destruct (shape O') as [|m s] eqn:HO; [discriminate|].
  cbv zeta in H.
  change (col_order_of _ _)
    with (col_order_of self (fitted self O' lr max_iter m)) in H.
  destruct (col_order_of self (fitted self O' lr max_iter m)) as [e|c] eqn:Hc;
    [discriminate|].
  change (take (p_y_of _) c)
    with (take (p_y_of (fitted self O' lr max_iter m)) c) in H.
  destruct (take (p_y_of (fitted self O' lr max_iter m)) c) as [e|cb] eqn:Hcb;
    [discriminate|].
  change (take (cps_of _) c)
    with (take (cps_of (fitted self O' lr max_iter m)) c) in H.
  destruct (take (cps_of (fitted self O' lr max_iter m)) c) as [e|cp] eqn:Hcp;
    [discriminate|].
  injection H as <-.
  exists O', m, s, c, cb, cp. repeat (split; [assumption || reflexivity|]).
  reflexivity.
Qed.

(** No call changes the cardinalities of the instance. *)
Lemma train_model_wf (self : ClassBalanceModel) (L : option (ndarray Z))
      (O_ : option (ndarray R)) (lr : R) (max_iter : nat) (verbose : bool) :
  wf self -> wf (fst (train self L O_ lr max_iter verbose)).
Proof.
  intros Hwf. unfold train_model.
  repeat match goal with
         | |- context [match ?x with _ => _ end] => destruct x
         end; exact Hwf.
Qed.

End TrainModel.

(** C8: a call of [train_model] with neither L nor O raises the
    invalid-input ValueError and leaves the instance as it was: no attribute
    is changed. *)
Theorem train_model_requires_input
        (torch_rand : list nat -> list nat -> R)
        (lbfgs_step : R -> nat -> (ndarray R -> R) -> ndarray R -> list nat -> R)
        (self : ClassBalanceModel) (lr : R) (max_iter : nat) (verbose : bool) :
  train_model torch_rand lbfgs_step self None None lr max_iter verbose =
  (self, inl (ValueError "L or O required as input.")).
Proof. reflexivity. Qed.

(** ** Which errors the decoding lines can raise *)

Section Errors.


Lemma mapM_result {A B : Type} (f : A -> result B) (l : list A) (bs : list B) :
  mapM f l = inr bs -> Forall2 (fun a b => f a = inr b) l bs.
Proof.
  revert bs. induction l as [|a l IH]; intros bs; cbn [mapM].
  - intros E. injection E as <-. constructor.
  - unfold bind at 1. destruct (f a) as [e|b] eqn:Ha; [discriminate|].
    unfold bind. destruct (mapM f l) as [e|bs']; [discriminate|].
    intros E. injection E as <-. constructor; [exact Ha | now apply IH].
Qed.




End Errors.


(** ** Shape of the column order *)

Section ColumnOrder.

Lemma Forall2_In_r {A B : Type} (P : A -> B -> Prop) (l : list A) (l' : list B) (b : B) :
  Forall2 P l l' -> In b l' -> exists a, In a l /\ P a b.
Proof.
  induction 1 as [|a b' l l' Hab _ IH]; intros Hin; [contradiction|].
  destruct Hin as [<-|Hin].
  - exists a. split; [now left | exact Hab].
  - destruct (IH Hin) as [a' [Ha' HP]]. exists a'. split; [now right | exact HP].
Qed.

Lemma argmax_axis2_rows (A : ndarray R) (m v kk : nat) (rows : list (list nat)) :
  shape A = [m; v; kk] -> argmax_axis2 A = inr rows ->
  length rows = m /\
  forall r, In r rows -> length r = v /\ Forall (fun y => y < kk) r.
Proof.
  intros HA Hrows. unfold argmax_axis2 in Hrows. rewrite HA in Hrows.
  destruct (kk =? 0); [discriminate|].
  apply mapM_result in Hrows. split.
  - apply Forall2_length in Hrows. now rewrite length_seq in Hrows.
  - intros r Hr. destruct (@Forall2_In_r _ _ _ _ _ _ Hrows Hr) as [i [_ Hi]].
    apply mapM_result in Hi. split.
    + apply Forall2_length in Hi. now rewrite length_seq in Hi.
    + apply Forall_forall. intros y Hy.
      destruct (@Forall2_In_r _ _ _ _ _ _ Hi Hy) as [v' [_ Hv']].
      apply argmax_bound in Hv'. now rewrite length_map, length_seq in Hv'.
Qed.

Lemma cps_na_shape (self : ClassBalanceModel) (q : ndarray R) (m : nat) :
  wf self -> shape q = [m; k_lf self; k self] ->
  shape (cps_na_of self (cps_of q)) = [m; k self; k self].
Proof.
  intros [_ Hlf] Hq. unfold cps_na_of.
  pose proof (@cps_shape q m (k_lf self) (k self) Hq) as Hc.
  destruct (Nat.ltb_spec (k self) (k_lf self)) as [Hlt|Hge].
  - unfold drop_first_axis1. cbn [shape]. rewrite Hc.
    destruct (abstains self); [|lia]. rewrite Hlf. do 2 f_equal. lia.
  - rewrite Hc. destruct (abstains self); [lia|]. now rewrite Hlf.
Qed.

Lemma col_order_shape (self : ClassBalanceModel) (q : ndarray R) (m : nat)
      (col_order : list nat) :
  wf self -> shape q = [m; k_lf self; k self] ->
  col_order_of self q = inr col_order ->
  1 <= m /\ length col_order = k self /\ Forall (fun y => y < k self) col_order.
Proof.
  intros Hwf Hq Hc.
  destruct (col_order_rows _ _ Hc) as [rows [Hrows Hsel]].
  destruct (most_common_row_spec _ Hsel) as [Hin _].
  destruct (@argmax_axis2_rows _ _ _ _ _ (@cps_na_shape self q m Hwf Hq) Hrows)
    as [Hlen Hall].
  split; [|exact (Hall _ Hin)].
  destruct rows; [contradiction | simpl in Hlen; lia].
Qed.

Lemma take_result (A B : ndarray R) (idx : list nat) :
  take A idx = inr B ->
  B = gather A idx /\ Forall (fun j => j < dim A 0) idx.
Proof.
  unfold take. destruct (forallb _ idx) eqn:Hall; [|discriminate].
  intros E. injection E as <-. split; [reflexivity|].
  apply Forall_forall. intros j Hj.
  rewrite forallb_forall in Hall. now apply Nat.ltb_lt, Hall.
Qed.

Lemma take_in_range (A : ndarray R) (idx : list nat) :
  Forall (fun j => j < dim A 0) idx -> take A idx = inr (gather A idx).
Proof.
  intros Hall. unfold take.
  replace (forallb _ idx) with true; [reflexivity|].
  symmetry. apply forallb_forall. intros j Hj.
  rewrite Forall_forall in Hall. now apply Nat.ltb_lt, Hall.
Qed.

End ColumnOrder.

(** C5, as amended: after a completed call the column order is a row of the
    per-source argmax matrix of the non-abstain part of cps that no other row
    outnumbers; it has k entries, each a latent column index below k (it need
    not be a permutation of the columns); [class_balance] has k entries and
    is exactly [p_y] reindexed by this order. *)
Theorem train_model_column_order
        (torch_rand : list nat -> list nat -> R)
        (lbfgs_step : R -> nat -> (ndarray R -> R) -> ndarray R -> list nat -> R)
        (self self' : ClassBalanceModel) (L : option (ndarray Z))
        (O_ : option (ndarray R)) (lr : R) (max_iter : nat) (verbose : bool) :
  wf self ->
  train_model torch_rand lbfgs_step self L O_ lr max_iter verbose = (self', inr tt) ->
  exists q col_order cb rows,
    attr_Q self' = Some q /\
    col_order_of self q = inr col_order /\
    argmax_axis2 (cps_na_of self (cps_of q)) = inr rows /\
    In col_order rows /\
    (forall r, occurrences rows r <= occurrences rows col_order) /\
    length col_order = k self /\
    Forall (fun y => y < k self) col_order /\
    class_balance self' = Some cb /\
    shape cb = [k self] /\
    forall j, j < k self -> item cb [j] = item (p_y_of q) [nth j col_order 0].
Proof.
  intros Hwf Hrun.
  destruct (train_model_inv _ _ _ _ _ _ _ _ Hrun)
    as [O' [m [s [c [cb [cp [HO [Hc [Hcb [Hcp ->]]]]]]]]]].
  set (q := fitted_Q torch_rand lbfgs_step self O' lr max_iter m) in *.
  assert (Hq : shape q = [m; k_lf self; k self]) by reflexivity.
  destruct (col_order_rows _ _ Hc) as [rows [Hrows Hsel]].
  destruct (most_common_row_spec _ Hsel) as [Hin [Hmax _]].
  destruct (@col_order_shape self q m c Hwf Hq Hc) as [_ [Hlen Hall]].
  destruct (take_result _ _ Hcb) as [-> _].
  exists q, c, (gather (p_y_of q) c), rows.
  repeat (split; [reflexivity || assumption|]).
  split; [|reflexivity].
  unfold gather. cbn [shape]. rewrite (@p_y_shape q m (k_lf self) (k self) Hq), Hlen.
  reflexivity.
Qed.

Section SkewedRun.

Lemma fitted_skewed :
  fitted_Q (fun _ => item Q_skewed) lbfgs_no_update (__init__ 2 true None) O_zeros 1 0 3
  = Q_skewed.
Proof. reflexivity. Qed.

(** A call on three sources with [max_iter = 0], the random draw being
    [Q_skewed]: the call completes, with column order (0, 0). *)
Lemma train_skewed :
  train_model (fun _ => item Q_skewed) lbfgs_no_update (__init__ 2 true None)
              None (Some O_zeros) 1 0 false
  = (fit_state (__init__ 2 true None) 3 Q_skewed [0; 0], inr tt).
Proof.
  pose proof (@train_model_run (fun _ => item Q_skewed) lbfgs_no_update
                (__init__ 2 true None) None O_zeros 1 0 false 3 [3; 3; 3; 3; 3] [0; 0]
                (gather (p_y_of Q_skewed) [0; 0]) (gather (cps_of Q_skewed) [0; 0])
                eq_refl) as H.
  rewrite fitted_skewed in H. apply H.
  - exact col_order_skewed.
  - apply take_in_range. unfold dim.
    rewrite (@p_y_shape Q_skewed 3 3 2 eq_refl). repeat constructor.
  - apply take_in_range. unfold dim.
    rewrite (@cps_shape Q_skewed 3 3 2 eq_refl). repeat constructor.
Qed.

End SkewedRun.

Lemma train_model_column_order_witness :
  exists q col_order cb rows,
    attr_Q (fit_state (__init__ 2 true None) 3 Q_skewed [0; 0]) = Some q /\
    col_order_of (__init__ 2 true None) q = inr col_order /\
    argmax_axis2 (cps_na_of (__init__ 2 true None) (cps_of q)) = inr rows /\
    In col_order rows /\
    (forall r, occurrences rows r <= occurrences rows col_order) /\
    length col_order = k (__init__ 2 true None) /\
    Forall (fun y => y < k (__init__ 2 true None)) col_order /\
    class_balance (fit_state (__init__ 2 true None) 3 Q_skewed [0; 0]) = Some cb /\
    shape cb = [k (__init__ 2 true None)] /\
    forall j, j < k (__init__ 2 true None) ->
              item cb [j] = item (p_y_of q) [nth j col_order 0].
Proof.
  exact (@train_model_column_order _ _ _ _ None (Some O_zeros) 1%R 0 false
           (wf_init 2 true None) train_skewed).
Defined.

(** C5 as stated fails: on the factor [Q_skewed] both labels find latent
    column 0 the more probable one for every source, the column order is
    (0, 0), and that is no permutation of the two latent columns. *)
Lemma column_order_counterexample :
  exists self' cb cp,
    train_model (fun _ => item Q_skewed) lbfgs_no_update (__init__ 2 true None)
                None (Some O_zeros) 1 0 false = (self', inr tt) /\
    attr_Q self' = Some Q_skewed /\
    class_balance self' = Some cb /\
    cond_probs self' = Some cp /\
    ~ column_order_claim (__init__ 2 true None) Q_skewed cb cp.
Proof.
  exists (fit_state (__init__ 2 true None) 3 Q_skewed [0; 0]),
         (gather (p_y_of Q_skewed) [0; 0]), (gather (cps_of Q_skewed) [0; 0]).
  split; [exact train_skewed|].
  repeat (split; [reflexivity|]).
  intros [c [Hc [Hperm _]]].
  rewrite col_order_skewed in Hc. injection Hc as <-.
  assert (Hin : In 1 [0; 0]).
  { apply (Permutation_in 1 (Permutation_sym Hperm)). simpl. auto. }
  simpl in Hin. intuition discriminate.
Qed.

(** ** Fits that are exact factors *)

Section ExactFit.

Lemma Rsum_term_le (l : list nat) (f : nat -> R) (y : nat) :
  (forall i, In i l -> (0 <= f i)%R) -> In y l -> (f y <= Rsum l f)%R.
Proof.
  induction l as [|x l IH]; intros Hpos Hin; [contradiction|].
  cbn [Rsum fold_right]. change (fold_right _ _ l) with (Rsum l f).
  assert (Hl : (0 <= Rsum l f)%R).
  { clear IH Hin. induction l as [|z l IHl]; [simpl; lra|].
    cbn [Rsum fold_right]. change (fold_right _ _ l) with (Rsum l f).
    assert (0 <= f z)%R by (apply Hpos; right; now left).
    assert (0 <= Rsum l f)%R.
    { apply IHl. intros i [->|Hi]; apply Hpos; [now left | right; now right]. }
    lra. }
  assert (Hx : (0 <= f x)%R) by (apply Hpos; now left).
  destruct Hin as [->|Hin]; [lra|].
  assert (f y <= Rsum l f)%R by (apply IH; [intros i Hi; apply Hpos; now right | exact Hin]).
  lra.
Qed.

Lemma Rsum_perm (l l' : list nat) (f : nat -> R) :
  Permutation l l' -> Rsum l f = Rsum l' f.
Proof.
  induction 1 as [|x l l' _ IH|x y l|l l' l'' _ IH1 _ IH2]; cbn [Rsum fold_right].
  - reflexivity.
  - change (fold_right _ _ l) with (Rsum l f).
    change (fold_right _ _ l') with (Rsum l' f). now rewrite IH.
  - ring.
  - now rewrite IH1.
Qed.

Lemma Rsum_map (g : nat -> nat) (l : list nat) (f : nat -> R) :
  Rsum (map g l) f = Rsum l (fun i => f (g i)).
Proof.
  induction l as [|x l IH]; [reflexivity|].
  cbn [map Rsum fold_right].
  change (fold_right _ _ (map g l)) with (Rsum (map g l) f). now rewrite IH.
Qed.

Lemma map_nth_seq_id (c : list nat) :
  map (fun j => nth j c 0) (seq 0 (length c)) = c.
Proof.
  apply (nth_ext _ _ 0 0).
  - now rewrite length_map, length_seq.
  - intros j Hj. rewrite length_map, length_seq in Hj.
    rewrite (nth_indep _ 0 (nth 0 c 0)) by (now rewrite length_map, length_seq).
    rewrite (map_nth (fun j => nth j c 0)), seq_nth by exact Hj. reflexivity.
Qed.

End ExactFit.

(** ** What a completed fit guarantees *)

Section FitBounds.

Lemma Rsum_plus (l : list nat) (f g : nat -> R) :
  Rsum l (fun i => (f i + g i)%R) = (Rsum l f + Rsum l g)%R.
Proof. induction l as [|x l IH]; simpl; [ring | rewrite IH; ring]. Qed.

Lemma Rsum_swap (l1 l2 : list nat) (f : nat -> nat -> R) :
  Rsum l1 (fun a => Rsum l2 (fun b => f a b)) =
  Rsum l2 (fun b => Rsum l1 (fun a => f a b)).
Proof.
  induction l1 as [|x l1 IH]; simpl.
  - symmetry. now apply Rsum_zero.
  - rewrite IH, Rsum_plus. reflexivity.
Qed.

Lemma Rsum_bounds (l : list nat) (f : nat -> R) (a b : R) :
  (forall i, In i l -> (a <= f i <= b)%R) ->
  (INR (length l) * a <= Rsum l f <= INR (length l) * b)%R.
Proof.
  induction l as [|x l IH]; intros H.
  - simpl. lra.
  - cbn [Rsum fold_right]. change (fold_right _ _ l) with (Rsum l f).
    change (length (x :: l)) with (S (length l)). rewrite S_INR.
    assert (Hx : (a <= f x <= b)%R) by (apply H; now left).
    assert (Hl : (INR (length l) * a <= Rsum l f <= INR (length l) * b)%R)
      by (apply IH; intros i Hi; apply H; now right).
    lra.
Qed.

(** The mean of numbers between a and b lies between a and b. *)
Lemma mean_bounds (n : nat) (f : nat -> R) (a b : R) :
  1 <= n -> (forall i, i < n -> (a <= f i <= b)%R) ->
  (a <= Rsum (seq 0 n) f / INR n <= b)%R.
Proof.
  intros Hn H.
  assert (Hpos : (0 < INR n)%R) by (apply lt_0_INR; lia).
  pose proof (@Rsum_bounds (seq 0 n) f a b) as Hb. rewrite length_seq in Hb.
  assert (Hs : (INR n * a <= Rsum (seq 0 n) f <= INR n * b)%R).
  { apply Hb. intros i Hi. apply in_seq in Hi. apply H. lia. }
  split; apply Rmult_le_reg_r with (r := INR n); try exact Hpos;
    unfold Rdiv; rewrite Rmult_assoc, Rinv_l by lra; lra.
Qed.

Lemma within_tol_bounds (x : R) :
  within_tol x <-> (1 - 1 / 10000 <= x <= 1 + 1 / 10000)%R.
Proof.
  unfold within_tol, Rabs. destruct (Rcase_abs (x - 1)); split; intros; lra.
Qed.

(** The slice [cps[i, :, y]] sums to the column mass over the divisor. *)
Lemma cps_column_mass (q : ndarray R) (m kl kk i y : nat) :
  shape q = [m; kl; kk] -> y < kk ->
  column_mass (cps_of q) kl i y =
  (column_mass q kl i y / Rpower (item (p_y_of q) [y]) (1 / 3))%R.
Proof.
  intros Hq Hy. unfold column_mass.
  rewrite (Rsum_ext _ _ (fun v => (item q [i; v; y]
                                   * / Rpower (item (p_y_of q) [y]) (1 / 3))%R)).
  - now rewrite Rsum_scal_r.
  - intros v _. rewrite (@cps_item q m kl kk Hq i v y Hy). reflexivity.
Qed.

End FitBounds.

(** C1, as amended: after a completed call [class_balance] has k entries.
    Nothing normalises the estimates, so the other guarantees depend on the
    fitted Q.  Every entry of [class_balance] lies in [0, 1] when every
    column mass sum_v Q[i, v, y] lies in [0, 1].  [class_balance] sums to
    1 +- 1e-4 when the column order is a permutation of the latent columns
    and, for every source, the cubes of its column masses sum to
    1 +- 1e-4.  Where [p_y[y]] is positive, the slice [cps[i, :, y]] of the
    decoded conditional probabilities sums to the column mass of source i
    over the cube root of [p_y[y]], which is 1 +- 1e-4 when the column
    mass is within 1e-4 times that cube root of it. *)
Theorem train_model_fit_bounds
        (torch_rand : list nat -> list nat -> R)
        (lbfgs_step : R -> nat -> (ndarray R -> R) -> ndarray R -> list nat -> R)
        (self self' : ClassBalanceModel) (L : option (ndarray Z))
        (O_ : option (ndarray R)) (lr : R) (max_iter : nat) (verbose : bool)
        (q cb : ndarray R) :
  wf self ->
  train_model torch_rand lbfgs_step self L O_ lr max_iter verbose = (self', inr tt) ->
  attr_Q self' = Some q ->
  class_balance self' = Some cb ->
  shape cb = [k self] /\
  ((forall i y, i < dim q 0 -> y < k self ->
                (0 <= column_mass q (k_lf self) i y <= 1)%R) ->
   forall j, j < k self -> (0 <= item cb [j] <= 1)%R) /\
  (forall col_order,
      col_order_of self q = inr col_order ->
      Permutation col_order (seq 0 (k self)) ->
      (forall i, i < dim q 0 ->
         within_tol (Rsum (seq 0 (k self))
                          (fun y => (column_mass q (k_lf self) i y ^ 3)%R))) ->
      within_tol (Rsum (seq 0 (k self)) (fun j => item cb [j]))) /\
  (forall i y, i < dim q 0 -> y < k self -> (0 < item (p_y_of q) [y])%R ->
     let c := Rpower (item (p_y_of q) [y]) (1 / 3) in
     column_mass (cps_of q) (k_lf self) i y = (column_mass q (k_lf self) i y / c)%R /\
     ((Rabs (column_mass q (k_lf self) i y - c) <= 1 / 10000 * c)%R ->
      within_tol (column_mass (cps_of q) (k_lf self) i y))).
Proof.
  intros Hwf Hrun HQ Hcb.
  destruct (train_model_inv _ _ _ _ _ _ _ _ Hrun)
    as [O' [m [sh [c [cb' [cp [HO [Hc [Hcb' [Hcp ->]]]]]]]]]].
  cbn in HQ, Hcb. injection HQ as <-. injection Hcb as <-.
  set (q := fitted_Q torch_rand lbfgs_step self O' lr max_iter m) in *.
  assert (Hq : shape q = [m; k_lf self; k self]) by reflexivity.
  assert (Hdim : dim q 0 = m) by reflexivity. rewrite Hdim in *.
  destruct (@col_order_shape self q m c Hwf Hq Hc) as [Hm [Hlen Hall]].
  destruct (take_result _ _ Hcb') as [-> _].
  assert (Hnth : forall j, j < k self -> nth j c 0 < k self).
  { intros j Hj. rewrite Forall_forall in Hall. apply Hall, nth_In. lia. }
  assert (Hitem : forall j, item (gather (p_y_of q) c) [j]
                            = item (p_y_of q) [nth j c 0%nat]) by reflexivity.
  split; [|split; [|split]].
  - unfold gather. cbn [shape].
    rewrite (@p_y_shape q m (k_lf self) (k self) Hq), Hlen. reflexivity.
  - intros Hmass j Hj. rewrite Hitem, (@p_y_item q m (k_lf self) (k self) Hq).
    apply (mean_bounds _ Hm). intros i Hi.
    specialize (Hmass i (nth j c 0) Hi (Hnth j Hj)).
    split; [apply pow_le; lra|].
    rewrite <- (pow1 3). apply pow_incr. exact Hmass.
  - intros c' Hc' Hperm Hsrc. rewrite Hc in Hc'. injection Hc' as <-.
    rewrite (Rsum_ext _ _ (fun j => item (p_y_of q) [nth j c 0%nat]))
      by (intros j _; apply Hitem).
    rewrite <- Hlen at 1.
    rewrite <- (Rsum_map (fun j => nth j c 0) (seq 0 (length c))
                         (fun y => item (p_y_of q) [y])).
    rewrite map_nth_seq_id, (Rsum_perm _ Hperm).
    rewrite (Rsum_ext _ _
               (fun y => (Rsum (seq 0 m)
                               (fun i => (column_mass q (k_lf self) i y ^ 3)%R)
                          * / INR m)%R))
      by (intros y _; apply (@p_y_item q m (k_lf self) (k self) Hq)).
    rewrite Rsum_scal_r, Rsum_swap.
    apply within_tol_bounds. apply (mean_bounds _ Hm).
    intros i Hi. apply within_tol_bounds, Hsrc, Hi.
  - intros i y Hi Hy Hp. cbv zeta.
    destruct (Rpower_third_cube Hp) as [Hpos _].
    pose proof (@cps_column_mass q m (k_lf self) (k self) i y Hq Hy) as Hslice.
    split; [exact Hslice|].
    intros Hnear. rewrite Hslice. apply within_tol_bounds.
    set (r := Rpower (item (p_y_of q) [y]) (1 / 3)) in *.
    set (a := column_mass q (k_lf self) i y) in *.
    assert (Hb : (- (1 / 10000 * r) <= a - r <= 1 / 10000 * r)%R).
    { revert Hnear. unfold Rabs. destruct (Rcase_abs (a - r)); intros; lra. }
    split; apply Rmult_le_reg_r with (r := r); try exact Hpos;
      unfold Rdiv; rewrite Rmult_assoc, Rinv_l by lra; lra.
Qed.

Section ExactRun.

Lemma cbrt_half_pos : (0 < cbrt_half)%R.
Proof. unfold cbrt_half, Rpower. apply exp_pos. Qed.

Lemma cbrt_half_cube : (cbrt_half ^ 3 = 1 / 2)%R.
Proof.
  unfold cbrt_half. rewrite <- Rpower_pow by (unfold Rpower; apply exp_pos).
  rewrite Rpower_mult.
  replace (1 / 3 * INR 3)%R with 1%R by (simpl; field).
  apply Rpower_1. lra.
Qed.

Lemma Q_exact_mass (i y : nat) :
  i < 3 -> y < 2 -> column_mass Q_exact 2 i y = cbrt_half.
Proof.
  intros Hi Hy. unfold column_mass, Q_exact, of_rows3.
  destruct i as [|[|[|i]]]; [| | |lia];
    (destruct y as [|[|y]]; [| |lia]); cbn; lra.
Qed.

Lemma Q_exact_cps (i v y : nat) :
  y < 2 -> item (cps_of Q_exact) [i; v; y] = (item Q_exact [i; v; y] / cbrt_half)%R.
Proof.
  intros Hy.
  apply (@balanced_cps Q_exact 3 2 2 (fun _ => cbrt_half) eq_refl); try lia.
  - intros; apply cbrt_half_pos.
  - intros; now apply Q_exact_mass.
Qed.

Lemma col_order_exact : col_order_of (__init__ 2 false None) Q_exact = inr [0; 1].
Proof.
  unfold col_order_of.
  assert (Hdiv : forall x, (x * cbrt_half / cbrt_half = x)%R).
  { intros x. field. apply Rgt_not_eq, cbrt_half_pos. }
  assert (Hrows : argmax_axis2 (cps_na_of (__init__ 2 false None) (cps_of Q_exact))
                  = inr [[0; 1]; [0; 1]; [0; 1]]).
  { unfold cps_na_of. cbn [k k_lf __init__ Nat.ltb Nat.leb].
    unfold argmax_axis2. rewrite (@cps_shape Q_exact 3 2 2 eq_refl).
    cbn [Nat.eqb seq mapM map bind ret].
    rewrite !Q_exact_cps by lia. rewrite !argmax_pair.
    unfold Q_exact, of_rows3. cbn [item repeat nth]. rewrite !Hdiv.
    repeat (destruct (Rlt_dec _ _); try lra). reflexivity. }
  rewrite Hrows. reflexivity.
Qed.

Lemma fitted_exact :
  fitted_Q (fun _ => item Q_exact) lbfgs_no_update (__init__ 2 false None) O_exact 1 1000 3
  = Q_exact.
Proof. reflexivity. Qed.

(** A call on the overlaps tensor that [Q_exact] reconstructs, the random
    draw being [Q_exact] itself: the loss is 0 there and the optimiser makes
    no update; the call completes with column order (0, 1). *)
Lemma train_exact :
  train_model (fun _ => item Q_exact) lbfgs_no_update (__init__ 2 false None)
              None (Some O_exact) 1 1000 false
  = (fit_state (__init__ 2 false None) 3 Q_exact [0; 1], inr tt).
Proof.
  pose proof (@train_model_run (fun _ => item Q_exact) lbfgs_no_update
                (__init__ 2 false None) None O_exact 1 1000 false 3 [3; 3; 2; 2; 2] [0; 1]
                (gather (p_y_of Q_exact) [0; 1]) (gather (cps_of Q_exact) [0; 1])
                eq_refl) as H.
  rewrite fitted_exact in H. apply H.
  - exact col_order_exact.
  - apply take_in_range. unfold dim.
    rewrite (@p_y_shape Q_exact 3 2 2 eq_refl). repeat constructor.
  - apply take_in_range. unfold dim.
    rewrite (@cps_shape Q_exact 3 2 2 eq_refl). repeat constructor.
Qed.

End ExactRun.

Section NearRun.

Lemma Q_near_mass (i y : nat) :
  i < 3 -> y < 2 -> column_mass Q_near 2 i y = (7937 / 10000)%R.
Proof.
  intros Hi Hy. unfold column_mass, Q_near, of_rows3.
  destruct i as [|[|[|i]]]; [| | |lia];
    (destruct y as [|[|y]]; [| |lia]); cbn; lra.
Qed.

Lemma Q_near_p_y (y : nat) :
  y < 2 -> item (p_y_of Q_near) [y] = ((7937 / 10000) ^ 3)%R.
Proof.
  intros Hy.
  apply (@balanced_p_y Q_near 3 2 2 (fun _ => (7937 / 10000)%R) eq_refl);
    try lia.
  intros; now apply Q_near_mass.
Qed.

Lemma Q_near_cps (i v y : nat) :
  y < 2 ->
  item (cps_of Q_near) [i; v; y] = (item Q_near [i; v; y] / (7937 / 10000))%R.
Proof.
  intros Hy.
  apply (@balanced_cps Q_near 3 2 2 (fun _ => (7937 / 10000)%R) eq_refl); try lia.
  - intros; lra.
  - intros; now apply Q_near_mass.
Qed.

Lemma col_order_near : col_order_of (__init__ 2 false None) Q_near = inr [0; 1].
Proof.
  unfold col_order_of.
  assert (Hrows : argmax_axis2 (cps_na_of (__init__ 2 false None) (cps_of Q_near))
                  = inr [[0; 1]; [0; 1]; [0; 1]]).
  { unfold cps_na_of. cbn [k k_lf __init__ Nat.ltb Nat.leb].
    unfold argmax_axis2. rewrite (@cps_shape Q_near 3 2 2 eq_refl).
    cbn [Nat.eqb seq mapM map bind ret].
    rewrite !Q_near_cps by lia. rewrite !argmax_pair.
    unfold Q_near, of_rows3. cbn [item repeat nth].
    repeat (destruct (Rlt_dec _ _); try lra). reflexivity. }
  rewrite Hrows. reflexivity.
Qed.

(** A call on the overlaps tensor that [Q_near] reconstructs, the random
    draw being [Q_near] itself: the loss is 0 there and the optimiser makes
    no update; the call completes with column order (0, 1). *)
Lemma train_near :
  train_model (fun _ => item Q_near) lbfgs_no_update (__init__ 2 false None)
              None (Some O_near) 1 1000 false
  = (fit_state (__init__ 2 false None) 3 Q_near [0; 1], inr tt).
Proof.
  apply (@train_model_run (fun _ => item Q_near) lbfgs_no_update
           (__init__ 2 false None) None O_near 1 1000 false 3 [3; 3; 2; 2; 2] [0; 1]
           (gather (p_y_of Q_near) [0; 1]) (gather (cps_of Q_near) [0; 1])
           eq_refl).
  - exact col_order_near.
  - apply take_in_range. repeat constructor.
  - apply take_in_range. repeat constructor.
Qed.

End NearRun.

Lemma train_model_fit_bounds_witness :
  shape (gather (p_y_of Q_near) [0; 1]) = [2] /\
  (forall j, j < 2 -> (0 <= item (gather (p_y_of Q_near) [0%nat; 1%nat]) [j] <= 1)%R) /\
  within_tol (Rsum (seq 0 2) (fun j => item (gather (p_y_of Q_near) [0%nat; 1%nat]) [j])) /\
  (forall i y, i < 3 -> y < 2 -> within_tol (column_mass (cps_of Q_near) 2 i y)).
Proof.
  destruct (@train_model_fit_bounds (fun _ => item Q_near) lbfgs_no_update
              (__init__ 2 false None) (fit_state (__init__ 2 false None) 3 Q_near [0; 1])
              None (Some O_near) 1%R 1000 false Q_near
              (gather (p_y_of Q_near) [0; 1])
              (wf_init 2 false None) train_near eq_refl eq_refl)
    as [Hshape [Hunit [Hsum Hslice]]].
  split; [exact Hshape|]. split; [|split].
  - apply Hunit. intros i y Hi Hy.
    change (dim Q_near 0) with 3 in Hi. change (k (__init__ 2 false None)) with 2 in Hy.
    change (k_lf (__init__ 2 false None)) with 2.
    rewrite (Q_near_mass Hi Hy). lra.
  - apply (Hsum [0; 1] col_order_near (Permutation_refl _)).
    intros i Hi. change (dim Q_near 0) with 3 in Hi.
    unfold within_tol.
    cbn [k k_lf __init__ seq Rsum fold_right].
    rewrite !(Q_near_mass Hi) by lia.
    unfold Rabs. destruct (Rcase_abs _); lra.
  - intros i y Hi Hy.
    assert (Hp : (0 < item (p_y_of Q_near) [y])%R).
    { rewrite (Q_near_p_y Hy). apply pow_lt. lra. }
    apply (Hslice i y Hi Hy Hp).
    change (k_lf (__init__ 2 false None)) with 2.
    rewrite (Q_near_mass Hi Hy), (Q_near_p_y Hy).
    rewrite Rpower_cube_root by lra.
    unfold Rabs. destruct (Rcase_abs _); lra.
Defined.

Section UnevenRun.

Lemma Q_uneven_p_y (y : nat) : y < 2 -> item (p_y_of Q_uneven) [y] = (11 / 4)%R.
Proof.
  intros Hy. rewrite (@p_y_item Q_uneven 3 3 2 eq_refl).
  unfold column_mass, Q_uneven, of_rows3.
  destruct y as [|[|y]]; [| |lia]; cbn; field.
Qed.

Lemma Q_uneven_cps (i v y : nat) :
  y < 2 ->
  item (cps_of Q_uneven) [i; v; y] =
  (item Q_uneven [i; v; y] / Rpower (11 / 4) (1 / 3))%R.
Proof.
  intros Hy. rewrite (@cps_item Q_uneven 3 3 2 eq_refl i v y Hy).
  now rewrite (Q_uneven_p_y Hy).
Qed.

Lemma col_order_uneven : col_order_of (__init__ 2 true None) Q_uneven = inr [0; 1].
Proof.
  unfold col_order_of.
  assert (Hrows : argmax_axis2 (cps_na_of (__init__ 2 true None) (cps_of Q_uneven))
                  = inr [[0; 1]; [0; 1]; [0; 1]]).
  { unfold cps_na_of. cbn [k k_lf __init__ Nat.ltb Nat.leb Nat.add].
    unfold argmax_axis2, drop_first_axis1. cbn [shape].
    rewrite (@cps_shape Q_uneven 3 3 2 eq_refl).
    cbn [Nat.sub Nat.eqb seq mapM map bind ret item].
    rewrite !Q_uneven_cps by lia. rewrite !argmax_pair.
    unfold Q_uneven, of_rows3. cbn [item nth].
    assert (Ht : (0 < / Rpower (11 / 4) (1 / 3))%R).
    { apply Rinv_0_lt_compat. unfold Rpower. apply exp_pos. }
    revert Ht. generalize (Rpower (11 / 4) (1 / 3)). intros c Ht.
    unfold Rdiv. revert Ht. generalize (/ c)%R. intros t Ht.
    repeat (destruct (Rlt_dec _ _); try lra). reflexivity. }
  rewrite Hrows. reflexivity.
Qed.

(** A call on three sources with [max_iter = 0], the random draw being
    [Q_uneven]: the call completes, with column order (0, 1). *)
Lemma train_uneven :
  train_model (fun _ => item Q_uneven) lbfgs_no_update (__init__ 2 true None)
              None (Some O_zeros) 1 0 false
  = (fit_state (__init__ 2 true None) 3 Q_uneven [0; 1], inr tt).
Proof.
  apply (@train_model_run (fun _ => item Q_uneven) lbfgs_no_update
           (__init__ 2 true None) None O_zeros 1 0 false 3 [3; 3; 3; 3; 3] [0; 1]
           (gather (p_y_of Q_uneven) [0; 1]) (gather (cps_of Q_uneven) [0; 1])
           eq_refl).
  - exact col_order_uneven.
  - apply take_in_range. repeat constructor.
  - apply take_in_range. repeat constructor.
Qed.

End UnevenRun.

(** C1 as stated fails in each of its three guarantees.  With
    [max_iter = 0] and the draw [Q_uneven] the call completes with the
    column order (0, 1), a permutation, and stores the class balance
    (11/4, 11/4): an entry above 1 and a sum of 11/2.  The stored
    [cond_probs[0, :, 0]], the slice of source 0 for class 0, sums to
    (1/2) / (11/4)^(1/3), about 0.357. *)
Lemma fit_guarantees_counterexample :
  exists self' cb cp,
    train_model (fun _ => item Q_uneven) lbfgs_no_update (__init__ 2 true None)
                None (Some O_zeros) 1 0 false = (self', inr tt) /\
    class_balance self' = Some cb /\
    cond_probs self' = Some cp /\
    (1 < item cb [0%nat])%R /\
    ~ within_tol (Rsum (seq 0 2) (fun y => item cb [y])) /\
    ~ within_tol (column_mass cp 3 0 0) /\
    ~ fit_guarantees self' 3.
Proof.
  exists (fit_state (__init__ 2 true None) 3 Q_uneven [0; 1]),
         (gather (p_y_of Q_uneven) [0; 1]), (gather (cps_of Q_uneven) [0; 1]).
  split; [exact train_uneven|].
  split; [reflexivity|]. split; [reflexivity|].
  assert (Hentry : (1 < item (gather (p_y_of Q_uneven) [0%nat; 1%nat]) [0%nat])%R).
  { cbn [gather item nth]. rewrite Q_uneven_p_y by lia. lra. }
  split; [exact Hentry|]. split; [|split].
  - unfold within_tol. cbn [seq Rsum fold_right gather item nth].
    rewrite !Q_uneven_p_y by lia.
    unfold Rabs. destruct (Rcase_abs _); lra.
  - unfold within_tol, column_mass. cbn [seq Rsum fold_right gather item nth].
    rewrite !Q_uneven_cps by lia.
    unfold Q_uneven, of_rows3. cbn [item nth].
    destruct (@Rpower_third_cube (11 / 4)%R ltac:(lra)) as [Hc Hcube].
    assert (Hct : (Rpower (11 / 4) (1 / 3) * / Rpower (11 / 4) (1 / 3) = 1)%R)
      by (apply Rinv_r; lra).
    revert Hc Hcube Hct. generalize (Rpower (11 / 4) (1 / 3)).
    intros c Hc Hcube Hct. unfold Rdiv. revert Hct. generalize (/ c)%R.
    intros t Hct Htol.
    assert (Ht : (19998 / 10000 <= t)%R).
    { revert Htol. unfold Rabs. destruct (Rcase_abs _); intros; lra. }
    assert (Hc1 : (c <= 6 / 10)%R) by nra.
    assert (Hc2 : (c * c <= 1)%R) by nra.
    assert (Hc3 : (c ^ 3 <= 1)%R) by (simpl; nra).
    lra.
  - intros [cb [cp [Hcb [_ [_ [Hunit _]]]]]].
    cbn in Hcb. injection Hcb as <-.
    specialize (Hunit 0 ltac:(cbn; lia)). lra.
Qed.

(** Line 139 indexes the first axis of [cps] by the column order: after a
    completed call [cond_probs] has one block per entry of the column order,
    the block of the source of that number. *)
Lemma train_model_cond_probs_axis0
      (torch_rand : list nat -> list nat -> R)
      (lbfgs_step : R -> nat -> (ndarray R -> R) -> ndarray R -> list nat -> R)
      (self self' : ClassBalanceModel) (L : option (ndarray Z))
      (O_ : option (ndarray R)) (lr : R) (max_iter : nat) (verbose : bool) :
  wf self ->
  train_model torch_rand lbfgs_step self L O_ lr max_iter verbose = (self', inr tt) ->
  exists q col_order cp,
    attr_Q self' = Some q /\
    col_order_of self q = inr col_order /\
    cond_probs self' = Some cp /\
    shape cp = [k self; k_lf self; k self] /\
    Forall (fun j => j < dim q 0) col_order /\
    forall j v y, item cp [j; v; y] = item (cps_of q) [nth j col_order 0; v; y].
Proof.
  intros Hwf Hrun.
  destruct (train_model_inv _ _ _ _ _ _ _ _ Hrun)
    as [O' [m [s [c [cb [cp [HO [Hc [Hcb [Hcp ->]]]]]]]]]].
  set (q := fitted_Q torch_rand lbfgs_step self O' lr max_iter m) in *.
  assert (Hq : shape q = [m; k_lf self; k self]) by reflexivity.
  destruct (@col_order_shape self q m c Hwf Hq Hc) as [_ [Hlen _]].
  destruct (take_result _ _ Hcp) as [-> Hrange].
  exists q, c, (gather (cps_of q) c).
  repeat (split; [reflexivity || assumption|]).
  split; [|split; [|reflexivity]].
  - unfold gather. cbn [shape].
    rewrite (@cps_shape q m (k_lf self) (k self) Hq), Hlen. reflexivity.
  - unfold dim in *. rewrite (@cps_shape q m (k_lf self) (k self) Hq) in Hrange.
    rewrite Hq. exact Hrange.
Qed.

(** * Further properties of the code *)

(** ** More on the overlaps tensor *)

Section OverlapsMore.

Variable self : ClassBalanceModel.
Variable L : ndarray Z.

Local Abbreviation LY := (indicator_tensor self L).

Lemma indicator_idempotent (a b c : nat) :
  (item LY [a; b; c] * item LY [a; b; c] = item LY [a; b; c])%Z.
Proof.
  pose proof (indicator_01 self L a b c) as H.
  assert (E : item LY [a; b; c] = 0%Z \/ item LY [a; b; c] = 1%Z) by lia.
  destruct E as [-> | ->]; reflexivity.
Qed.

Lemma indicator_exclusive (a a' b c : nat) :
  a <> a' -> (item LY [a; b; c] * item LY [a'; b; c] = 0)%Z.
Proof.
  intros Hne. rewrite !indicator_item.
  destruct (a <? _); [|reflexivity].
  destruct (a' <? _); [|now rewrite Z.mul_0_r].
  destruct (Z.eqb_spec (item L [b; c]) (Z.of_nat (k_0 self + a))) as [E|_];
    [|reflexivity].
  destruct (Z.eqb_spec (item L [b; c]) (Z.of_nat (k_0 self + a'))) as [E'|_];
    [|reflexivity].
  lia.
Qed.

Lemma Zsum_indicator_filter (p : nat -> bool) (l : list nat) :
  Zsum l (fun e => if p e then 1%Z else 0%Z) = Z.of_nat (length (filter p l)).
Proof.
  induction l as [|x l IH]; [reflexivity|].
  cbn [Zsum fold_right filter]. change (fold_right _ _ l) with
    (Zsum l (fun e => if p e then 1%Z else 0%Z)).
  rewrite IH. destruct (p x); cbn [length]; lia.
Qed.

(** The indicators of one cell, summed over the emitted values, say whether
    the label of the cell is in range. *)
Lemma indicator_sum_in_range (b c : nat) :
  wf self ->
  Zsum (seq 0 (k_lf self)) (fun a => item LY [a; b; c]) =
  if in_label_range self (item L [b; c]) then 1%Z else 0%Z.
Proof.
  intros Hwf. pose proof (wf_value_count Hwf) as HK.
  rewrite (Zsum_ext _ _
             (fun a => if Z.eqb (item L [b; c]) (Z.of_nat (k_0 self + a))
                       then 1%Z else 0%Z)).
  2:{ intros a Ha. apply in_seq in Ha. rewrite indicator_item, HK.
      destruct (Nat.ltb_spec a (k_lf self)); [reflexivity | lia]. }
  rewrite indicator_sum_range. unfold in_label_range.
  destruct Hwf as [H0 Hlf]. rewrite H0, Hlf.
  destruct (abstains self);
    destruct (Z.leb_spec (Z.of_nat 0) (item L [b; c]));
    destruct (Z.leb_spec (Z.of_nat 1) (item L [b; c]));
    destruct (Z.leb_spec (item L [b; c]) (Z.of_nat (k self)));
    destruct (Z.ltb_spec (item L [b; c]) (Z.of_nat (0 + (k self + 1))));
    destruct (Z.ltb_spec (item L [b; c]) (Z.of_nat (1 + k self)));
    cbn [andb]; lia.
Qed.

End OverlapsMore.

(** X1: a source emits one value per example, so for a label matrix with
    at least one row the overlap of a source with itself on two different
    values is 0: [O[i, i, l, a, b, c] = 0] whenever [a <> b].  (With no row
    the entry is 0 / 0.) *)
Theorem overlaps_same_source_two_values
        (self : ClassBalanceModel) (L : ndarray Z) (O_ : ndarray R)
        (n m i l a b c : nat) :
  shape L = [n; m] -> 1 <= n ->
  _get_overlaps_tensor self L = inr O_ -> a <> b ->
  item O_ [i; i; l; a; b; c] = 0%R.
Proof.
  intros HL Hn Hret Hne. unfold _get_overlaps_tensor in Hret.
  rewrite HL in Hret.
  injection Hret as <-.
  unfold true_divide, einsum_abc_dbe_fbg_cegadf. cbn [item].
  rewrite (Zsum_ext _ _ (fun _ => 0%Z)).
  - rewrite Zsum_zero. unfold Rdiv. apply Rmult_0_l.
  - intros e _. now rewrite (indicator_exclusive self L e i Hne).
Qed.

Lemma overlaps_same_source_two_values_witness :
  exists O_,
    _get_overlaps_tensor (__init__ 2 true None) L_two_rows = inr O_ /\
    item O_ [0; 0; 2; 1; 2; 0] = 0%R.
Proof.
  eexists; split; [reflexivity|].
  apply (@overlaps_same_source_two_values (__init__ 2 true None) L_two_rows _
           2 3 0 2 1 2 0 eq_refl); [lia | reflexivity | discriminate].
Defined.

(** X2: repeating a (source, value) pair does not change an entry:
    [O[i, i, l, a, a, c] = O[i, l, l, a, c, c]], both being the rate at which
    source i emits a together with source l emitting c. *)
Theorem overlaps_repeated_pair
        (self : ClassBalanceModel) (L : ndarray Z) (O_ : ndarray R)
        (i l a c : nat) :
  _get_overlaps_tensor self L = inr O_ ->
  item O_ [i; i; l; a; a; c] = item O_ [i; l; l; a; c; c].
Proof.
  intros Hret. unfold _get_overlaps_tensor in Hret.
  destruct (shape L) as [|n [|m [|? ?]]]; try discriminate.
  injection Hret as <-.
  unfold true_divide, einsum_abc_dbe_fbg_cegadf. cbn [item].
  f_equal. f_equal. apply Zsum_ext. intros e _.
  rewrite (indicator_idempotent self L a e i).
  rewrite <- Z.mul_assoc, (indicator_idempotent self L c e l). reflexivity.
Qed.

Lemma overlaps_repeated_pair_witness :
  exists O_,
    _get_overlaps_tensor (__init__ 2 true None) L_two_rows = inr O_ /\
    item O_ [0; 0; 2; 1; 1; 2] = item O_ [0; 2; 2; 1; 2; 2].
Proof.
  eexists; split; [reflexivity|].
  apply (@overlaps_repeated_pair (__init__ 2 true None) L_two_rows _ 0 2 1 2 eq_refl).
Defined.

Section OverlapsMass.

Variable self : ClassBalanceModel.
Variable L : ndarray Z.
Variables n m : nat.
Hypothesis Hwf : wf self.
Hypothesis HL : shape L = [n; m].

Local Abbreviation LY := (indicator_tensor self L).

(** Without emitted values there is no label of the range. *)
Lemma no_values_no_label (x : Z) : k_lf self = 0 -> in_label_range self x = false.
Proof.
  intros Hz. destruct Hwf as [H0 Hlf]. unfold in_label_range. rewrite H0.
  destruct (abstains self); [lia|].
  rewrite Hlf in Hz. rewrite Hz.
  destruct (Z.leb_spec (Z.of_nat 1) x), (Z.leb_spec x (Z.of_nat 0));
    cbn [andb]; try reflexivity; lia.
Qed.

Lemma indicator_dim1_values : 1 <= k_lf self -> dim LY 1 = n.
Proof.
  intros Hlf. apply (proj2 (@indicator_dim1 self L n m HL)).
  rewrite (wf_value_count Hwf). exact Hlf.
Qed.

(** The counts of a source triple, summed over all value triples, count the
    examples whose three labels are all in range. *)
Lemma overlap_count_in_range (i j l : nat) :
  Zsum (seq 0 (k_lf self)) (fun a => Zsum (seq 0 (k_lf self)) (fun b =>
    Zsum (seq 0 (k_lf self)) (fun c => overlap_count self L [i; j; l; a; b; c]))) =
  Z.of_nat (rows_in_range self L n [i; j; l]).
Proof.
  destruct (Nat.eq_dec (k_lf self) 0) as [Hz|Hnz].
  - rewrite Hz. cbn [seq Zsum fold_right]. unfold rows_in_range.
    rewrite (filter_ext_in _ (fun _ => false)).
    + now rewrite filter_false.
    + intros e _. cbn [forallb]. now rewrite no_values_no_label.
  - unfold overlap_count, einsum_abc_dbe_fbg_cegadf. cbn [item].
    rewrite indicator_dim1_values by lia.
    rewrite (Zsum_prod3 (seq 0 (k_lf self)) (seq 0 (k_lf self)) (seq 0 (k_lf self))
               (seq 0 n)
               (fun a b => item LY [a; b; i]) (fun d b => item LY [d; b; j])
               (fun f b => item LY [f; b; l])).
    unfold rows_in_range. rewrite <- Zsum_indicator_filter.
    apply Zsum_ext. intros e _.
    rewrite !(@indicator_sum_in_range self L _ _ Hwf). cbn [forallb].
    destruct (in_label_range self (item L [e; i])),
             (in_label_range self (item L [e; j])),
             (in_label_range self (item L [e; l])); reflexivity.
Qed.

End OverlapsMass.

(** X3: labels outside {k_0, ..., k} are dropped without notice.  For any
    n x m integer matrix with n >= 1, the entries of a source triple sum,
    over all value triples, to the fraction of examples whose three labels
    are all in range; the sum is at most 1 and is below 1 as soon as one
    example carries a stray label. *)
Theorem overlaps_mass_in_range
        (self : ClassBalanceModel) (L : ndarray Z) (O_ : ndarray R)
        (n m i j l : nat) :
  wf self -> shape L = [n; m] -> 1 <= n ->
  _get_overlaps_tensor self L = inr O_ ->
  value_mass O_ (k_lf self) i j l =
    (INR (rows_in_range self L n [i; j; l]) / INR n)%R /\
  (value_mass O_ (k_lf self) i j l <= 1)%R.
Proof.
  intros Hwf HL Hn Hret.
  assert (Hmass : value_mass O_ (k_lf self) i j l =
                  (INR (rows_in_range self L n [i; j; l]) / INR n)%R).
  { unfold _get_overlaps_tensor in Hret. rewrite HL in Hret. injection Hret as <-.
    unfold value_mass, true_divide. cbn [item].
    rewrite (Rsum_ext _ _ (fun a => (IZR (Zsum (seq 0 (k_lf self)) (fun b =>
               Zsum (seq 0 (k_lf self)) (fun c =>
                 overlap_count self L [i; j; l; a; b; c]))) / INR n)%R)).
    2:{ intros a _. rewrite <- Rsum_IZR_div. apply Rsum_ext; intros b _.
        rewrite <- Rsum_IZR_div. reflexivity. }
    rewrite Rsum_IZR_div, (@overlap_count_in_range self L n m Hwf HL).
    now rewrite <- INR_IZR_INZ. }
  split; [exact Hmass|]. rewrite Hmass.
  assert (Hn0 : (0 < INR n)%R) by (apply lt_0_INR; lia).
  apply Rmult_le_reg_r with (INR n); [exact Hn0|].
  unfold Rdiv. rewrite Rmult_assoc, Rinv_l, Rmult_1_r, Rmult_1_l by lra.
  apply le_INR. unfold rows_in_range.
  pose proof (filter_length_le
                (fun e => forallb (fun c => in_label_range self (item L [e; c])) [i; j; l])
                (seq 0 n)) as Hle.
  now rewrite length_seq in Hle.
Qed.

Lemma overlaps_mass_in_range_witness :
  exists O_,
    _get_overlaps_tensor (__init__ 2 true None) L_stray_label = inr O_ /\
    value_mass O_ 3 0 1 2 = (1 / 2)%R.
Proof.
  eexists; split; [reflexivity|].
  etransitivity.
  - apply (proj1 (@overlaps_mass_in_range (__init__ 2 true None) L_stray_label _
                    2 3 0 1 2 (wf_init 2 true None) eq_refl
                    (le_n_S 0 1 (le_0_n 1)) eq_refl)).
  - cbn. lra.
Defined.

(** X4: for a label matrix with every entry in range, summing an entry over
    the value of the third source leaves the overlap of the first two
    (source, value) pairs, which is the entry with the second pair repeated:
    [sum_c O[i, j, l, a, b, c] = O[i, j, j, a, b, b]], whatever the third
    source l is. *)
Theorem overlaps_marginal
        (self : ClassBalanceModel) (L : ndarray Z) (O_ : ndarray R)
        (n m i j l a b : nat) :
  wf self -> valid_labels self L n m -> l < m ->
  _get_overlaps_tensor self L = inr O_ ->
  Rsum (seq 0 (k_lf self)) (fun c => item O_ [i; j; l; a; b; c]) =
  item O_ [i; j; j; a; b; b].
Proof.
  intros Hwf Hv Hl Hret. pose proof (proj1 Hv) as HL.
  unfold _get_overlaps_tensor in Hret. rewrite HL in Hret. injection Hret as <-.
  unfold true_divide, einsum_abc_dbe_fbg_cegadf. cbn [item].
  rewrite Rsum_IZR_div. f_equal. f_equal.
  rewrite Zsum_swap. apply Zsum_ext. intros e He. apply in_seq in He.
  destruct (@indicator_dim1 self L n m HL) as [Hle _].
  rewrite (Zsum_mul_l (seq 0 (k_lf self))
             (item (indicator_tensor self L) [a; e; i] *
              item (indicator_tensor self L) [b; e; j])
             (fun c => item (indicator_tensor self L) [c; e; l])).
  rewrite <- (wf_value_count Hwf).
  rewrite (@indicator_sum self L n m e l Hv) by lia.
  rewrite Z.mul_1_r, <- Z.mul_assoc, (indicator_idempotent self L b e j).
  reflexivity.
Qed.

Lemma overlaps_marginal_witness :
  exists O_,
    _get_overlaps_tensor (__init__ 2 true None) L_two_rows = inr O_ /\
    Rsum (seq 0 3) (fun c => item O_ [0; 1; 2; 1; 0; c]) = item O_ [0; 1; 1; 1; 0; 0].
Proof.
  eexists; split; [reflexivity|].
  apply (@overlaps_marginal (__init__ 2 true None) L_two_rows _ 2 3 0 1 2 1 0
           (wf_init 2 true None) valid_labels_two_rows);
    [lia | reflexivity].
Defined.

(** ** More on the mask and the loss *)

Section LossMore.

Lemma Rsum_nonneg (l : list nat) (f : nat -> R) :
  (forall i, In i l -> (0 <= f i)%R) -> (0 <= Rsum l f)%R.
Proof.
  induction l as [|x l IH]; intros H; [simpl; lra|].
  cbn [Rsum fold_right]. change (fold_right _ _ l) with (Rsum l f).
  assert (0 <= f x)%R by (apply H; now left).
  assert (0 <= Rsum l f)%R by (apply IH; intros i Hi; apply H; now right).
  lra.
Qed.

Lemma Rsum_zero_inv (l : list nat) (f : nat -> R) :
  (forall i, In i l -> (0 <= f i)%R) -> Rsum l f = 0%R ->
  forall i, In i l -> f i = 0%R.
Proof.
  induction l as [|x l IH]; intros Hpos Hsum i Hi; [contradiction|].
  cbn [Rsum fold_right] in Hsum. change (fold_right _ _ l) with (Rsum l f) in Hsum.
  assert (Hx : (0 <= f x)%R) by (apply Hpos; now left).
  assert (Hl : (0 <= Rsum l f)%R)
    by (apply Rsum_nonneg; intros j Hj; apply Hpos; now right).
  destruct Hi as [<-|Hi]; [lra|].
  apply IH; [intros j Hj; apply Hpos; now right | lra | exact Hi].
Qed.

(** The loss as a sum over all entries, the masked-out ones counting 0. *)
Lemma get_loss_masked_sum (O_ Q : ndarray R) (mask : ndarray Z) (m kl kk : nat) :
  shape mask = [m; m; m; kl; kl; kl] ->
  shape Q = [m; kl; kk] ->
  get_loss O_ Q mask = masked_squared_residuals O_ Q mask m kl kk.
Proof.
  intros Hmask HQ. unfold get_loss, norm, masked_select.
  rewrite pow2_sqrt by apply Rsum_list_squares_nonneg.
  rewrite map_map, Rsum_list_filter, Hmask, Rsum_list_indices6.
  unfold masked_squared_residuals.
  do 6 (apply Rsum_ext; intros ? _).
  destruct (negb _); [|reflexivity].
  unfold sub, einsum_aby_cdy_efy_acebdf, reconstructed, dim. cbn [item].
  rewrite HQ. cbn [nth]. ring.
Qed.

Lemma masked_term_nonneg (mask : ndarray Z) (idx : list nat) (x : R) :
  (0 <= (if negb (Z.eqb (item mask idx) 0) then x ^ 2 else 0))%R.
Proof. destruct (negb _); [apply pow2_ge_0 | lra]. Qed.

End LossMore.

(** X5: with fewer than three sources no source triple is pairwise
    distinct, the mask of [get_mask] is 0 everywhere, and the loss is 0 for
    every O and every Q: there is nothing to fit. *)
Theorem get_loss_few_sources
        (self : ClassBalanceModel) (O_ Q : ndarray R) (m kk : nat) :
  m <= 2 -> shape Q = [m; k_lf self; kk] ->
  get_loss O_ Q (get_mask self m) = 0%R.
Proof.
  intros Hm HQ.
  rewrite (@get_loss_masked_sum O_ Q (get_mask self m) m (k_lf self) kk
             (get_mask_shape self m) HQ).
  unfold masked_squared_residuals.
  apply Rsum_zero; intros i Hi. apply Rsum_zero; intros j Hj.
  apply Rsum_zero; intros l Hl. apply Rsum_zero; intros a _.
  apply Rsum_zero; intros b _. apply Rsum_zero; intros c _.
  apply in_seq in Hi, Hj, Hl.
  rewrite (@get_mask_item self m i j l a b c) by lia.
  destruct (Nat.eqb_spec i j), (Nat.eqb_spec i l), (Nat.eqb_spec j l);
    try reflexivity; lia.
Qed.

Lemma get_loss_few_sources_witness :
  get_loss (O_uniform 2 2) Q_tied (get_mask (__init__ 2 false None) 2) = 0%R.
Proof.
  apply (@get_loss_few_sources (__init__ 2 false None) (O_uniform 2 2) Q_tied 2 2).
  - lia.
  - reflexivity.
Defined.

Lemma Rsum_zero_term (n : nat) (f : nat -> R) (x : nat) :
  (forall i, In i (seq 0 n) -> (0 <= f i)%R) -> Rsum (seq 0 n) f = 0%R ->
  x < n -> f x = 0%R.
Proof.
  intros Hpos Hz Hx. apply (Rsum_zero_inv _ _ Hpos Hz). apply in_seq. lia.
Qed.

(** X6: the loss is never negative, and it is 0 exactly when [O] agrees with
    the reconstruction from [Q] at every entry where the mask is true. *)
Theorem get_loss_zero_iff (O_ Q : ndarray R) (mask : ndarray Z) (m kl kk : nat) :
  shape mask = [m; m; m; kl; kl; kl] ->
  shape Q = [m; kl; kk] ->
  (0 <= get_loss O_ Q mask)%R /\
  (get_loss O_ Q mask = 0%R <->
   forall i j l a b c,
     i < m -> j < m -> l < m -> a < kl -> b < kl -> c < kl ->
     item mask [i; j; l; a; b; c] <> 0%Z ->
     item O_ [i; j; l; a; b; c] = reconstructed Q kk i j l a b c).
Proof.
  intros Hmask HQ. split.
  - unfold get_loss. apply pow2_ge_0.
  - rewrite (@get_loss_masked_sum O_ Q mask m kl kk Hmask HQ).
    unfold masked_squared_residuals. split.
    + intros Hz i j l a b c Hi Hj Hl Ha Hb Hc Hm.
      apply Rsum_zero_term with (x := i) in Hz; [|
        intros; repeat (apply Rsum_nonneg; intros); apply masked_term_nonneg | exact Hi].
      apply Rsum_zero_term with (x := j) in Hz; [|
        intros; repeat (apply Rsum_nonneg; intros); apply masked_term_nonneg | exact Hj].
      apply Rsum_zero_term with (x := l) in Hz; [|
        intros; repeat (apply Rsum_nonneg; intros); apply masked_term_nonneg | exact Hl].
      apply Rsum_zero_term with (x := a) in Hz; [|
        intros; repeat (apply Rsum_nonneg; intros); apply masked_term_nonneg | exact Ha].
      apply Rsum_zero_term with (x := b) in Hz; [|
        intros; repeat (apply Rsum_nonneg; intros); apply masked_term_nonneg | exact Hb].
      apply Rsum_zero_term with (x := c) in Hz; [|
        intros; apply masked_term_nonneg | exact Hc].
      destruct (Z.eqb_spec (item mask [i; j; l; a; b; c]) 0) as [E|_];
        [contradiction|]. cbn [negb] in Hz.
      assert (Hsq : (item O_ [i; j; l; a; b; c] - reconstructed Q kk i j l a b c = 0)%R).
      { apply Rsqr_0_uniq. unfold Rsqr. rewrite <- Hz. ring. }
      lra.
    + intros Hall.
      apply Rsum_zero; intros i Hi. apply Rsum_zero; intros j Hj.
      apply Rsum_zero; intros l Hl. apply Rsum_zero; intros a Ha.
      apply Rsum_zero; intros b Hb. apply Rsum_zero; intros c Hc.
      apply in_seq in Hi, Hj, Hl, Ha, Hb, Hc.
      destruct (Z.eqb_spec (item mask [i; j; l; a; b; c]) 0) as [E|Hne];
        [reflexivity|]. cbn [negb].
      rewrite (Hall i j l a b c) by (assumption || lia). ring.
Qed.

Lemma get_loss_zero_iff_witness :
  (0 <= get_loss (O_uniform 3 2) Q_exact (get_mask (__init__ 2 false None) 3))%R.
Proof.
  apply (@get_loss_zero_iff (O_uniform 3 2) Q_exact
           (get_mask (__init__ 2 false None) 3) 3 2 2
           (get_mask_shape (__init__ 2 false None) 3) eq_refl).
Defined.

(** X7: a tensor that is exactly the rank-k reconstruction of a factor has
    loss 0 at that factor, whatever the mask: [get_loss(einsum(Q, Q, Q), Q,
    mask) = 0]. *)
Theorem get_loss_exact_reconstruction
        (Q : ndarray R) (mask : ndarray Z) (m kl kk : nat) :
  shape mask = [m; m; m; kl; kl; kl] ->
  shape Q = [m; kl; kk] ->
  get_loss (einsum_aby_cdy_efy_acebdf Q Q Q) Q mask = 0%R.
Proof.
  intros Hmask HQ.
  rewrite (@get_loss_masked_sum _ Q mask m kl kk Hmask HQ).
  unfold masked_squared_residuals.
  do 6 (apply Rsum_zero; intros ? _).
  destruct (negb _); [|reflexivity].
  unfold einsum_aby_cdy_efy_acebdf, reconstructed, dim. cbn [item].
  rewrite HQ. cbn [nth]. ring.
Qed.

Lemma get_loss_exact_reconstruction_witness :
  get_loss O_exact Q_exact (get_mask (__init__ 2 false None) 3) = 0%R.
Proof.
  apply (@get_loss_exact_reconstruction Q_exact
           (get_mask (__init__ 2 false None) 3) 3 2 2
           (get_mask_shape (__init__ 2 false None) 3) eq_refl).
Defined.

(** ** The column symmetry of the factorisation *)

Lemma take_columns_shape (Q : ndarray R) (m kl kk : nat) (sigma : list nat) :
  shape Q = [m; kl; kk] -> shape (take_columns Q sigma) = [m; kl; length sigma].
Proof. intros HQ. unfold take_columns. cbn [shape]. now rewrite HQ. Qed.

Lemma Rsum_reindex (sigma : list nat) (kk : nat) (f : nat -> R) :
  Permutation sigma (seq 0 kk) ->
  Rsum (seq 0 (length sigma)) (fun y => f (nth y sigma 0)) = Rsum (seq 0 kk) f.
Proof.
  intros Hperm.
  rewrite <- (Rsum_map (fun j => nth j sigma 0) (seq 0 (length sigma)) f).
  rewrite map_nth_seq_id. now apply Rsum_perm.
Qed.

(** X8: the loss does not see the order of the latent columns (the
    column-wise symmetry that the comment before the decoding lines names):
    for a permutation sigma of the k columns, [Q[:, :, sigma]] has the loss
    of [Q]. *)
Theorem get_loss_column_permutation
        (O_ Q : ndarray R) (mask : ndarray Z) (m kl kk : nat) (sigma : list nat) :
  shape mask = [m; m; m; kl; kl; kl] ->
  shape Q = [m; kl; kk] ->
  Permutation sigma (seq 0 kk) ->
  get_loss O_ (take_columns Q sigma) mask = get_loss O_ Q mask.
Proof.
  intros Hmask HQ Hperm.
  rewrite (@get_loss_masked_sum O_ (take_columns Q sigma) mask m kl (length sigma)
             Hmask (@take_columns_shape Q m kl kk sigma HQ)).
  rewrite (@get_loss_masked_sum O_ Q mask m kl kk Hmask HQ).
  unfold masked_squared_residuals.
  do 6 (apply Rsum_ext; intros ? _).
  destruct (negb _); [|reflexivity].
  do 2 f_equal. unfold reconstructed, take_columns. cbn [item].
  match goal with
  | |- Rsum _ _ = Rsum _ ?g => exact (@Rsum_reindex sigma kk g Hperm)
  end.
Qed.

Lemma get_loss_column_permutation_witness :
  get_loss (O_uniform 3 2) (take_columns Q_exact [1; 0])
           (get_mask (__init__ 2 false None) 3) =
  get_loss (O_uniform 3 2) Q_exact (get_mask (__init__ 2 false None) 3).
Proof.
  apply (@get_loss_column_permutation (O_uniform 3 2) Q_exact
           (get_mask (__init__ 2 false None) 3) 3 2 2 [1; 0]
           (get_mask_shape (__init__ 2 false None) 3) eq_refl).
  apply perm_swap.
Defined.

(** X9: decoding commutes with a reindexing of the latent columns: the
    class-balance candidate and the conditional probabilities decoded from
    [Q[:, :, sigma]] are those decoded from [Q], reindexed by sigma. *)
Theorem decode_column_reindex
        (q : ndarray R) (m kl kk : nat) (sigma : list nat) (i v y : nat) :
  shape q = [m; kl; kk] -> y < length sigma -> nth y sigma 0 < kk ->
  item (p_y_of (take_columns q sigma)) [y] = item (p_y_of q) [nth y sigma 0] /\
  item (cps_of (take_columns q sigma)) [i; v; y] =
  item (cps_of q) [i; v; nth y sigma 0].
Proof.
  intros Hq Hy Hsig.
  assert (Hp : item (p_y_of (take_columns q sigma)) [y] =
               item (p_y_of q) [nth y sigma 0]).
  { rewrite (@p_y_item _ m kl (length sigma) (@take_columns_shape q m kl kk sigma Hq)).
    rewrite (@p_y_item q m kl kk Hq). reflexivity. }
  split; [exact Hp|].
  rewrite (@cps_item _ m kl (length sigma) (@take_columns_shape q m kl kk sigma Hq) i v y Hy).
  rewrite (@cps_item q m kl kk Hq i v _ Hsig), Hp. reflexivity.
Qed.

Lemma decode_column_reindex_witness :
  item (p_y_of (take_columns Q_skewed [1; 0])) [0] = item (p_y_of Q_skewed) [1] /\
  item (cps_of (take_columns Q_skewed [1; 0])) [2; 1; 0] =
  item (cps_of Q_skewed) [2; 1; 1].
Proof.
  apply (@decode_column_reindex Q_skewed 3 3 2 [1; 0] 2 1 0 eq_refl); simpl; lia.
Defined.

(** ** Calls of train_model that fail half way *)

Section TrainFailures.

Variable torch_rand : list nat -> list nat -> R.
Variable lbfgs_step : R -> nat -> (ndarray R -> R) -> ndarray R -> list nat -> R.

Local Abbreviation train := (train_model torch_rand lbfgs_step).
Local Abbreviation fitted := (fitted_Q torch_rand lbfgs_step).



End TrainFailures.


Section SingleSource.




End SingleSource.



(** ** A fit does not depend on earlier fits *)

Section TrainOverwrites.

Variable torch_rand : list nat -> list nat -> R.
Variable lbfgs_step : R -> nat -> (ndarray R -> R) -> ndarray R -> list nat -> R.

Local Abbreviation train := (train_model torch_rand lbfgs_step).

Lemma train_model_same_parameters
      (c : option string) (kk : nat) (ab : bool) (k0 klf : nat)
      (cp1 cb1 : option (ndarray R)) (m1 : option nat)
      (mk1 : option (ndarray Z)) (Q1 : option (ndarray R))
      (cp2 cb2 : option (ndarray R)) (m2 : option nat)
      (mk2 : option (ndarray Z)) (Q2 : option (ndarray R))
      (L : option (ndarray Z)) (O_ : option (ndarray R))
      (lr : R) (max_iter : nat) (verbose : bool) (s : ClassBalanceModel) :
  train (mk_model c kk ab k0 klf cp1 cb1 m1 mk1 Q1) L O_ lr max_iter verbose
    = (s, inr tt) ->
  train (mk_model c kk ab k0 klf cp2 cb2 m2 mk2 Q2) L O_ lr max_iter verbose
    = (s, inr tt).
Proof.
  intros H. unfold train_model in H |- *.
  match type of H with
  | context [match ?inp with inl _ => _ | inr _ => _ end] =>
      match goal with
      | |- context [match ?inp' with inl _ => _ | inr _ => _ end] =>
          change inp' with inp; destruct inp as [e|O'] eqn:Hin
      end
  end; [discriminate|].
  destruct (shape O') as [|m sh]; [discriminate|].
  cbv zeta in H |- *.
  match type of H with
  | context [col_order_of ?a ?b] =>
      match goal with
      | |- context [col_order_of ?a' ?b'] =>
          change (col_order_of a' b') with (col_order_of a b);
          destruct (col_order_of a b) as [e|col] eqn:Hc
      end
  end; [discriminate|].
  match type of H with
  | context [take (p_y_of ?b) col] =>
      match goal with
      | |- context [take (p_y_of ?b') col] =>
          change (take (p_y_of b') col) with (take (p_y_of b) col);
          destruct (take (p_y_of b) col) as [e|cb] eqn:Hcb
      end
  end; [discriminate|].
  match type of H with
  | context [take (cps_of ?b) col] =>
      match goal with
      | |- context [take (cps_of ?b') col] =>
          change (take (cps_of b') col) with (take (cps_of b) col);
          destruct (take (cps_of b) col) as [e|cp] eqn:Hcp
      end
  end; [discriminate|].
  injection H as <-. reflexivity.
Qed.

End TrainOverwrites.

(** X11: the estimates are overwritten wholesale: a completed call leaves
    the same instance whatever [m], [mask], [Q], [class_balance] and
    [cond_probs] held before, so a fit never depends on an earlier fit of
    the same model. *)
Theorem train_model_overwrites
        (torch_rand : list nat -> list nat -> R)
        (lbfgs_step : R -> nat -> (ndarray R -> R) -> ndarray R -> list nat -> R)
        (self1 self2 s : ClassBalanceModel)
        (L : option (ndarray Z)) (O_ : option (ndarray R))
        (lr : R) (max_iter : nat) (verbose : bool) :
  config self1 = config self2 -> k self1 = k self2 ->
  abstains self1 = abstains self2 -> k_0 self1 = k_0 self2 ->
  k_lf self1 = k_lf self2 ->
  train_model torch_rand lbfgs_step self1 L O_ lr max_iter verbose = (s, inr tt) ->
  train_model torch_rand lbfgs_step self2 L O_ lr max_iter verbose = (s, inr tt).
Proof.
  destruct self1, self2. cbn [config k abstains k_0 k_lf].
  intros -> -> -> -> ->. apply train_model_same_parameters.
Qed.

Lemma train_model_overwrites_witness :
  train_model (fun _ => item Q_exact) lbfgs_no_update
              (fit_state (__init__ 2 false None) 3 Q_skewed [0; 0])
              None (Some O_exact) 1 1000 false
  = (fit_state (__init__ 2 false None) 3 Q_exact [0; 1], inr tt).
Proof.
  apply (@train_model_overwrites (fun _ => item Q_exact) lbfgs_no_update
           (__init__ 2 false None)
           (fit_state (__init__ 2 false None) 3 Q_skewed [0; 0])
           (fit_state (__init__ 2 false None) 3 Q_exact [0; 1])
           None (Some O_exact) 1%R 1000 false
           eq_refl eq_refl eq_refl eq_refl eq_refl train_exact).
Defined.

(** ** The column order does not depend on the order of the sources *)

Section SourceOrder.

(** A sorted table with positive counts is determined by the counts. *)
Lemma sorted_table_ext (T1 T2 : list (list nat * nat)) :
  sorted_keys T1 -> sorted_keys T2 ->
  Forall (fun p => 1 <= snd p) T1 -> Forall (fun p => 1 <= snd p) T2 ->
  (forall r, table_count T1 r = table_count T2 r) ->
  T1 = T2.
Proof.
  unfold sorted_keys. revert T2.
  induction T1 as [|[r1 c1] T1 IH]; intros [|[r2 c2] T2] Hs1 Hs2 Hp1 Hp2 Hc.
  - reflexivity.
  - specialize (Hc r2). cbn [table_count] in Hc.
    destruct (row_eqb_spec r2 r2); [|congruence].
    apply Forall_inv in Hp2. cbn in Hp2. lia.
  - specialize (Hc r1). cbn [table_count] in Hc.
    destruct (row_eqb_spec r1 r1); [|congruence].
    apply Forall_inv in Hp1. cbn in Hp1. lia.
  - apply StronglySorted_inv in Hs1, Hs2.
    destruct Hs1 as [Hs1 Hall1], Hs2 as [Hs2 Hall2].
    pose proof (Forall_inv Hp1) as Hc1. pose proof (Forall_inv Hp2) as Hc2.
    cbn [snd] in Hc1, Hc2.
    apply Forall_inv_tail in Hp1, Hp2.
    assert (Hr : r1 = r2).
    { destruct (list_eq_dec Nat.eq_dec r1 r2) as [E|Hne]; [exact E|exfalso].
      destruct (lex_ltb r1 r2) eqn:Hlt.
      - pose proof (Hc r1) as H. cbn [table_count] in H.
        destruct (row_eqb_spec r1 r1); [|congruence].
        destruct (row_eqb_spec r1 r2); [congruence|].
        rewrite table_count_below in H; [lia|].
        rewrite Forall_forall in *. intros q Hq.
        exact (lex_ltb_trans _ _ _ Hlt (Hall2 q Hq)).
      - apply lex_ltb_total in Hlt; [|exact Hne].
        pose proof (Hc r2) as H. cbn [table_count] in H.
        destruct (row_eqb_spec r2 r2); [|congruence].
        destruct (row_eqb_spec r2 r1); [congruence|].
        rewrite table_count_below in H; [lia|].
        rewrite Forall_forall in *. intros q Hq.
        exact (lex_ltb_trans _ _ _ Hlt (Hall1 q Hq)). }
    subst r2.
    assert (Hcc : c1 = c2).
    { pose proof (Hc r1) as H. cbn [table_count] in H.
      destruct (row_eqb_spec r1 r1); [exact H | congruence]. }
    subst c2. f_equal. apply IH; try assumption.
    intros r. pose proof (Hc r) as H. cbn [table_count] in H.
    destruct (row_eqb_spec r r1) as [E|_]; [|exact H].
    rewrite E, !table_count_below; [reflexivity | exact Hall2 | exact Hall1].
Qed.

Lemma occurrences_perm (rows rows' : list (list nat)) (r : list nat) :
  Permutation rows rows' -> occurrences rows r = occurrences rows' r.
Proof.
  intros Hperm. unfold occurrences.
  now apply (proj1 (Permutation_count_occ (list_eq_dec Nat.eq_dec) rows rows')).
Qed.

(** The vote does not depend on the order of the ballots. *)
Lemma most_common_row_perm (rows rows' : list (list nat)) :
  Permutation rows rows' -> most_common_row rows = most_common_row rows'.
Proof.
  intros Hperm. unfold most_common_row, unique_rows.
  destruct (@unique_table rows [] (SSorted_nil _) (Forall_nil _)) as [Hs [Hp Hc]].
  destruct (@unique_table rows' [] (SSorted_nil _) (Forall_nil _)) as [Hs' [Hp' Hc']].
  rewrite (sorted_table_ext Hs Hs' Hp Hp'); [reflexivity|].
  intros r. rewrite Hc, Hc'. f_equal. now apply occurrences_perm.
Qed.

End SourceOrder.

Section SourceOrderDecode.

Lemma mapM_ext_in {A B : Type} (f g : A -> result B) (l : list A) :
  (forall a, In a l -> f a = g a) -> mapM f l = mapM g l.
Proof.
  induction l as [|a l IH]; intros H; [reflexivity|].
  cbn [mapM]. rewrite (H a) by now left.
  rewrite IH by (intros b Hb; apply H; now right). reflexivity.
Qed.

Lemma mapM_map {A B C : Type} (f : B -> result C) (h : A -> B) (l : list A) :
  mapM f (map h l) = mapM (fun a => f (h a)) l.
Proof.
  induction l as [|a l IH]; [reflexivity|].
  cbn [map mapM]. now rewrite IH.
Qed.

Lemma mapM_success {A B : Type} (f : A -> result B) (d : B) (l : list A) :
  (forall a, In a l -> exists b, f a = inr b) ->
  mapM f l = inr (map (fun a => match f a with inr b => b | inl _ => d end) l).
Proof.
  induction l as [|a l IH]; intros H; [reflexivity|].
  cbn [mapM map]. destruct (H a (or_introl eq_refl)) as [b Hb].
  rewrite Hb. cbn [bind].
  rewrite IH by (intros a' Ha'; apply H; now right). reflexivity.
Qed.

Lemma argmax_nonempty {A : Type} (ltb : A -> A -> bool) (l : list A) :
  l <> [] -> exists r, argmax ltb l = inr r.
Proof.
  destruct l as [|x t]; [congruence|]. intros _. eexists. reflexivity.
Qed.

Variable q : ndarray R.
Variables m kl kk : nat.
Variable pi : list nat.
Hypothesis Hq : shape q = [m; kl; kk].
Hypothesis Hpi : Permutation pi (seq 0 m).

Lemma source_order_length : length pi = m.
Proof. rewrite (Permutation_length Hpi). apply length_seq. Qed.

Lemma gather_sources_shape : shape (gather q pi) = [m; kl; kk].
Proof.
  unfold gather. cbn [shape]. rewrite Hq, source_order_length. reflexivity.
Qed.

Lemma gather_sources_p_y (y : nat) :
  item (p_y_of (gather q pi)) [y] = item (p_y_of q) [y].
Proof.
  rewrite (@p_y_item _ m kl kk gather_sources_shape), (@p_y_item q m kl kk Hq).
  f_equal. rewrite <- source_order_length at 1.
  exact (@Rsum_reindex pi m (fun i => (column_mass q kl i y ^ 3)%R) Hpi).
Qed.

Lemma gather_sources_cps (i v y : nat) :
  y < kk ->
  item (cps_of (gather q pi)) [i; v; y] = item (cps_of q) [nth i pi 0; v; y].
Proof.
  intros Hy.
  rewrite (@cps_item _ m kl kk gather_sources_shape i v y Hy).
  rewrite (@cps_item q m kl kk Hq (nth i pi 0) v y Hy), gather_sources_p_y.
  reflexivity.
Qed.

Lemma gather_sources_rows (self : ClassBalanceModel) :
  match argmax_axis2 (cps_na_of self (cps_of q)),
        argmax_axis2 (cps_na_of self (cps_of (gather q pi))) with
  | inr rows, inr rows' => Permutation rows' rows
  | inl e, inl e' => e = e'
  | _, _ => False
  end.
Proof.
  pose proof (@cps_shape q m kl kk Hq) as Hs.
  pose proof (@cps_shape _ m kl kk gather_sources_shape) as Hs'.
  assert (Hshape : exists v,
            shape (cps_na_of self (cps_of q)) = [m; v; kk] /\
            shape (cps_na_of self (cps_of (gather q pi))) = [m; v; kk] /\
            forall i v' y, y < kk ->
              item (cps_na_of self (cps_of (gather q pi))) [i; v'; y] =
              item (cps_na_of self (cps_of q)) [nth i pi 0; v'; y]).
  { unfold cps_na_of. destruct (k self <? k_lf self).
    - exists (kl - 1). unfold drop_first_axis1. cbn [shape item].
      rewrite Hs, Hs'. repeat split. intros i v' y Hy.
      now apply gather_sources_cps.
    - exists kl. rewrite Hs, Hs'. repeat split. intros i v' y Hy.
      now apply gather_sources_cps. }
  destruct Hshape as [v [HA [HA' Hitem]]].
  unfold argmax_axis2. rewrite HA, HA'.
  destruct (Nat.eqb_spec kk 0) as [Hz|Hnz]; [reflexivity|].
  set (F := fun i : nat =>
              mapM (fun v' : nat =>
                      argmax Rltb
                        (map (fun y : nat =>
                                item (cps_na_of self (cps_of q)) [i; v'; y])
                             (seq 0 kk)))
                   (seq 0 v)).
  assert (HF : forall l, mapM F l
                 = inr (map (fun i => match F i with inr b => b | inl _ => [] end) l)).
  { intros l. apply mapM_success. intros i _. unfold F.
    rewrite (mapM_success _ 0).
    - eexists. reflexivity.
    - intros v' _. apply argmax_nonempty.
      destruct kk; [congruence | discriminate]. }
  assert (H2 : mapM (fun i : nat =>
                       mapM (fun v' : nat =>
                               argmax Rltb
                                 (map (fun y : nat =>
                                         item (cps_na_of self (cps_of (gather q pi)))
                                              [i; v'; y])
                                      (seq 0 kk)))
                            (seq 0 v))
                    (seq 0 m)
               = mapM F pi).
  { rewrite (mapM_ext_in _ (fun i => F (nth i pi 0))).
    2:{ intros i _. unfold F. apply mapM_ext_in. intros v' _. f_equal.
        apply map_ext_in. intros y Hy. apply in_seq in Hy. apply Hitem. lia. }
    rewrite <- (mapM_map F (fun i => nth i pi 0) (seq 0 m)).
    rewrite <- source_order_length at 1. now rewrite map_nth_seq_id. }
  rewrite H2. change (mapM _ (seq 0 m)) with (mapM F (seq 0 m)).
  rewrite !HF. apply Permutation_map. exact Hpi.
Qed.

End SourceOrderDecode.

(** X12: the column order does not depend on the order in which the
    sources are listed: reordering the sources of the fitted factor by a
    permutation pi leaves [p_y] and the column order (or the error raised in
    computing it) as they are. *)
Theorem col_order_source_permutation
        (self : ClassBalanceModel) (q : ndarray R) (m kl kk : nat) (pi : list nat) :
  shape q = [m; kl; kk] -> Permutation pi (seq 0 m) ->
  (forall y, item (p_y_of (gather q pi)) [y] = item (p_y_of q) [y]) /\
  (forall c, col_order_of self q = inr c -> col_order_of self (gather q pi) = inr c) /\
  (forall e, col_order_of self q = inl e -> col_order_of self (gather q pi) = inl e).
Proof.
  intros Hq Hpi. split; [|split].
  - intros y. exact (@gather_sources_p_y q m kl kk pi Hq Hpi y).
  - intros c. unfold col_order_of, bind.
    pose proof (@gather_sources_rows q m kl kk pi Hq Hpi self) as H.
    destruct (argmax_axis2 (cps_na_of self (cps_of q))) as [e|rows];
      [discriminate|].
    destruct (argmax_axis2 (cps_na_of self (cps_of (gather q pi)))) as [e'|rows'];
      [contradiction|].
    intros <-. now apply most_common_row_perm.
  - intros e. unfold col_order_of, bind.
    pose proof (@gather_sources_rows q m kl kk pi Hq Hpi self) as H.
    destruct (argmax_axis2 (cps_na_of self (cps_of q))) as [e0|rows];
      destruct (argmax_axis2 (cps_na_of self (cps_of (gather q pi)))) as [e'|rows'];
      try contradiction.
    + intros E. injection E as <-. now subst.
    + intros <-. now apply most_common_row_perm.
Qed.

Lemma col_order_source_permutation_witness :
  col_order_of (__init__ 2 false None) (gather Q_tied [1; 0]) = inr [0; 1].
Proof.
  apply (proj1 (proj2 (@col_order_source_permutation (__init__ 2 false None) Q_tied
                         2 2 2 [1; 0] eq_refl (perm_swap 0 1 [])))).
  exact col_order_tied.
Defined.

(** ** Mapping spaCy tokens to BERT tokens (auxiliary_tasks.py) *)

Section BertSpacyIndex.

Variable tokenizer : Mmtl.Tokenizer.

Local Abbreviation tok := (Mmtl.tokenize tokenizer).

(** The pieces of the first [i] tokens. *)
Local Abbreviation pieces_before := (fun (toks : list string) (i : nat) =>
  concat (map tok (firstn i toks))).

Lemma bert_spacy_loop (toks : list string) (mp : list nat) (bt : list string) :
  fold_left
    (fun st orig_token =>
       let (orig_to_tok_map, bert_tokens) := st : list nat * list string in
       (orig_to_tok_map ++ [length bert_tokens], bert_tokens ++ tok orig_token))
    toks (mp, bt)
  = (mp ++ map (fun i => length bt + length (pieces_before toks i))
               (seq 0 (length toks)),
     bt ++ concat (map tok toks)).
Proof.
  revert mp bt. induction toks as [|t ts IH]; intros mp bt.
  - cbn. now rewrite !app_nil_r.
  - cbn [fold_left]. rewrite IH. f_equal.
    + rewrite <- app_assoc. f_equal. cbn [length seq map firstn concat app].
      rewrite Nat.add_0_r. f_equal.
      rewrite <- seq_shift, map_map. apply map_ext. intros i.
      cbn [firstn map concat]. rewrite !length_app. lia.
    + cbn [map concat]. now rewrite <- app_assoc.
Qed.

Lemma get_bert_spacy_index_eq (spc : Mmtl.Doc) (add_cls : bool) :
  Mmtl.get_bert_spacy_index spc tokenizer add_cls =
  (map (fun i => (if add_cls then 1 else 0)
                 + length (pieces_before (Mmtl.doc_tokens spc) i))
       (seq 0 (length (Mmtl.doc_tokens spc))),
   (if add_cls then ["[CLS]"%string] else [])
     ++ concat (map tok (Mmtl.doc_tokens spc)) ++ ["[SEP]"%string]).
Proof.
  unfold Mmtl.get_bert_spacy_index. rewrite bert_spacy_loop.
  cbn [app]. rewrite <- app_assoc. destruct add_cls; reflexivity.
Qed.

End BertSpacyIndex.

Section BertSpacyIndexProps.

Variable tokenizer : Mmtl.Tokenizer.

Local Abbreviation tok := (Mmtl.tokenize tokenizer).

Lemma firstn_add {A : Type} (l : list A) (i d : nat) :
  firstn (i + d) l = firstn i l ++ firstn d (skipn i l).
Proof.
  revert l. induction i as [|i IH]; intros l; [reflexivity|].
  destruct l as [|x l]; cbn [Nat.add firstn skipn app].
  - now rewrite firstn_nil.
  - now rewrite IH.
Qed.

Lemma skipn_length_app {A : Type} (a b : list A) : skipn (length a) (a ++ b) = b.
Proof. induction a as [|x a IH]; [reflexivity | exact IH]. Qed.

Lemma firstn_length_app {A : Type} (a b : list A) : firstn (length a) (a ++ b) = a.
Proof. induction a as [|x a IH]; [now destruct b | cbn; now rewrite IH]. Qed.

(** The pieces of all tokens: those before token i, those of token i, those
    after it. *)
Lemma pieces_split (toks : list string) (i : nat) :
  i < length toks ->
  concat (map tok toks) =
  concat (map tok (firstn i toks)) ++ tok (nth i toks ""%string)
    ++ concat (map tok (skipn (S i) toks)).
Proof.
  revert i. induction toks as [|t ts IH]; intros i Hi; [simpl in Hi; lia|].
  destruct i as [|i]; [reflexivity|].
  cbn [firstn skipn map concat nth]. simpl in Hi.
  rewrite (IH i) by lia. now rewrite <- app_assoc.
Qed.

Lemma pieces_before_mono (toks : list string) (i j : nat) :
  i <= j ->
  length (concat (map tok (firstn i toks)))
  <= length (concat (map tok (firstn j toks))).
Proof.
  intros Hij. replace j with (i + (j - i)) by lia.
  rewrite firstn_add, map_app, concat_app, length_app. lia.
Qed.

Lemma pieces_before_total (toks : list string) (i : nat) :
  length (concat (map tok (firstn i toks))) <= length (concat (map tok toks)).
Proof.
  rewrite <- (firstn_skipn i toks) at 2.
  rewrite map_app, concat_app, length_app. lia.
Qed.

Lemma pieces_before_strict (toks : list string) (i j : nat) :
  (forall t, In t toks -> tok t <> []) -> i < j -> j <= length toks ->
  length (concat (map tok (firstn i toks)))
  < length (concat (map tok (firstn j toks))).
Proof.
  intros Hne Hij Hj. replace j with (i + S (j - i - 1)) by lia.
  rewrite firstn_add, map_app, concat_app, length_app.
  destruct (skipn i toks) as [|t ts] eqn:Hs.
  - assert (Hlen : length (skipn i toks) = 0) by now rewrite Hs.
    rewrite length_skipn in Hlen. lia.
  - cbn [firstn map concat]. rewrite length_app.
    assert (Hin : In t toks).
    { rewrite <- (firstn_skipn i toks), Hs. apply in_or_app. right. now left. }
    specialize (Hne t Hin). destruct (tok t); [congruence | simpl; lia].
Qed.

Lemma token_map_nth (spc : Mmtl.Doc) (add_cls : bool) (i : nat) :
  i < length (Mmtl.doc_tokens spc) ->
  nth i (fst (Mmtl.get_bert_spacy_index spc tokenizer add_cls)) 0 =
  (if add_cls then 1 else 0)
  + length (concat (map tok (firstn i (Mmtl.doc_tokens spc)))).
Proof.
  intros Hi. rewrite get_bert_spacy_index_eq. cbn [fst].
  rewrite (nth_indep _ 0 ((fun i => (if add_cls then 1 else 0)
             + length (concat (map tok (firstn i (Mmtl.doc_tokens spc))))) 0))
    by (now rewrite length_map, length_seq).
  rewrite (map_nth (fun i => (if add_cls then 1 else 0)
             + length (concat (map tok (firstn i (Mmtl.doc_tokens spc)))))).
  now rewrite seq_nth.
Qed.

End BertSpacyIndexProps.

(** X13: [get_bert_spacy_index] returns as BERT tokens "[CLS]" when asked
    for, then the word pieces of every spaCy token in order, then "[SEP]";
    the map has one entry per spaCy token. *)
Theorem get_bert_spacy_index_tokens
        (spc : Mmtl.Doc) (tokenizer : Mmtl.Tokenizer) (add_cls : bool) :
  snd (Mmtl.get_bert_spacy_index spc tokenizer add_cls) =
    (if add_cls then ["[CLS]"%string] else [])
      ++ concat (map (Mmtl.tokenize tokenizer) (Mmtl.doc_tokens spc))
      ++ ["[SEP]"%string] /\
  length (fst (Mmtl.get_bert_spacy_index spc tokenizer add_cls)) =
    length (Mmtl.doc_tokens spc).
Proof.
  rewrite get_bert_spacy_index_eq. cbn [fst snd]. split; [reflexivity|].
  now rewrite length_map, length_seq.
Qed.

(** X14: the map of [get_bert_spacy_index] points at the word pieces of its
    token: the BERT tokens from position [orig_to_tok_map[i]] on begin with
    the pieces of the i-th spaCy token. *)
Theorem get_bert_spacy_index_round_trip
        (spc : Mmtl.Doc) (tokenizer : Mmtl.Tokenizer) (add_cls : bool) (i : nat) :
  i < length (Mmtl.doc_tokens spc) ->
  let (orig_to_tok_map, bert_tokens) :=
    Mmtl.get_bert_spacy_index spc tokenizer add_cls in
  firstn (length (Mmtl.tokenize tokenizer (nth i (Mmtl.doc_tokens spc) ""%string)))
         (skipn (nth i orig_to_tok_map 0) bert_tokens)
  = Mmtl.tokenize tokenizer (nth i (Mmtl.doc_tokens spc) ""%string).
Proof.
  intros Hi.
  pose proof (token_map_nth tokenizer spc add_cls Hi) as Hnth.
  pose proof (f_equal snd (get_bert_spacy_index_eq tokenizer spc add_cls)) as Hbert.
  destruct (Mmtl.get_bert_spacy_index spc tokenizer add_cls) as [mp bt].
  cbn [fst snd] in Hnth, Hbert. rewrite Hnth, Hbert.
  rewrite (pieces_split tokenizer _ Hi).
  set (c := if add_cls then ["[CLS]"%string] else []).
  replace ((if add_cls then 1 else 0)
           + length (concat (map (Mmtl.tokenize tokenizer)
                                 (firstn i (Mmtl.doc_tokens spc)))))
    with (length (c ++ concat (map (Mmtl.tokenize tokenizer)
                                   (firstn i (Mmtl.doc_tokens spc)))))
    by (rewrite length_app; unfold c; destruct add_cls; reflexivity).
  rewrite <- !app_assoc, app_assoc, skipn_length_app.
  apply firstn_length_app.
Qed.

Lemma get_bert_spacy_index_round_trip_witness :
  firstn 2 (skipn 4 ["[CLS]"; "Par"; "is"; "is"; "lov"; "ely"; "[SEP]"]%string)
  = ["lov"; "ely"]%string.
Proof.
  exact (@get_bert_spacy_index_round_trip doc_paris example_tokenizer true 2
           (le_n 3)).
Defined.

(** X15: the map of [get_bert_spacy_index] never decreases; every entry is a
    position of the BERT token list, at most the last one, which holds
    "[SEP]"; and with "[CLS]" in front no entry is below 1. *)
Theorem get_bert_spacy_index_map_bounds
        (spc : Mmtl.Doc) (tokenizer : Mmtl.Tokenizer) (add_cls : bool) (i j : nat) :
  i <= j -> j < length (Mmtl.doc_tokens spc) ->
  let (orig_to_tok_map, bert_tokens) :=
    Mmtl.get_bert_spacy_index spc tokenizer add_cls in
  nth i orig_to_tok_map 0 <= nth j orig_to_tok_map 0 /\
  nth j orig_to_tok_map 0 <= length bert_tokens - 1 /\
  nth (length bert_tokens - 1) bert_tokens ""%string = "[SEP]"%string /\
  (if add_cls then 1 else 0) <= nth i orig_to_tok_map 0.
Proof.
  intros Hij Hj.
  pose proof (token_map_nth tokenizer spc add_cls (Nat.le_lt_trans _ _ _ Hij Hj))
    as Hi'.
  pose proof (token_map_nth tokenizer spc add_cls Hj) as Hj'.
  pose proof (f_equal snd (get_bert_spacy_index_eq tokenizer spc add_cls)) as Hbert.
  destruct (Mmtl.get_bert_spacy_index spc tokenizer add_cls) as [mp bt].
  cbn [fst snd] in Hi', Hj', Hbert. rewrite Hi', Hj', Hbert.
  pose proof (pieces_before_mono tokenizer (Mmtl.doc_tokens spc) Hij) as Hmono.
  pose proof (pieces_before_total tokenizer (Mmtl.doc_tokens spc) j) as Htot.
  rewrite app_assoc.
  set (body := (if add_cls then ["[CLS]"%string] else [])
               ++ concat (map (Mmtl.tokenize tokenizer) (Mmtl.doc_tokens spc))).
  assert (Hbody : length body =
                  (if add_cls then 1 else 0)
                  + length (concat (map (Mmtl.tokenize tokenizer)
                                        (Mmtl.doc_tokens spc)))).
  { unfold body. rewrite length_app. now destruct add_cls. }
  rewrite length_app. cbn [length].
  replace (length body + 1 - 1) with (length body) by lia.
  split; [lia|]. split; [lia|]. split; [|lia].
  apply nth_middle.
Qed.

Lemma get_bert_spacy_index_map_bounds_witness :
  let (orig_to_tok_map, bert_tokens) :=
    Mmtl.get_bert_spacy_index doc_paris example_tokenizer true in
  nth 0 orig_to_tok_map 0 <= nth 2 orig_to_tok_map 0 /\
  nth 2 orig_to_tok_map 0 <= length bert_tokens - 1 /\
  nth (length bert_tokens - 1) bert_tokens ""%string = "[SEP]"%string /\
  1 <= nth 0 orig_to_tok_map 0.
Proof.
  exact (@get_bert_spacy_index_map_bounds doc_paris example_tokenizer true 0 2
           (le_S _ _ (le_S _ _ (le_n 0))) (le_n 3)).
Defined.

(** X26: when the tokenizer gives every token of the document at least one
    piece, the entries of the map of [get_bert_spacy_index] increase
    strictly and every entry is strictly before the closing "[SEP]". *)
Theorem get_bert_spacy_index_map_strict
        (spc : Mmtl.Doc) (tokenizer : Mmtl.Tokenizer) (add_cls : bool) (i j : nat) :
  (forall t, In t (Mmtl.doc_tokens spc) -> Mmtl.tokenize tokenizer t <> []) ->
  i < j -> j < length (Mmtl.doc_tokens spc) ->
  let (orig_to_tok_map, bert_tokens) :=
    Mmtl.get_bert_spacy_index spc tokenizer add_cls in
  nth i orig_to_tok_map 0 < nth j orig_to_tok_map 0 /\
  nth j orig_to_tok_map 0 < length bert_tokens - 1.
Proof.
  intros Hne Hij Hj.
  pose proof (token_map_nth tokenizer spc add_cls (Nat.lt_trans _ _ _ Hij Hj))
    as Hi'.
  pose proof (token_map_nth tokenizer spc add_cls Hj) as Hj'.
  pose proof (f_equal snd (get_bert_spacy_index_eq tokenizer spc add_cls)) as Hbert.
  destruct (Mmtl.get_bert_spacy_index spc tokenizer add_cls) as [mp bt].
  cbn [fst snd] in Hi', Hj', Hbert. rewrite Hi', Hj', Hbert.
  pose proof (@pieces_before_strict tokenizer (Mmtl.doc_tokens spc) i j Hne Hij
                (Nat.lt_le_incl _ _ Hj)) as Hlt.
  pose proof (@pieces_before_strict tokenizer (Mmtl.doc_tokens spc) j
                (length (Mmtl.doc_tokens spc)) Hne Hj (le_n _)) as Hend.
  rewrite firstn_all in Hend.
  rewrite !length_app. cbn [length].
  split; [lia|]. destruct add_cls; cbn [length]; lia.
Qed.

Lemma get_bert_spacy_index_map_strict_witness :
  let (orig_to_tok_map, bert_tokens) :=
    Mmtl.get_bert_spacy_index doc_paris example_tokenizer true in
  nth 0 orig_to_tok_map 0 < nth 2 orig_to_tok_map 0 /\
  nth 2 orig_to_tok_map 0 < length bert_tokens - 1.
Proof.
  apply (@get_bert_spacy_index_map_strict doc_paris example_tokenizer true 0 2).
  - intros t [<-|[<-|[<-|[]]]]; vm_compute; discriminate.
  - lia.
  - cbn; lia.
Defined.

(** ** Named-entity tags (auxiliary_tasks.py) *)

Section NerTags.

Lemma mmtl_mapM_result {A B : Type} (f : A -> Mmtl.res B) (l : list A) (bs : list B) :
  Mmtl.mapM f l = inr bs -> Forall2 (fun a b => f a = inr b) l bs.
Proof.
  revert bs. induction l as [|a l IH]; intros bs; cbn [Mmtl.mapM].
  - intros E. injection E as <-. constructor.
  - unfold Mmtl.bind at 1. destruct (f a) as [e|b] eqn:Ha; [discriminate|].
    unfold Mmtl.bind. destruct (Mmtl.mapM f l) as [e|bs']; [discriminate|].
    intros E. injection E as <-. constructor; [exact Ha | now apply IH].
Qed.

Lemma mmtl_mapM_error {A B : Type} (f : A -> Mmtl.res B) (l : list A) (e : Mmtl.exc) :
  Mmtl.mapM f l = inl e ->
  exists l1 a l2 bs,
    l = l1 ++ a :: l2 /\ Mmtl.mapM f l1 = inr bs /\ f a = inl e.
Proof.
  induction l as [|a l IH]; cbn [Mmtl.mapM]; [discriminate|].
  unfold Mmtl.bind at 1. destruct (f a) as [e'|b] eqn:Ha.
  - intros E. injection E as ->. exists [], a, l, []. auto.
  - unfold Mmtl.bind. destruct (Mmtl.mapM f l) as [e'|bs] eqn:Hl; [|discriminate].
    intros E. injection E as ->.
    destruct (IH eq_refl) as [l1 [a' [l2 [bs [-> [H1 H2]]]]]].
    exists (a :: l1), a', l2, (b :: bs). repeat split; [|exact H2].
    cbn [Mmtl.mapM]. rewrite Ha. cbn [Mmtl.bind]. rewrite H1. reflexivity.
Qed.

Lemma list_index_spec (l : list string) (x : string) (i : nat) :
  Mmtl.list_index l x = inr i -> i < length l /\ nth i l ""%string = x.
Proof.
  revert i. induction l as [|y t IH]; intros i; cbn [Mmtl.list_index]; [discriminate|].
  destruct (String.eqb_spec y x) as [->|_].
  - intros E. injection E as <-. split; [simpl; lia | reflexivity].
  - unfold Mmtl.bind. destruct (Mmtl.list_index t x) as [e|i'] eqn:Hi; [discriminate|].
    intros E. injection E as <-. destruct (IH i' eq_refl) as [Hlt Hn].
    split; [simpl; lia | exact Hn].
Qed.

Lemma list_index_error (l : list string) (x : string) (e : Mmtl.exc) :
  Mmtl.list_index l x = inl e -> exists msg, e = Mmtl.ValueError msg.
Proof.
  induction l as [|y t IH]; cbn [Mmtl.list_index].
  - intros E. injection E as <-. eexists. reflexivity.
  - destruct (String.eqb y x); [discriminate|].
    unfold Mmtl.bind. destruct (Mmtl.list_index t x) as [e'|i]; [|discriminate].
    intros E. injection E as ->. now apply IH.
Qed.

Lemma list_get_error {A : Type} (l : list A) (i : nat) (e : Mmtl.exc) :
  Mmtl.list_get l i = inl e -> e = Mmtl.IndexError "list index out of range".
Proof.
  unfold Mmtl.list_get. destruct (nth_error l i); [discriminate|].
  intros E. now injection E.
Qed.

Lemma list_get_nth {A : Type} (l : list A) (i : nat) (a d : A) :
  Mmtl.list_get l i = inr a -> i < length l /\ nth i l d = a.
Proof.
  unfold Mmtl.list_get. destruct (nth_error l i) as [a'|] eqn:Hn; [|discriminate].
  intros E. injection E as <-. split.
  - apply nth_error_Some. congruence.
  - now apply nth_error_nth.
Qed.

Lemma slice_assign_from_length (arr : list string) (i a b : nat) (v : string) :
  length (Mmtl.slice_assign_from i arr a b v) = length arr.
Proof.
  revert i. induction arr as [|x t IH]; intros i; [reflexivity|].
  cbn [Mmtl.slice_assign_from length]. now rewrite IH.
Qed.

Lemma slice_assign_from_nth (arr : list string) (i a b p : nat) (v d : string) :
  p < length arr ->
  nth p (Mmtl.slice_assign_from i arr a b v) d =
  if (a <=? i + p) && (i + p <? b) then v else nth p arr d.
Proof.
  revert i p. induction arr as [|x t IH]; intros i p Hp; [simpl in Hp; lia|].
  cbn [Mmtl.slice_assign_from]. destruct p as [|p].
  - cbn [nth]. now rewrite Nat.add_0_r.
  - cbn [nth]. simpl in Hp. rewrite IH by lia.
    now replace (S i + p) with (i + S p) by lia.
Qed.

Lemma assign_ents_length (mp : list nat) (es : list Mmtl.Ent) (strs strs' : list string) :
  Mmtl.assign_ents mp strs es = inr strs' -> length strs' = length strs.
Proof.
  revert strs. induction es as [|ent rest IH]; intros strs; cbn [Mmtl.assign_ents].
  - intros E. now injection E as <-.
  - unfold Mmtl.bind.
    destruct (Mmtl.list_get mp (Mmtl.ent_start ent)) as [e|a]; [discriminate|].
    destruct (Mmtl.list_get mp (Nat.min _ _)) as [e|b]; [discriminate|].
    intros H. rewrite (IH _ H). apply slice_assign_from_length.
Qed.

Lemma assign_ents_error (mp : list nat) (es : list Mmtl.Ent) (strs : list string)
      (e : Mmtl.exc) :
  Mmtl.assign_ents mp strs es = inl e ->
  e = Mmtl.IndexError "list index out of range".
Proof.
  revert strs. induction es as [|ent rest IH]; intros strs; cbn [Mmtl.assign_ents];
    [discriminate|].
  unfold Mmtl.bind.
  destruct (Mmtl.list_get mp (Mmtl.ent_start ent)) as [e'|a] eqn:Ha.
  - intros E. injection E as <-. exact (list_get_error _ _ Ha).
  - destruct (Mmtl.list_get mp (Nat.min _ _)) as [e'|b] eqn:Hb.
    + intros E. injection E as <-. exact (list_get_error _ _ Hb).
    + apply IH.
Qed.

(** The padding loop stops, with the list filled up to n entries. *)
Lemma pad_zeros_spec (fuel : nat) (tags : list nat) (n : nat) :
  n - length tags <= fuel ->
  Mmtl.pad_zeros fuel tags n = tags ++ repeat 0 (n - length tags).
Proof.
  revert tags. induction fuel as [|fuel IH]; intros tags Hfuel.
  - cbn [Mmtl.pad_zeros]. replace (n - length tags) with 0 by lia.
    now rewrite app_nil_r.
  - cbn [Mmtl.pad_zeros]. destruct (Nat.ltb_spec (length tags) n) as [Hlt|Hge].
    + rewrite IH by (rewrite length_app; simpl; lia).
      rewrite length_app. cbn [length].
      replace (n - length tags) with (S (n - (length tags + 1))) by lia.
      cbn [repeat]. now rewrite <- app_assoc.
    + replace (n - length tags) with 0 by lia. now rewrite app_nil_r.
Qed.

(** Padding and truncation leave exactly n tags. *)
Lemma pad_truncate (tags : list nat) (n : nat) :
  let padded := Mmtl.pad_zeros n tags n in
  let cut := if n <? length padded then firstn n padded else padded in
  length cut = n /\ cut = firstn n (tags ++ repeat 0 (n - length tags)).
Proof.
  cbv zeta. rewrite pad_zeros_spec by lia.
  assert (Hlen : length (tags ++ repeat 0 (n - length tags))
                 = Nat.max n (length tags)).
  { rewrite length_app, repeat_length. lia. }
  destruct (Nat.ltb_spec n (length (tags ++ repeat 0 (n - length tags)))) as [Hlt|Hge].
  - split; [|reflexivity]. rewrite length_firstn. lia.
  - split; [lia|]. symmetry. apply firstn_all2. lia.
Qed.

End NerTags.

Section NerTagsPayload.

Variable score : Type.
Variable payload : Mmtl.Payload score.

Local Abbreviation ds := (Mmtl.dataset (Mmtl.data_loader payload)).
Local Abbreviation tk := (Mmtl.bert_tokenizer ds).

(** What a call of [get_spacy_ner_tags] that returns went through. *)
Lemma get_spacy_ner_tags_inv (it : nat) (tags : list nat) :
  Mmtl.get_spacy_ner_tags payload it = inr tags ->
  exists sent1 sent2 ids strs1 strs2 tags1 tags2,
    Mmtl.list_get (Mmtl.spacy_tokens ds) it = inr (sent1, sent2) /\
    Mmtl.list_get (Mmtl.bert_tokens ds) it = inr ids /\
    Mmtl.assign_ents (fst (Mmtl.get_bert_spacy_index sent1 tk true))
      (Mmtl.zeros_astype_str (length (snd (Mmtl.get_bert_spacy_index sent1 tk true))))
      (Mmtl.ents sent1) = inr strs1 /\
    Mmtl.assign_ents (fst (Mmtl.get_bert_spacy_index sent2 tk false))
      (Mmtl.zeros_astype_str (length (snd (Mmtl.get_bert_spacy_index sent2 tk false))))
      (Mmtl.ents sent2) = inr strs2 /\
    Mmtl.mapM (Mmtl.list_index Mmtl.NER_TAGS) strs1 = inr tags1 /\
    Mmtl.mapM (Mmtl.list_index Mmtl.NER_TAGS) strs2 = inr tags2 /\
    tags = firstn (length (Mmtl.convert_ids_to_tokens tk ids))
                  ((tags1 ++ tags2)
                     ++ repeat 0 (length (Mmtl.convert_ids_to_tokens tk ids)
                                  - length (tags1 ++ tags2))).
Proof.
  unfold Mmtl.get_spacy_ner_tags. unfold Mmtl.bind at 1.
  destruct (Mmtl.list_get (Mmtl.spacy_tokens ds) it) as [e|[sent1 sent2]] eqn:Hs;
    [discriminate|].
  destruct (Mmtl.get_bert_spacy_index sent1 tk true) as [mp1 bert1] eqn:H1.
  destruct (Mmtl.get_bert_spacy_index sent2 tk false) as [mp2 bert2] eqn:H2.
  unfold Mmtl.bind at 1.
  destruct (Mmtl.list_get (Mmtl.bert_tokens ds) it) as [e|ids] eqn:Hids;
    [discriminate|].
  unfold Mmtl.bind at 1.
  destruct (Mmtl.assign_ents mp1 _ (Mmtl.ents sent1)) as [e|strs1] eqn:Ha1;
    [discriminate|].
  unfold Mmtl.bind at 1.
  destruct (Mmtl.assign_ents mp2 _ (Mmtl.ents sent2)) as [e|strs2] eqn:Ha2;
    [discriminate|].
  unfold Mmtl.bind at 1.
  destruct (Mmtl.mapM (Mmtl.list_index Mmtl.NER_TAGS) strs1) as [e|tags1] eqn:Ht1;
    [discriminate|].
  unfold Mmtl.bind at 1.
  destruct (Mmtl.mapM (Mmtl.list_index Mmtl.NER_TAGS) strs2) as [e|tags2] eqn:Ht2;
    [discriminate|].
  destruct (pad_truncate (tags1 ++ tags2)
              (length (Mmtl.convert_ids_to_tokens tk ids))) as [Hlen Hcut].
  cbv zeta in Hlen, Hcut. rewrite Hcut. rewrite Hcut in Hlen. rewrite Hlen.
  rewrite Nat.eqb_refl. intros E. injection E as <-.
  exists sent1, sent2, ids, strs1, strs2, tags1, tags2.
  rewrite H1, H2. cbn [fst snd]. repeat split; assumption || reflexivity.
Qed.

End NerTagsPayload.

Lemma Forall_firstn_list {A : Type} (P : A -> Prop) (n : nat) (l : list A) :
  Forall P l -> Forall P (firstn n l).
Proof.
  intros H. apply Forall_forall. intros x Hx.
  rewrite Forall_forall in H. apply H. rewrite <- (firstn_skipn n l).
  apply in_or_app. now left.
Qed.

Lemma list_index_all_bounded (l strs : list string) (tags : list nat) :
  Mmtl.mapM (Mmtl.list_index l) strs = inr tags ->
  Forall (fun t => t < length l) tags.
Proof.
  intros H. apply mmtl_mapM_result in H.
  induction H as [|x t strs' tags' Hx _ IH]; constructor; [|exact IH].
  apply list_index_spec in Hx. exact (proj1 Hx).
Qed.

Lemma example_ner_tags :
  Mmtl.get_spacy_ner_tags example_payload 0 = inr [0; 5; 5; 0; 0; 0; 0; 0; 0; 0; 0; 0].
Proof. reflexivity. Qed.

(** X16: the assertion at the end of [get_spacy_ner_tags] can never fail:
    whenever the function returns, the tag list has exactly one tag per BERT
    token recorded for the item, and every tag is an index into NER_TAGS
    (below 19). *)
Theorem get_spacy_ner_tags_length
        (score : Type) (payload : Mmtl.Payload score) (it : nat) :
  Mmtl.get_spacy_ner_tags payload it <> inl Mmtl.AssertionError /\
  forall tags,
    Mmtl.get_spacy_ner_tags payload it = inr tags ->
    exists ids,
      Mmtl.list_get (Mmtl.bert_tokens (Mmtl.dataset (Mmtl.data_loader payload))) it
        = inr ids /\
      length tags =
        length (Mmtl.convert_ids_to_tokens
                  (Mmtl.bert_tokenizer (Mmtl.dataset (Mmtl.data_loader payload))) ids) /\
      Forall (fun t => t < 19) tags.
Proof.
  split.
  - unfold Mmtl.get_spacy_ner_tags. unfold Mmtl.bind at 1.
    destruct (Mmtl.list_get (Mmtl.spacy_tokens _) it) as [e|[sent1 sent2]] eqn:Hs.
    { rewrite (list_get_error _ _ Hs). discriminate. }
    destruct (Mmtl.get_bert_spacy_index sent1 _ true) as [mp1 bert1].
    destruct (Mmtl.get_bert_spacy_index sent2 _ false) as [mp2 bert2].
    unfold Mmtl.bind at 1.
    destruct (Mmtl.list_get (Mmtl.bert_tokens _) it) as [e|ids] eqn:Hids.
    { rewrite (list_get_error _ _ Hids). discriminate. }
    unfold Mmtl.bind at 1.
    destruct (Mmtl.assign_ents mp1 _ (Mmtl.ents sent1)) as [e|strs1] eqn:Ha1.
    { rewrite (assign_ents_error _ _ _ Ha1). discriminate. }
    unfold Mmtl.bind at 1.
    destruct (Mmtl.assign_ents mp2 _ (Mmtl.ents sent2)) as [e|strs2] eqn:Ha2.
    { rewrite (assign_ents_error _ _ _ Ha2). discriminate. }
    unfold Mmtl.bind at 1.
    destruct (Mmtl.mapM (Mmtl.list_index Mmtl.NER_TAGS) strs1) as [e|tags1] eqn:Ht1.
    { destruct (mmtl_mapM_error _ _ Ht1) as [? [x [? [? [_ [_ Hx]]]]]].
      destruct (list_index_error _ _ Hx) as [msg ->]. discriminate. }
    unfold Mmtl.bind at 1.
    destruct (Mmtl.mapM (Mmtl.list_index Mmtl.NER_TAGS) strs2) as [e|tags2] eqn:Ht2.
    { destruct (mmtl_mapM_error _ _ Ht2) as [? [x [? [? [_ [_ Hx]]]]]].
      destruct (list_index_error _ _ Hx) as [msg ->]. discriminate. }
    destruct (pad_truncate (tags1 ++ tags2)
                (length (Mmtl.convert_ids_to_tokens
                           (Mmtl.bert_tokenizer
                              (Mmtl.dataset (Mmtl.data_loader payload))) ids)))
      as [Hlen _].
    cbv zeta in Hlen. rewrite Hlen, Nat.eqb_refl. discriminate.
  - intros tags Htags.
    destruct (get_spacy_ner_tags_inv payload it Htags)
      as [sent1 [sent2 [ids [strs1 [strs2 [tags1 [tags2
            [_ [Hids [_ [_ [Ht1 [Ht2 ->]]]]]]]]]]]]].
    exists ids. split; [exact Hids|].
    set (n := length (Mmtl.convert_ids_to_tokens _ ids)).
    split.
    + rewrite length_firstn, length_app, repeat_length. lia.
    + apply Forall_firstn_list. apply Forall_app. split; [apply Forall_app; split|].
      * exact (list_index_all_bounded _ _ Ht1).
      * exact (list_index_all_bounded _ _ Ht2).
      * apply Forall_forall. intros x Hx. apply repeat_spec in Hx. lia.
Qed.

Lemma get_spacy_ner_tags_length_witness :
  exists ids,
    Mmtl.list_get (Mmtl.bert_tokens
                     (Mmtl.dataset (Mmtl.data_loader example_payload))) 0
      = inr ids /\
    length [0; 5; 5; 0; 0; 0; 0; 0; 0; 0; 0; 0] =
      length (Mmtl.convert_ids_to_tokens
                (Mmtl.bert_tokenizer
                   (Mmtl.dataset (Mmtl.data_loader example_payload))) ids) /\
    Forall (fun t => t < 19) [0; 5; 5; 0; 0; 0; 0; 0; 0; 0; 0; 0].
Proof.
  exact (proj2 (@get_spacy_ner_tags_length nat example_payload 0) _ example_ner_tags).
Defined.

Section NerLastToken.

Lemma token_map_le_last (spc : Mmtl.Doc) (tokenizer : Mmtl.Tokenizer)
      (add_cls : bool) (i : nat) :
  i < length (fst (Mmtl.get_bert_spacy_index spc tokenizer add_cls)) ->
  nth i (fst (Mmtl.get_bert_spacy_index spc tokenizer add_cls)) 0
  <= nth (length (Mmtl.doc_tokens spc) - 1)
         (fst (Mmtl.get_bert_spacy_index spc tokenizer add_cls)) 0.
Proof.
  intros Hi.
  assert (Hlen : length (fst (Mmtl.get_bert_spacy_index spc tokenizer add_cls))
                 = length (Mmtl.doc_tokens spc)).
  { rewrite get_bert_spacy_index_eq. cbn [fst]. now rewrite length_map, length_seq. }
  rewrite Hlen in Hi.
  rewrite !token_map_nth by lia.
  pose proof (pieces_before_mono tokenizer (Mmtl.doc_tokens spc)
                (i := i) (j := length (Mmtl.doc_tokens spc) - 1) ltac:(lia)).
  lia.
Qed.

(** The entity loop leaves every position from [bound] on as it was, when
    no entry of the token map exceeds [bound]. *)
Lemma assign_ents_tail_untouched (mp : list nat) (bound : nat)
      (es : list Mmtl.Ent) (strs strs' : list string) (p : nat) (d : string) :
  (forall i, i < length mp -> nth i mp 0 <= bound) ->
  Mmtl.assign_ents mp strs es = inr strs' ->
  bound <= p -> nth p strs' d = nth p strs d.
Proof.
  intros Hbound. revert strs.
  induction es as [|ent rest IH]; intros strs H Hp; cbn [Mmtl.assign_ents] in H.
  - now injection H as <-.
  - unfold Mmtl.bind in H.
    destruct (Mmtl.list_get mp (Mmtl.ent_start ent)) as [e|a]; [discriminate|].
    destruct (Mmtl.list_get mp (Nat.min _ _)) as [e|b] eqn:Hb; [discriminate|].
    rewrite (IH _ H Hp). unfold Mmtl.slice_assign.
    destruct (list_get_nth _ _ 0 Hb) as [Hlt Hnth].
    specialize (Hbound _ Hlt). rewrite Hnth in Hbound.
    destruct (Nat.lt_ge_cases p (length strs)) as [Hin|Hout].
    + rewrite slice_assign_from_nth by exact Hin. cbn [Nat.add].
      destruct (Nat.ltb_spec p b); [lia|]. now rewrite andb_false_r.
    + rewrite !nth_overflow; [reflexivity | exact Hout |].
      now rewrite slice_assign_from_length.
Qed.

Lemma Forall2_nth_pair {A B : Type} (P : A -> B -> Prop) (l : list A) (l' : list B)
      (p : nat) (d : A) (d' : B) :
  Forall2 P l l' -> p < length l -> P (nth p l d) (nth p l' d').
Proof.
  intros H. revert p. induction H as [|a b l l' Hab _ IH]; intros p Hp;
    [simpl in Hp; lia|].
  destruct p as [|p]; [exact Hab|]. cbn [nth]. apply IH. simpl in Hp. lia.
Qed.

(** A position whose tag string is still "0.0" gets the tag 0. *)
Lemma untouched_tag_zero (strs : list string) (tags : list nat) (p : nat) :
  Mmtl.mapM (Mmtl.list_index Mmtl.NER_TAGS) strs = inr tags ->
  p < length strs -> nth p strs ""%string = "0.0"%string ->
  p < length tags /\ nth p tags 0 = 0.
Proof.
  intros H Hp Hz. apply mmtl_mapM_result in H.
  pose proof (Forall2_length H) as Hlen.
  pose proof (Forall2_nth_pair ""%string 0 H Hp) as Hn. cbv beta in Hn.
  rewrite Hz in Hn. cbn in Hn. injection Hn as Hn. split; [lia | now symmetry].
Qed.

Lemma tail_tag_zero (spc : Mmtl.Doc) (tokenizer : Mmtl.Tokenizer) (add_cls : bool)
      (strs : list string) (tags : list nat) (p : nat) :
  Mmtl.assign_ents (fst (Mmtl.get_bert_spacy_index spc tokenizer add_cls))
    (Mmtl.zeros_astype_str
       (length (snd (Mmtl.get_bert_spacy_index spc tokenizer add_cls))))
    (Mmtl.ents spc) = inr strs ->
  Mmtl.mapM (Mmtl.list_index Mmtl.NER_TAGS) strs = inr tags ->
  nth (length (Mmtl.doc_tokens spc) - 1)
      (fst (Mmtl.get_bert_spacy_index spc tokenizer add_cls)) 0 <= p ->
  p < length (snd (Mmtl.get_bert_spacy_index spc tokenizer add_cls)) ->
  length tags = length (snd (Mmtl.get_bert_spacy_index spc tokenizer add_cls)) /\
  nth p tags 0 = 0.
Proof.
  intros Ha Ht Hlo Hhi.
  pose proof (assign_ents_length _ _ _ Ha) as Hlen.
  unfold Mmtl.zeros_astype_str in Hlen. rewrite repeat_length in Hlen.
  assert (Hz : nth p strs ""%string = "0.0"%string).
  { rewrite (assign_ents_tail_untouched
               (fst (Mmtl.get_bert_spacy_index spc tokenizer add_cls))
               (Mmtl.ents spc) _ ""%string
               (token_map_le_last spc tokenizer add_cls) Ha Hlo).
    unfold Mmtl.zeros_astype_str. now apply nth_repeat_lt. }
  destruct (@untouched_tag_zero strs tags p Ht ltac:(lia) Hz) as [_ Hzero].
  split; [|exact Hzero].
  apply mmtl_mapM_result, Forall2_length in Ht. lia.
Qed.

Lemma sentence_tags_length (mp : list nat) (n : nat) (es : list Mmtl.Ent)
      (strs : list string) (tags : list nat) :
  Mmtl.assign_ents mp (Mmtl.zeros_astype_str n) es = inr strs ->
  Mmtl.mapM (Mmtl.list_index Mmtl.NER_TAGS) strs = inr tags ->
  length tags = n.
Proof.
  intros Ha Ht. apply assign_ents_length in Ha.
  unfold Mmtl.zeros_astype_str in Ha. rewrite repeat_length in Ha.
  apply mmtl_mapM_result, Forall2_length in Ht. lia.
Qed.

End NerLastToken.

(** X17: the pieces of the last spaCy token of a sentence are never tagged.
    The end of an entity is cut down to the last token of the sentence, so
    whatever entities spaCy found, the BERT positions from the first piece
    of the last token of a sentence up to its "[SEP]" get the tag 0; an
    entity that ends the sentence loses its last token, and an entity that
    is the last token leaves no tag at all. *)
Theorem get_spacy_ner_tags_last_token
        (score : Type) (payload : Mmtl.Payload score) (it : nat)
        (tags : list nat) (sent1 sent2 : Mmtl.Doc) (p : nat) :
  Mmtl.get_spacy_ner_tags payload it = inr tags ->
  Mmtl.list_get (Mmtl.spacy_tokens (Mmtl.dataset (Mmtl.data_loader payload))) it
    = inr (sent1, sent2) ->
  let tokenizer := Mmtl.bert_tokenizer (Mmtl.dataset (Mmtl.data_loader payload)) in
  let (map1, bert1) := Mmtl.get_bert_spacy_index sent1 tokenizer true in
  let (map2, bert2) := Mmtl.get_bert_spacy_index sent2 tokenizer false in
  (nth (length (Mmtl.doc_tokens sent1) - 1) map1 0 <= p -> p < length bert1 ->
   nth p tags 0 = 0) /\
  (nth (length (Mmtl.doc_tokens sent2) - 1) map2 0 <= p -> p < length bert2 ->
   nth (length bert1 + p) tags 0 = 0).
Proof.
  intros Htags Hs tokenizer.
  destruct (get_spacy_ner_tags_inv payload it Htags)
    as [s1 [s2 [ids [strs1 [strs2 [tags1 [tags2
          [Hs' [_ [Ha1 [Ha2 [Ht1 [Ht2 ->]]]]]]]]]]]]].
  rewrite Hs in Hs'. injection Hs' as <- <-. fold tokenizer in Ha1, Ha2.
  pose proof (fun p => tail_tag_zero sent1 tokenizer true (p := p) Ha1 Ht1) as H1.
  pose proof (fun p => tail_tag_zero sent2 tokenizer false (p := p) Ha2 Ht2) as H2.
  pose proof (sentence_tags_length _ _ _ Ha1 Ht1) as Hlen1.
  pose proof (sentence_tags_length _ _ _ Ha2 Ht2) as Hlen2.
  destruct (Mmtl.get_bert_spacy_index sent1 tokenizer true) as [map1 bert1].
  destruct (Mmtl.get_bert_spacy_index sent2 tokenizer false) as [map2 bert2].
  cbn [fst snd] in H1, H2, Hlen1, Hlen2.
  set (n := length (Mmtl.convert_ids_to_tokens _ ids)).
  split; intros Hlo Hhi; rewrite nth_firstn;
    match goal with |- (if ?c then _ else _) = _ => destruct c end;
    try reflexivity.
  - destruct (H1 p Hlo Hhi) as [_ Hz].
    rewrite app_nth1 by (rewrite length_app; lia).
    rewrite app_nth1 by lia. exact Hz.
  - destruct (H2 p Hlo Hhi) as [_ Hz].
    rewrite app_nth1 by (rewrite length_app; lia).
    rewrite app_nth2 by lia.
    replace (length bert1 + p - length tags1) with p by lia. exact Hz.
Qed.

Lemma get_spacy_ner_tags_last_token_witness :
  let tokenizer :=
    Mmtl.bert_tokenizer (Mmtl.dataset (Mmtl.data_loader example_payload)) in
  let (map1, bert1) := Mmtl.get_bert_spacy_index doc_paris tokenizer true in
  let (map2, bert2) := Mmtl.get_bert_spacy_index doc_rome tokenizer false in
  (nth (length (Mmtl.doc_tokens doc_paris) - 1) map1 0 <= 2 -> 2 < length bert1 ->
   nth 2 [0; 5; 5; 0; 0; 0; 0; 0; 0; 0; 0; 0] 0 = 0) /\
  (nth (length (Mmtl.doc_tokens doc_rome) - 1) map2 0 <= 2 -> 2 < length bert2 ->
   nth (length bert1 + 2) [0; 5; 5; 0; 0; 0; 0; 0; 0; 0; 0; 0] 0 = 0).
Proof.
  exact (@get_spacy_ner_tags_last_token nat example_payload 0 _ doc_paris doc_rome 2
           example_ner_tags eq_refl).
Defined.

(** ** Label sets of a payload (utils/dataloaders.py) *)

Section Dicts.

Variable V : Type.

Lemma dict_get_set_eq (d : Mmtl.dict V) (key : string) (v : V) :
  Mmtl.dict_get (Mmtl.dict_set d key v) key = Some v.
Proof.
  induction d as [|[k' v'] t IH]; cbn [Mmtl.dict_set Mmtl.dict_get].
  - now rewrite String.eqb_refl.
  - destruct (String.eqb key k') eqn:E; cbn [Mmtl.dict_get]; rewrite E;
      [reflexivity | exact IH].
Qed.

Lemma dict_get_set_neq (d : Mmtl.dict V) (key key' : string) (v : V) :
  key <> key' ->
  Mmtl.dict_get (Mmtl.dict_set d key v) key' = Mmtl.dict_get d key'.
Proof.
  intros Hne. induction d as [|[k' v'] t IH]; cbn [Mmtl.dict_set Mmtl.dict_get].
  - destruct (String.eqb_spec key' key); [congruence | reflexivity].
  - destruct (String.eqb_spec key k') as [->|Hk]; cbn [Mmtl.dict_get].
    + destruct (String.eqb_spec key' k'); [congruence | reflexivity].
    + destruct (String.eqb key' k'); [reflexivity | exact IH].
Qed.

Lemma dict_keys_set (d : Mmtl.dict V) (key : string) (v : V) :
  Mmtl.dict_keys (Mmtl.dict_set d key v) =
  if existsb (String.eqb key) (Mmtl.dict_keys d) then Mmtl.dict_keys d
  else Mmtl.dict_keys d ++ [key].
Proof.
  unfold Mmtl.dict_keys.
  induction d as [|[k' v'] t IH]; cbn [Mmtl.dict_set map existsb fst app];
    [reflexivity|].
  destruct (String.eqb key k'); cbn [map fst orb]; [reflexivity|].
  rewrite IH. now destruct (existsb _ _).
Qed.

End Dicts.

Lemma app_eq_length {A : Type} (a a' b b' : list A) :
  length a = length a' -> a ++ b = a' ++ b' -> a = a' /\ b = b'.
Proof.
  revert a'. induction a as [|x a IH]; intros [|x' a'] Hlen H;
    try discriminate Hlen.
  - now split.
  - cbn [app] in H. injection H as -> H. injection Hlen as Hlen.
    destruct (IH a' Hlen H) as [-> ->]. now split.
Qed.

Section AddLabels.

Variable score : Type.
Variable payload : Mmtl.Payload score.

Local Abbreviation ds := (Mmtl.dataset (Mmtl.data_loader payload)).

(** The payload once the label set [ls] is stored under [task_name]. *)
Lemma add_labels_list_eq (task_name : string) (ls : list (Mmtl.label score)) :
  Mmtl.add_labels_to_payload payload task_name (Mmtl.LabelList ls) =
  (Mmtl.mk_payload (Mmtl.name payload)
     (Mmtl.mk_data_loader
        (Mmtl.mk_dataset (Mmtl.dataset_len ds) (Mmtl.bert_tokens ds)
           (Mmtl.bert_segments ds) (Mmtl.spacy_tokens ds) (Mmtl.bert_tokenizer ds)
           (Mmtl.dict_set (Mmtl.labels ds) task_name ls)))
     (Mmtl.task_names payload ++ [task_name]) (Mmtl.split payload),
   inr tt).
Proof. reflexivity. Qed.

Lemma add_labels_fn_eq (task_name : string) (f : nat -> Mmtl.res (Mmtl.label score)) :
  Mmtl.add_labels_to_payload payload task_name (Mmtl.LabelFn f) =
  match Mmtl.mapM f (seq 0 (Mmtl.dataset_len ds)) with
  | inl e => (payload, inl e)
  | inr ls => Mmtl.add_labels_to_payload payload task_name (Mmtl.LabelList ls)
  end.
Proof.
  unfold Mmtl.add_labels_to_payload.
  destruct (Mmtl.mapM f (seq 0 (Mmtl.dataset_len ds))); reflexivity.
Qed.

End AddLabels.

(** X18: [add_labels_to_payload] with a list stores the list under the task
    name, leaves every other label set and every other attribute of the
    dataset as it was, and appends the task name to [task_names]. *)
Theorem add_labels_to_payload_list
        (score : Type) (payload : Mmtl.Payload score) (task_name : string)
        (ls : list (Mmtl.label score)) :
  exists payload',
    Mmtl.add_labels_to_payload payload task_name (Mmtl.LabelList ls)
      = (payload', inr tt) /\
    Mmtl.dict_get (Mmtl.labels (Mmtl.dataset (Mmtl.data_loader payload'))) task_name
      = Some ls /\
    (forall other, other <> task_name ->
       Mmtl.dict_get (Mmtl.labels (Mmtl.dataset (Mmtl.data_loader payload'))) other
       = Mmtl.dict_get (Mmtl.labels (Mmtl.dataset (Mmtl.data_loader payload))) other) /\
    Mmtl.task_names payload' = Mmtl.task_names payload ++ [task_name] /\
    Mmtl.bert_tokens (Mmtl.dataset (Mmtl.data_loader payload'))
      = Mmtl.bert_tokens (Mmtl.dataset (Mmtl.data_loader payload)) /\
    Mmtl.dataset_len (Mmtl.dataset (Mmtl.data_loader payload'))
      = Mmtl.dataset_len (Mmtl.dataset (Mmtl.data_loader payload)).
Proof.
  eexists. split; [apply add_labels_list_eq|].
  cbn [Mmtl.data_loader Mmtl.dataset Mmtl.labels Mmtl.task_names Mmtl.bert_tokens
       Mmtl.dataset_len].
  split; [apply dict_get_set_eq|].
  split; [|repeat split].
  intros other Hne. apply dict_get_set_neq. congruence.
Qed.

(** X19: [add_labels_to_payload] with a function labels the items 0, ...,
    len(dataset) - 1 in this order.  If the function raises on some item, the
    call raises the error of the first such item and the payload is left as
    it was; otherwise the label set has one label per item, the value of the
    function there. *)
Theorem add_labels_to_payload_function
        (score : Type) (payload : Mmtl.Payload score) (task_name : string)
        (f : nat -> Mmtl.res (Mmtl.label score)) :
  let n := Mmtl.dataset_len (Mmtl.dataset (Mmtl.data_loader payload)) in
  match Mmtl.add_labels_to_payload payload task_name (Mmtl.LabelFn f) with
  | (payload', inr _) =>
      exists ls,
        Mmtl.dict_get (Mmtl.labels (Mmtl.dataset (Mmtl.data_loader payload')))
                      task_name = Some ls /\
        length ls = n /\
        Forall2 (fun i v => f i = inr v) (seq 0 n) ls
  | (payload', inl e) =>
      payload' = payload /\
      exists i, i < n /\ f i = inl e /\ forall j, j < i -> exists v, f j = inr v
  end.
Proof.
  intros n. rewrite add_labels_fn_eq. fold n.
  destruct (Mmtl.mapM f (seq 0 n)) as [e|ls] eqn:Hm.
  - split; [reflexivity|].
    destruct (mmtl_mapM_error _ _ Hm) as [l1 [a [l2 [bs [Hsplit [H1 Ha]]]]]].
    assert (Hl1 : l1 = seq 0 (length l1) /\ a = length l1 /\ length l1 < n).
    { assert (Hlen : length (seq 0 n) = length l1 + S (length l2))
        by (rewrite Hsplit, length_app; reflexivity).
      rewrite length_seq in Hlen.
      replace n with (length l1 + S (length l2)) in Hsplit by lia.
      rewrite seq_app in Hsplit. cbn [seq Nat.add] in Hsplit.
      apply app_eq_length in Hsplit; [|now rewrite length_seq].
      destruct Hsplit as [E1 E2]. injection E2 as E2 _.
      repeat split; [now symmetry | now symmetry | lia]. }
    destruct Hl1 as [E1 [-> Hlt]].
    exists (length l1). repeat split; [exact Hlt | exact Ha|].
    intros j Hj. apply mmtl_mapM_result in H1. rewrite E1 in H1.
    pose proof (Forall2_length H1) as Hlen. rewrite length_seq in Hlen.
    pose proof (Forall2_nth_pair 0 (Mmtl.Given score 0) H1 (p := j)
                  ltac:(rewrite length_seq; exact Hj)) as Hn.
    cbv beta in Hn. rewrite seq_nth in Hn by exact Hj. eexists. exact Hn.
  - rewrite add_labels_list_eq.
    cbn [Mmtl.data_loader Mmtl.dataset Mmtl.labels].
    exists ls. split; [apply dict_get_set_eq|].
    apply mmtl_mapM_result in Hm. split; [|exact Hm].
    apply Forall2_length in Hm. now rewrite length_seq in Hm.
Qed.

Lemma dict_set_has_key {V : Type} (d : Mmtl.dict V) (key : string) (v : V) :
  existsb (String.eqb key) (Mmtl.dict_keys (Mmtl.dict_set d key v)) = true.
Proof.
  unfold Mmtl.dict_keys.
  induction d as [|[k' v'] t IH]; cbn [Mmtl.dict_set map existsb fst].
  - now rewrite String.eqb_refl.
  - destruct (String.eqb key k') eqn:E; cbn [map existsb fst]; rewrite E;
      [reflexivity | exact IH].
Qed.

(** X20: [add_labels_to_payload] does not check whether the task is already
    there: adding labels twice under one task name keeps one label set, the
    second, under that name, and lists the name twice in [task_names]. *)
Theorem add_labels_to_payload_twice
        (score : Type) (payload : Mmtl.Payload score) (task_name : string)
        (ls1 ls2 : list (Mmtl.label score)) :
  let payload1 :=
    fst (Mmtl.add_labels_to_payload payload task_name (Mmtl.LabelList ls1)) in
  let payload2 :=
    fst (Mmtl.add_labels_to_payload payload1 task_name (Mmtl.LabelList ls2)) in
  Mmtl.dict_get (Mmtl.labels (Mmtl.dataset (Mmtl.data_loader payload2))) task_name
    = Some ls2 /\
  Mmtl.dict_keys (Mmtl.labels (Mmtl.dataset (Mmtl.data_loader payload2)))
    = Mmtl.dict_keys (Mmtl.labels (Mmtl.dataset (Mmtl.data_loader payload1))) /\
  Mmtl.task_names payload2 = Mmtl.task_names payload ++ [task_name; task_name].
Proof.
  cbv zeta. rewrite !add_labels_list_eq.
  cbn [fst Mmtl.data_loader Mmtl.dataset Mmtl.labels Mmtl.task_names].
  split; [apply dict_get_set_eq|]. split.
  - now rewrite dict_keys_set, dict_set_has_key.
  - now rewrite <- app_assoc.
Qed.

(** X21: when [add_spacy_ner_labels] returns, the payload has a label set
    "SPACY_NER" with one entry per item of the dataset, the entry of an item
    a list of tags with one tag per BERT token recorded for the item, and
    "SPACY_NER" is appended to [task_names]. *)
Theorem add_spacy_ner_labels_spec
        (score : Type) (payload payload' : Mmtl.Payload score) :
  Mmtl.add_spacy_ner_labels payload = (payload', inr tt) ->
  let ds := Mmtl.dataset (Mmtl.data_loader payload) in
  exists ls,
    Mmtl.dict_get (Mmtl.labels (Mmtl.dataset (Mmtl.data_loader payload')))
                  "SPACY_NER" = Some ls /\
    length ls = Mmtl.dataset_len ds /\
    Mmtl.task_names payload' = Mmtl.task_names payload ++ ["SPACY_NER"%string] /\
    forall it, it < Mmtl.dataset_len ds ->
      exists tags ids,
        nth it ls (Mmtl.Given score 0) = Mmtl.NerTags score tags /\
        Mmtl.list_get (Mmtl.bert_tokens ds) it = inr ids /\
        length tags
        = length (Mmtl.convert_ids_to_tokens (Mmtl.bert_tokenizer ds) ids).
Proof.
  unfold Mmtl.add_spacy_ner_labels. rewrite add_labels_fn_eq.
  destruct (Mmtl.mapM _ (seq 0 _)) as [e|ls] eqn:Hm; [discriminate|].
  rewrite add_labels_list_eq. intros E. injection E as <-. cbv zeta.
  cbn [Mmtl.data_loader Mmtl.dataset Mmtl.labels Mmtl.task_names].
  apply mmtl_mapM_result in Hm.
  pose proof (Forall2_length Hm) as Hlen. rewrite length_seq in Hlen.
  exists ls. split; [apply dict_get_set_eq|].
  split; [now symmetry|]. split; [reflexivity|].
  intros it Hit.
  pose proof (Forall2_nth_pair 0 (Mmtl.Given score 0) Hm (p := it)
                ltac:(rewrite length_seq; exact Hit)) as Hn.
  cbv beta in Hn. rewrite seq_nth in Hn by exact Hit. cbn [Nat.add] in Hn.
  unfold Mmtl.bind in Hn.
  destruct (Mmtl.get_spacy_ner_tags payload it) as [e|tags] eqn:Ht; [discriminate|].
  injection Hn as Hn.
  destruct (get_spacy_ner_tags_inv payload it Ht)
    as [sent1 [sent2 [ids [strs1 [strs2 [tags1 [tags2
          [_ [Hids [_ [_ [_ [_ Htags]]]]]]]]]]]]].
  exists tags, ids. split; [now symmetry|]. split; [exact Hids|].
  rewrite Htags, length_firstn, length_app, repeat_length. lia.
Qed.

Lemma add_spacy_ner_labels_example :
  Mmtl.add_spacy_ner_labels example_payload =
  (fst (Mmtl.add_labels_to_payload example_payload "SPACY_NER"
          (Mmtl.LabelList
             [Mmtl.NerTags nat [0; 5; 5; 0; 0; 0; 0; 0; 0; 0; 0; 0]])),
   inr tt).
Proof. reflexivity. Qed.

Lemma add_spacy_ner_labels_spec_witness :
  let ds := Mmtl.dataset (Mmtl.data_loader example_payload) in
  exists ls,
    Mmtl.dict_get
      (Mmtl.labels
         (Mmtl.dataset
            (Mmtl.data_loader
               (fst (Mmtl.add_labels_to_payload example_payload "SPACY_NER"
                       (Mmtl.LabelList
                          [Mmtl.NerTags nat [0; 5; 5; 0; 0; 0; 0; 0; 0; 0; 0; 0]]))))))
      "SPACY_NER" = Some ls /\
    length ls = Mmtl.dataset_len ds /\
    Mmtl.task_names
      (fst (Mmtl.add_labels_to_payload example_payload "SPACY_NER"
              (Mmtl.LabelList
                 [Mmtl.NerTags nat [0; 5; 5; 0; 0; 0; 0; 0; 0; 0; 0; 0]])))
    = Mmtl.task_names example_payload ++ ["SPACY_NER"%string] /\
    forall it, it < Mmtl.dataset_len ds ->
      exists tags ids,
        nth it ls (Mmtl.Given nat 0) = Mmtl.NerTags nat tags /\
        Mmtl.list_get (Mmtl.bert_tokens ds) it = inr ids /\
        length tags
        = length (Mmtl.convert_ids_to_tokens (Mmtl.bert_tokenizer ds) ids).
Proof.
  exact (@add_spacy_ner_labels_spec nat example_payload _
           add_spacy_ner_labels_example).
Defined.

(** X22: when [add_bleu_labels] returns, every item of the dataset has BERT
    ids and segment ids of one length, and the payload has a label set
    "BLEU" whose entry for an item is the score that [sentence_bleu] gives
    to the tokens of segment 0 against the tokens of segment 1; tokens of
    any other segment are in neither. *)
Theorem add_bleu_labels_spec
        (score : Type) (sentence_bleu : list string -> list string -> score)
        (payload payload' : Mmtl.Payload score) :
  Mmtl.add_bleu_labels sentence_bleu payload = (payload', inr tt) ->
  let ds := Mmtl.dataset (Mmtl.data_loader payload) in
  exists ls,
    Mmtl.dict_get (Mmtl.labels (Mmtl.dataset (Mmtl.data_loader payload')))
                  "BLEU" = Some ls /\
    length ls = Mmtl.dataset_len ds /\
    forall it, it < Mmtl.dataset_len ds ->
      exists ids segs,
        Mmtl.list_get (Mmtl.bert_tokens ds) it = inr ids /\
        Mmtl.list_get (Mmtl.bert_segments ds) it = inr segs /\
        let toks := Mmtl.convert_ids_to_tokens (Mmtl.bert_tokenizer ds) ids in
        length toks = length segs /\
        nth it ls (Mmtl.Given score 0) =
        Mmtl.Bleu
          (sentence_bleu
             (map fst (filter (fun p => snd p =? 0) (combine toks segs)))
             (map fst (filter (fun p => snd p =? 1) (combine toks segs)))).
Proof.
  unfold Mmtl.add_bleu_labels. rewrite add_labels_fn_eq.
  destruct (Mmtl.mapM _ (seq 0 _)) as [e|ls] eqn:Hm; [discriminate|].
  rewrite add_labels_list_eq. intros E. injection E as <-. cbv zeta.
  cbn [Mmtl.data_loader Mmtl.dataset Mmtl.labels].
  apply mmtl_mapM_result in Hm.
  pose proof (Forall2_length Hm) as Hlen. rewrite length_seq in Hlen.
  exists ls. split; [apply dict_get_set_eq|]. split; [now symmetry|].
  intros it Hit.
  pose proof (Forall2_nth_pair 0 (Mmtl.Given score 0) Hm (p := it)
                ltac:(rewrite length_seq; exact Hit)) as Hn.
  cbv beta in Hn. rewrite seq_nth in Hn by exact Hit. cbn [Nat.add] in Hn.
  unfold Mmtl.get_bleu_label, Mmtl.bind in Hn.
  destruct (Mmtl.list_get (Mmtl.bert_tokens _) it) as [e|ids]; [discriminate|].
  destruct (Mmtl.list_get (Mmtl.bert_segments _) it) as [e|segs]; [discriminate|].
  unfold Mmtl.mask_select in Hn.
  destruct (Nat.eqb_spec (length (Mmtl.convert_ids_to_tokens
                                    (Mmtl.bert_tokenizer
                                       (Mmtl.dataset (Mmtl.data_loader payload))) ids))
                         (length segs)) as [Heq|Hne]; [|discriminate].
  injection Hn as Hn.
  exists ids, segs. repeat split; [exact Heq | now symmetry].
Qed.

Lemma add_bleu_labels_example :
  Mmtl.add_bleu_labels (fun refs hyp => length refs + length hyp) example_payload =
  (fst (Mmtl.add_labels_to_payload example_payload "BLEU"
          (Mmtl.LabelList [Mmtl.Bleu 12])),
   inr tt).
Proof. reflexivity. Qed.

Lemma add_bleu_labels_spec_witness :
  let ds := Mmtl.dataset (Mmtl.data_loader example_payload) in
  exists ls,
    Mmtl.dict_get
      (Mmtl.labels
         (Mmtl.dataset
            (Mmtl.data_loader
               (fst (Mmtl.add_labels_to_payload example_payload "BLEU"
                       (Mmtl.LabelList [Mmtl.Bleu 12]))))))
      "BLEU" = Some ls /\
    length ls = Mmtl.dataset_len ds /\
    forall it, it < Mmtl.dataset_len ds ->
      exists ids segs,
        Mmtl.list_get (Mmtl.bert_tokens ds) it = inr ids /\
        Mmtl.list_get (Mmtl.bert_segments ds) it = inr segs /\
        let toks := Mmtl.convert_ids_to_tokens (Mmtl.bert_tokenizer ds) ids in
        length toks = length segs /\
        nth it ls (Mmtl.Given nat 0) =
        Mmtl.Bleu
          (length (map fst (filter (fun p => snd p =? 0) (combine toks segs)))
           + length (map fst (filter (fun p => snd p =? 1) (combine toks segs)))).
Proof.
  exact (@add_bleu_labels_spec nat (fun refs hyp => length refs + length hyp)
           example_payload _ add_bleu_labels_example).
Defined.

(** ** Loaders of the splits of a dataset *)

Lemma dict_get_absent {V : Type} (d : Mmtl.dict V) (key : string) :
  ~ In key (Mmtl.dict_keys d) -> Mmtl.dict_get d key = None.
Proof.
  unfold Mmtl.dict_keys.
  induction d as [|[k' v] t IH]; cbn [Mmtl.dict_get map fst In]; [reflexivity|].
  intros Hn. destruct (String.eqb_spec key k') as [->|Hk]; [tauto|].
  apply IH. tauto.
Qed.

Lemma existsb_eqb_In (key : string) (l : list string) :
  existsb (String.eqb key) l = true <-> In key l.
Proof.
  rewrite existsb_exists. split.
  - intros [x [Hx E]]. apply String.eqb_eq in E. now subst.
  - intros H. exists key. split; [exact H | apply String.eqb_refl].
Qed.

Lemma existsb_eqb_not_In (key : string) (l : list string) :
  existsb (String.eqb key) l = false <-> ~ In key l.
Proof.
  rewrite <- existsb_eqb_In. now destruct (existsb _ _).
Qed.

(** The dictionary that a loop [for k in keys: d[k] = g(k)] leaves. *)
Lemma dict_fill_get {V : Type} (g : string -> V) (keys : list string)
      (d0 : Mmtl.dict V) (key : string) :
  Mmtl.dict_get (fold_left (fun d k => Mmtl.dict_set d k (g k)) keys d0) key =
  if existsb (String.eqb key) keys then Some (g key) else Mmtl.dict_get d0 key.
Proof.
  revert d0. induction keys as [|k t IH]; intros d0; cbn [fold_left existsb];
    [reflexivity|].
  rewrite IH. destruct (String.eqb_spec key k) as [->|Hk]; cbn [orb].
  - rewrite (@dict_get_set_eq V d0 k (g k)). now destruct (existsb _ _).
  - rewrite (@dict_get_set_neq V d0 k key (g k)) by congruence. reflexivity.
Qed.

Lemma dict_set_keys_fresh {V : Type} (d : Mmtl.dict V) (key : string) (v : V) :
  ~ In key (Mmtl.dict_keys d) ->
  Mmtl.dict_keys (Mmtl.dict_set d key v) = Mmtl.dict_keys d ++ [key].
Proof.
  intros Hn. rewrite (@dict_keys_set V d key v).
  apply existsb_eqb_not_In in Hn. now rewrite Hn.
Qed.

Lemma dict_set_keys_NoDup {V : Type} (d : Mmtl.dict V) (key : string) (v : V) :
  NoDup (Mmtl.dict_keys d) -> NoDup (Mmtl.dict_keys (Mmtl.dict_set d key v)).
Proof.
  intros Hd. rewrite (@dict_keys_set V d key v).
  destruct (existsb (String.eqb key) (Mmtl.dict_keys d)) eqn:E; [exact Hd|].
  apply existsb_eqb_not_In in E.
  apply NoDup_app; [exact Hd | repeat constructor; intros [] | ].
  intros x Hx [<-|[]]. contradiction.
Qed.

Lemma dict_fill_keys_NoDup {V : Type} (g : string -> V) (keys : list string)
      (d0 : Mmtl.dict V) :
  NoDup (Mmtl.dict_keys d0) ->
  NoDup (Mmtl.dict_keys (fold_left (fun d k => Mmtl.dict_set d k (g k)) keys d0)).
Proof.
  revert d0. induction keys as [|k t IH]; intros d0 Hd; cbn [fold_left];
    [exact Hd|].
  apply IH. now apply dict_set_keys_NoDup.
Qed.

Lemma dict_fill_keys {V : Type} (g : string -> V) (keys : list string)
      (d0 : Mmtl.dict V) :
  NoDup (Mmtl.dict_keys d0 ++ keys) ->
  Mmtl.dict_keys (fold_left (fun d k => Mmtl.dict_set d k (g k)) keys d0) =
  Mmtl.dict_keys d0 ++ keys.
Proof.
  revert d0. induction keys as [|k t IH]; intros d0 Hd; cbn [fold_left].
  - now rewrite app_nil_r.
  - assert (Hk : ~ In k (Mmtl.dict_keys d0)).
    { apply NoDup_remove_2 in Hd. intros Hin. apply Hd, in_or_app. now left. }
    rewrite IH; rewrite (@dict_set_keys_fresh V d0 k (g k) Hk);
      rewrite <- app_assoc; [reflexivity | exact Hd].
Qed.

(** The dictionary that a loop [for k in src: d[k] = h(src[k])] leaves. *)
Lemma dict_map_get {V W : Type} (h : V -> W) (src : Mmtl.dict V)
      (d0 : Mmtl.dict W) (key : string) :
  NoDup (Mmtl.dict_keys src) ->
  Mmtl.dict_get
    (fold_left (fun d item => Mmtl.dict_set d (fst item) (h (snd item))) src d0)
    key =
  match Mmtl.dict_get src key with
  | Some v => Some (h v)
  | None => Mmtl.dict_get d0 key
  end.
Proof.
  revert d0. induction src as [|[k v] t IH]; intros d0 Hnd;
    cbn [fold_left Mmtl.dict_get fst snd]; [reflexivity|].
  unfold Mmtl.dict_keys in Hnd. cbn [map fst] in Hnd.
  apply NoDup_cons_iff in Hnd. destruct Hnd as [Hk Hnd].
  rewrite (IH _ Hnd). destruct (String.eqb_spec key k) as [->|Hne].
  - rewrite (@dict_get_absent V t k Hk). apply dict_get_set_eq.
  - rewrite (@dict_get_set_neq W d0 k key (h v)) by congruence. reflexivity.
Qed.

Lemma dict_map_keys {V W : Type} (h : V -> W) (src : Mmtl.dict V)
      (d0 : Mmtl.dict W) :
  NoDup (Mmtl.dict_keys d0 ++ Mmtl.dict_keys src) ->
  Mmtl.dict_keys
    (fold_left (fun d item => Mmtl.dict_set d (fst item) (h (snd item))) src d0) =
  Mmtl.dict_keys d0 ++ Mmtl.dict_keys src.
Proof.
  revert d0. induction src as [|[k v] t IH]; intros d0 Hd;
    cbn [fold_left fst snd].
  - unfold Mmtl.dict_keys at 3. cbn [map]. now rewrite app_nil_r.
  - unfold Mmtl.dict_keys at 2 in Hd. cbn [map fst] in Hd.
    assert (Hk : ~ In k (Mmtl.dict_keys d0)).
    { apply NoDup_remove_2 in Hd. intros Hin. apply Hd, in_or_app. now left. }
    rewrite IH; rewrite (@dict_set_keys_fresh W d0 k (h v) Hk);
      rewrite <- app_assoc; [reflexivity | exact Hd].
Qed.

Section DataloaderProperties.

Variables GlueDataset Loader Kwargs : Type.
Variable get_glue_dataset :
  string -> string -> string -> nat -> Z -> bool -> bool -> GlueDataset.
Variable get_dataloader : GlueDataset -> Kwargs -> Loader.
Variable get_dataloader_split :
  GlueDataset -> QArith_base.Q -> Z -> Kwargs -> Loader * Loader.

Variables (dataset_name bert_vocab : string) (max_len : nat) (dl_kwargs : Kwargs)
          (max_datapoints : Z) (generate_uids : bool) (seed : Z)
          (verbose run_spacy : bool).

(** The dataset read from the file of a split. *)
Local Abbreviation load file :=
  (get_glue_dataset dataset_name file bert_vocab max_len max_datapoints
                    generate_uids run_spacy).

Local Abbreviation run split_prop splits :=
  (Mmtl.get_all_dataloaders get_glue_dataset get_dataloader get_dataloader_split
     dataset_name bert_vocab max_len dl_kwargs split_prop max_datapoints splits
     generate_uids seed verbose run_spacy).

(** X23: with a split proportion that is neither None nor 0 and "train"
    among the splits, [get_all_dataloaders] returns the two loaders cut
    from the train file under "train" and "valid" and, when "valid" is
    among the splits, the loader of the dev file under "test"; a loader is
    made for no other split, whatever the list names. *)
Theorem get_all_dataloaders_split_prop (p : QArith_base.Q) (splits : list string) :
  Mmtl.truthy (Some p) = true ->
  In "train"%string splits ->
  run (Some p) splits =
  inr ([("train"%string,
         fst (get_dataloader_split (load "train"%string) p seed dl_kwargs));
        ("valid"%string,
         snd (get_dataloader_split (load "train"%string) p seed dl_kwargs))]
       ++ if existsb (String.eqb "valid") splits
          then [("test"%string, get_dataloader (load "dev"%string) dl_kwargs)]
          else []).
Proof.
  intros Hp Htrain. unfold Mmtl.get_all_dataloaders.
  rewrite Hp. apply existsb_eqb_In in Htrain. rewrite Htrain. cbn [andb].
  rewrite !dict_fill_get, Htrain.
  destruct (get_dataloader_split _ p seed dl_kwargs) as [dl_train dl_valid].
  cbn [fst snd]. destruct (existsb (String.eqb "valid") splits); reflexivity.
Qed.

(** X24: with no split proportion (None or 0), or without "train" among
    the splits, [get_all_dataloaders] returns for each name in the splits
    the loader of the dataset read from the file of that name, the dev
    file for "valid", and no other key; the keys come in the order of the
    splits when no name is repeated. *)
Theorem get_all_dataloaders_standard (split_prop : option QArith_base.Q)
        (splits : list string) :
  Mmtl.truthy split_prop && existsb (String.eqb "train") splits = false ->
  exists d,
    run split_prop splits = inr d /\
    (forall s,
        Mmtl.dict_get d s =
        if existsb (String.eqb s) splits
        then Some (get_dataloader (load (Mmtl.split_file s)) dl_kwargs)
        else None) /\
    (NoDup splits -> Mmtl.dict_keys d = splits).
Proof.
  intros Hc. unfold Mmtl.get_all_dataloaders. rewrite Hc.
  eexists. split; [reflexivity|]. split.
  - intros s.
    pose proof (@dict_map_get _ _ (fun v => get_dataloader v dl_kwargs)
                  (fold_left
                     (fun d k => Mmtl.dict_set d k (load (Mmtl.split_file k)))
                     splits []) [] s
                  (dict_fill_keys_NoDup _ splits [] (NoDup_nil _))) as Hg.
    cbv beta in Hg. rewrite Hg.
    rewrite (dict_fill_get (fun k => load (Mmtl.split_file k))).
    now destruct (existsb (String.eqb s) splits).
  - intros Hnd.
    assert (Hk : Mmtl.dict_keys
                   (fold_left
                      (fun d k => Mmtl.dict_set d k (load (Mmtl.split_file k)))
                      splits []) = splits).
    { now rewrite (dict_fill_keys (fun k => load (Mmtl.split_file k))). }
    pose proof (@dict_map_keys _ _ (fun v => get_dataloader v dl_kwargs)
                  (fold_left
                     (fun d k => Mmtl.dict_set d k (load (Mmtl.split_file k)))
                     splits []) []) as Hm.
    cbv beta in Hm. rewrite Hm; rewrite Hk; [reflexivity | exact Hnd].
Qed.

(** X25: the lookup of the train dataset in [get_all_dataloaders] never
    fails: whatever the split proportion and the splits, a dictionary is
    returned, and each of its keys is one of the splits, or "valid" or
    "test". *)
Theorem get_all_dataloaders_keys (split_prop : option QArith_base.Q)
        (splits : list string) :
  exists d,
    run split_prop splits = inr d /\
    forall s, Mmtl.dict_get d s <> None ->
              In s splits \/ s = "valid"%string \/ s = "test"%string.
Proof.
  unfold Mmtl.get_all_dataloaders.
  destruct (Mmtl.truthy split_prop && existsb (String.eqb "train") splits) eqn:Hc.
  - apply andb_prop in Hc. destruct Hc as [Hp Htrain].
    destruct split_prop as [p|]; [|discriminate].
    rewrite !dict_fill_get, Htrain.
    destruct (get_dataloader_split _ p seed dl_kwargs) as [dl_train dl_valid].
    apply existsb_eqb_In in Htrain.
    destruct (existsb (String.eqb "valid") splits);
      (eexists; split; [reflexivity|]); intros s; cbn [Mmtl.dict_set Mmtl.dict_get];
      cbn;
      repeat match goal with
             | |- context [String.eqb s ?k] =>
                 destruct (String.eqb_spec s k) as [->|?]
             end; auto; intros H; now elim H.
  - eexists. split; [reflexivity|]. intros s.
    pose proof (@dict_map_get _ _ (fun v => get_dataloader v dl_kwargs)
                  (fold_left
                     (fun d k => Mmtl.dict_set d k (load (Mmtl.split_file k)))
                     splits []) [] s
                  (dict_fill_keys_NoDup _ splits [] (NoDup_nil _))) as Hg.
    cbv beta in Hg. rewrite Hg.
    rewrite (dict_fill_get (fun k => load (Mmtl.split_file k))).
    destruct (existsb (String.eqb s) splits) eqn:E.
    + apply existsb_eqb_In in E. auto.
    + cbn [Mmtl.dict_get]. intros H. now elim H.
Qed.

End DataloaderProperties.

Lemma get_all_dataloaders_split_prop_witness :
  Mmtl.get_all_dataloaders example_get_glue_dataset example_get_dataloader
    example_get_dataloader_split "MRPC" "bert-base-uncased" 128 tt
    (Some (QArith_base.Qmake 1 10)) (-1) ["train"; "valid"; "test"]%string
    false 123 true false =
  inr [("train", "train.head"); ("valid", "train.tail"); ("test", "dev")]%string.
Proof.
  apply (@get_all_dataloaders_split_prop string string unit
           example_get_glue_dataset example_get_dataloader
           example_get_dataloader_split "MRPC" "bert-base-uncased" 128 tt (-1)
           false 123 true false (QArith_base.Qmake 1 10)
           ["train"; "valid"; "test"]%string);
    [reflexivity | left; reflexivity].
Defined.

Lemma get_all_dataloaders_standard_witness :
  exists d,
    Mmtl.get_all_dataloaders example_get_glue_dataset example_get_dataloader
      example_get_dataloader_split "MRPC" "bert-base-uncased" 128 tt
      None (-1) ["valid"; "test"]%string false 123 true false = inr d /\
    (forall s,
        Mmtl.dict_get d s =
        if existsb (String.eqb s) ["valid"; "test"]%string
        then Some (example_get_dataloader
                     (example_get_glue_dataset "MRPC" (Mmtl.split_file s)
                        "bert-base-uncased" 128 (-1) false false) tt)
        else None) /\
    (NoDup ["valid"; "test"]%string ->
     Mmtl.dict_keys d = ["valid"; "test"]%string).
Proof.
  apply (@get_all_dataloaders_standard string string unit
           example_get_glue_dataset example_get_dataloader
           example_get_dataloader_split "MRPC" "bert-base-uncased" 128 tt (-1)
           false 123 true false None ["valid"; "test"]%string).
  reflexivity.
Defined.
